(** * MiniLedger core: Raft commit rule, storage engine, peer mesh, keystore

    A shallow embedding of the TypeScript fragments documented in
    [docs/architecture/consensus.md], [storage.md], [networking.md] and
    [identity.md], followed by the properties proved about them.

    Part I holds the definitions, Part II the lemmas and theorems. *)

From Stdlib Require Import ZArith Lia Ascii String DecimalString DecimalNat
  Sorted.
From stdpp Require Import gmap strings list.

Set Warnings "-abstract-large-number".
Local Open Scope nat_scope.

(* ===================================================================== *)
(** * Part I — Definitions                                                *)
(* ===================================================================== *)

(** ** Shared data model *)

Record Transaction := mkTransaction {
  tx_hash : string;
  tx_type : string;
  tx_sender : string;
  tx_nonce : nat;
  tx_timestamp : nat;
  tx_payload : string;
  tx_signature : string
}.

Record Block := mkBlock {
  height : nat;
  hash : string;
  previousHash : string;
  timestamp : nat;
  merkleRoot : string;
  stateRoot : string;
  proposer : string;
  signature : string;
  transactions : list Transaction
}.

(* --------------------------------------------------------------------- *)
(** ** Raft consensus ([RaftNode])                                        *)
(* --------------------------------------------------------------------- *)

Module Raft.

(** [interface RaftLogEntry { term; index; block }] *)
Record RaftLogEntry := mkEntry {
  term : nat;
  index : nat;
  block : Block
}.

(** [enum RaftRole] *)
Inductive RaftRole := Follower | Candidate | Leader.

#[global] Instance RaftRole_eq_dec : EqDecision RaftRole.
Proof. solve_decision. Defined.

(** Modelled from the spec: the [RaftLog] class ([getLastIndex],
    [getLastTerm], [getEntry], [append]) is used by the documented methods
    but its body is not part of the sources.  The data model says an
    entry's index is its 1-based position in the log, so the log is the
    list of its entries, the entry with index [n] sitting at position
    [n - 1]; an empty log has last index 0 and last term 0. *)
Abbreviation RaftLog := (list RaftLogEntry).

Definition getLastIndex (l : RaftLog) : nat := length l.

Definition getEntry (l : RaftLog) (n : nat) : option RaftLogEntry :=
  match n with
  | 0 => None
  | S i => l !! i
  end.

Definition getLastTerm (l : RaftLog) : nat :=
  match getEntry l (getLastIndex l) with
  | Some e => term e
  | None => 0
  end.

Definition append (l : RaftLog) (e : RaftLogEntry) : RaftLog := l ++ [e].

(** Consensus RPCs placed on the wire (fields as in the AppendEntries /
    RequestVote tables). *)
Inductive Message :=
| RequestVote (mterm : nat) (candidateId : string)
              (lastLogIndex lastLogTerm : nat)
| RequestVoteReply (mterm : nat) (voteGranted : bool)
| AppendEntries (mterm : nat) (mleaderId : string)
                (prevLogIndex prevLogTerm : nat)
                (entries : list RaftLogEntry) (leaderCommit : nat).

(** Events signalled upward to the orchestrator. *)
Inductive Signal :=
| LeaderElected (who : string) (atTerm : nat).

(** The state of one [RaftNode].  [knownNodeIds] is what
    [peerManager.getKnownNodeIds()] returns; [hasCallback] says whether
    [onBlockCommitted] is set and [delivered] lists, oldest first, the
    blocks that callback has been invoked with; [outbox] lists the
    (destination, message) pairs handed to the peer manager. *)
Record RaftNode := mkNode {
  nodeId : string;
  knownNodeIds : list string;
  currentTerm : nat;
  votedFor : option string;
  raftLog : RaftLog;
  role : RaftRole;
  leaderId : option string;
  commitIndex : nat;
  lastApplied : nat;
  nextIndex : gmap string nat;
  matchIndex : gmap string nat;
  hasCallback : bool;
  delivered : list Block;
  outbox : list (string * Message);
  signals : list Signal;
  electionTimer : bool;
  heartbeatTimer : bool
}.

(** Field updates. *)
Definition set_currentTerm (v : nat) (s : RaftNode) : RaftNode :=
  mkNode (nodeId s) (knownNodeIds s) v (votedFor s) (raftLog s) (role s)
         (leaderId s) (commitIndex s) (lastApplied s) (nextIndex s)
         (matchIndex s) (hasCallback s) (delivered s) (outbox s) (signals s)
         (electionTimer s) (heartbeatTimer s).

Definition set_votedFor (v : option string) (s : RaftNode) : RaftNode :=
  mkNode (nodeId s) (knownNodeIds s) (currentTerm s) v (raftLog s) (role s)
         (leaderId s) (commitIndex s) (lastApplied s) (nextIndex s)
         (matchIndex s) (hasCallback s) (delivered s) (outbox s) (signals s)
         (electionTimer s) (heartbeatTimer s).

Definition set_raftLog (v : RaftLog) (s : RaftNode) : RaftNode :=
  mkNode (nodeId s) (knownNodeIds s) (currentTerm s) (votedFor s) v (role s)
         (leaderId s) (commitIndex s) (lastApplied s) (nextIndex s)
         (matchIndex s) (hasCallback s) (delivered s) (outbox s) (signals s)
         (electionTimer s) (heartbeatTimer s).

Definition set_role (v : RaftRole) (s : RaftNode) : RaftNode :=
  mkNode (nodeId s) (knownNodeIds s) (currentTerm s) (votedFor s) (raftLog s)
         v (leaderId s) (commitIndex s) (lastApplied s) (nextIndex s)
         (matchIndex s) (hasCallback s) (delivered s) (outbox s) (signals s)
         (electionTimer s) (heartbeatTimer s).

Definition set_leaderId (v : option string) (s : RaftNode) : RaftNode :=
  mkNode (nodeId s) (knownNodeIds s) (currentTerm s) (votedFor s) (raftLog s)
         (role s) v (commitIndex s) (lastApplied s) (nextIndex s)
         (matchIndex s) (hasCallback s) (delivered s) (outbox s) (signals s)
         (electionTimer s) (heartbeatTimer s).

Definition set_commitIndex (v : nat) (s : RaftNode) : RaftNode :=
  mkNode (nodeId s) (knownNodeIds s) (currentTerm s) (votedFor s) (raftLog s)
         (role s) (leaderId s) v (lastApplied s) (nextIndex s)
         (matchIndex s) (hasCallback s) (delivered s) (outbox s) (signals s)
         (electionTimer s) (heartbeatTimer s).

Definition set_lastApplied (v : nat) (s : RaftNode) : RaftNode :=
  mkNode (nodeId s) (knownNodeIds s) (currentTerm s) (votedFor s) (raftLog s)
         (role s) (leaderId s) (commitIndex s) v (nextIndex s)
         (matchIndex s) (hasCallback s) (delivered s) (outbox s) (signals s)
         (electionTimer s) (heartbeatTimer s).

Definition set_nextIndex (v : gmap string nat) (s : RaftNode) : RaftNode :=
  mkNode (nodeId s) (knownNodeIds s) (currentTerm s) (votedFor s) (raftLog s)
         (role s) (leaderId s) (commitIndex s) (lastApplied s) v
         (matchIndex s) (hasCallback s) (delivered s) (outbox s) (signals s)
         (electionTimer s) (heartbeatTimer s).

Definition set_matchIndex (v : gmap string nat) (s : RaftNode) : RaftNode :=
  mkNode (nodeId s) (knownNodeIds s) (currentTerm s) (votedFor s) (raftLog s)
         (role s) (leaderId s) (commitIndex s) (lastApplied s) (nextIndex s)
         v (hasCallback s) (delivered s) (outbox s) (signals s)
         (electionTimer s) (heartbeatTimer s).

Definition set_delivered (v : list Block) (s : RaftNode) : RaftNode :=
  mkNode (nodeId s) (knownNodeIds s) (currentTerm s) (votedFor s) (raftLog s)
         (role s) (leaderId s) (commitIndex s) (lastApplied s) (nextIndex s)
         (matchIndex s) (hasCallback s) v (outbox s) (signals s)
         (electionTimer s) (heartbeatTimer s).

Definition set_outbox (v : list (string * Message)) (s : RaftNode) : RaftNode :=
  mkNode (nodeId s) (knownNodeIds s) (currentTerm s) (votedFor s) (raftLog s)
         (role s) (leaderId s) (commitIndex s) (lastApplied s) (nextIndex s)
         (matchIndex s) (hasCallback s) (delivered s) v (signals s)
         (electionTimer s) (heartbeatTimer s).

Definition set_signals (v : list Signal) (s : RaftNode) : RaftNode :=
  mkNode (nodeId s) (knownNodeIds s) (currentTerm s) (votedFor s) (raftLog s)
         (role s) (leaderId s) (commitIndex s) (lastApplied s) (nextIndex s)
         (matchIndex s) (hasCallback s) (delivered s) (outbox s) v
         (electionTimer s) (heartbeatTimer s).

Definition set_electionTimer (v : bool) (s : RaftNode) : RaftNode :=
  mkNode (nodeId s) (knownNodeIds s) (currentTerm s) (votedFor s) (raftLog s)
         (role s) (leaderId s) (commitIndex s) (lastApplied s) (nextIndex s)
         (matchIndex s) (hasCallback s) (delivered s) (outbox s) (signals s)
         v (heartbeatTimer s).

Definition set_heartbeatTimer (v : bool) (s : RaftNode) : RaftNode :=
  mkNode (nodeId s) (knownNodeIds s) (currentTerm s) (votedFor s) (raftLog s)
         (role s) (leaderId s) (commitIndex s) (lastApplied s) (nextIndex s)
         (matchIndex s) (hasCallback s) (delivered s) (outbox s) (signals s)
         (electionTimer s) v.

(** *** [applyCommitted]

    One turn of the [while (this.lastApplied < this.commitIndex)] loop:
    bump [lastApplied], fetch the entry at the new value, and hand its
    block to [onBlockCommitted] when both the entry and the callback
    exist. *)
Definition applyOne (s : RaftNode) : RaftNode :=
  let s1 := set_lastApplied (S (lastApplied s)) s in
  match getEntry (raftLog s1) (lastApplied s1) with
  | Some entry =>
      if hasCallback s1
      then set_delivered (delivered s1 ++ [block entry]) s1
      else s1
  | None => s1
  end.

(** The loop itself, with the number of turns still allowed as the
    structural argument. *)
Fixpoint applyLoop (fuel : nat) (s : RaftNode) : RaftNode :=
  match fuel with
  | 0 => s
  | S fuel' =>
      if lastApplied s <? commitIndex s
      then applyLoop fuel' (applyOne s)
      else s
  end.

(** The loop runs [commitIndex - lastApplied] turns: each turn closes the
    gap by one ([applyLoop_exit] below shows the guard is false on exit). *)
Definition applyCommitted (s : RaftNode) : RaftNode :=
  applyLoop (commitIndex s - lastApplied s) s.

(** *** [advanceCommitIndex] *)

(** [const allNodeIds = [...this.peerManager.getKnownNodeIds(), this.nodeId]] *)
Definition allNodeIds (s : RaftNode) : list string :=
  knownNodeIds s ++ [nodeId s].

(** [const majority = Math.floor(allNodeIds.length / 2) + 1] *)
Definition majority (s : RaftNode) : nat :=
  length (allNodeIds s) / 2 + 1.

(** [nodeId === this.nodeId ? this.raftLog.getLastIndex()
                            : (this.matchIndex.get(nodeId) ?? 0)] *)
Definition matchOf (s : RaftNode) (id : string) : nat :=
  if decide (id = nodeId s)
  then getLastIndex (raftLog s)
  else default 0 (matchIndex s !! id).

(** The inner [for (const nodeId of allNodeIds)] loop. *)
Definition replicatedCount (s : RaftNode) (n : nat) : nat :=
  foldl (fun count id => if n <=? matchOf s id then S count else count)
        0 (allNodeIds s).

(** What one turn of the outer loop decides for candidate [n]:
    [continue] unless the entry exists with the current term, then commit
    exactly when the count reaches the majority. *)
Definition commitsAt (s : RaftNode) (n : nat) : bool :=
  match getEntry (raftLog s) n with
  | None => false
  | Some entry =>
      if term entry =? currentTerm s
      then majority s <=? replicatedCount s n
      else false
  end.

(** [for (let n = lastIndex; n > this.commitIndex; n--)], returning the
    index at which the loop breaks, if any. *)
Fixpoint scanCommit (s : RaftNode) (n : nat) : option nat :=
  match n with
  | 0 => None
  | S n' =>
      if commitIndex s <? n
      then if commitsAt s n then Some n else scanCommit s n'
      else None
  end.

Definition advanceCommitIndex (s : RaftNode) : RaftNode :=
  match role s with
  | Leader =>
      match scanCommit s (getLastIndex (raftLog s)) with
      | Some n => applyCommitted (set_commitIndex n s)
      | None => s
      end
  | _ => s
  end.

(** *** Elections *)

(** [isLogUpToDate(lastLogIndex, lastLogTerm)] *)
Definition isLogUpToDate (s : RaftNode) (lastLogIndex lastLogTerm : nat) : bool :=
  let myLastTerm := getLastTerm (raftLog s) in
  let myLastIndex := getLastIndex (raftLog s) in
  if negb (lastLogTerm =? myLastTerm)
  then myLastTerm <? lastLogTerm
  else myLastIndex <=? lastLogIndex.

(** [stepDown(newTerm)] *)
Definition stepDown (newTerm : nat) (s : RaftNode) : RaftNode :=
  set_electionTimer true
    (set_heartbeatTimer false
       (set_votedFor None
          (set_role Follower
             (set_currentTerm newTerm s)))).

(** Modelled from the spec: the vote-request handler is described in the
    consensus document ("Vote Granting Logic") but its code is not part of
    the sources.  A higher term makes the node step down first; the vote is
    then granted when the candidate's term is at least the current term,
    the node has not voted in this term or voted for this candidate, and
    the candidate's log is at least as up to date.  Granting records the
    vote and resets the election timer; the reply goes to the candidate. *)
Definition voteDecision (s : RaftNode) (cterm : nat) (cand : string)
    (lastLogIndex lastLogTerm : nat) : bool :=
  (currentTerm s <=? cterm)
  && match votedFor s with
     | None => true
     | Some v => bool_decide (v = cand)
     end
  && isLogUpToDate s lastLogIndex lastLogTerm.

(** The handler: step down on a higher term, decide, record a granted
    vote, reply.  The second component is the [voteGranted] flag sent. *)
Definition handleRequestVote (s : RaftNode) (cterm : nat) (cand : string)
    (lastLogIndex lastLogTerm : nat) : RaftNode * bool :=
  let s1 := if currentTerm s <? cterm then stepDown cterm s else s in
  let granted := voteDecision s1 cterm cand lastLogIndex lastLogTerm in
  let s2 := if granted
            then set_electionTimer true (set_votedFor (Some cand) s1)
            else s1 in
  (set_outbox (outbox s2 ++ [(cand, RequestVoteReply (currentTerm s2) granted)]) s2,
   granted).

(** Modelled from the spec: [sendHeartbeats] is called by the documented
    [proposeBlock] but not listed.  One AppendEntries per known peer, built
    from that peer's [nextIndex] as the RPC table describes. *)
Definition heartbeatFor (s : RaftNode) (peer : string) : string * Message :=
  let next := default (getLastIndex (raftLog s) + 1) (nextIndex s !! peer) in
  let prev := next - 1 in
  let prevTerm := match getEntry (raftLog s) prev with
                  | Some e => term e
                  | None => 0
                  end in
  (peer, AppendEntries (currentTerm s) (nodeId s) prev prevTerm
                       (drop prev (raftLog s)) (commitIndex s)).

Definition sendHeartbeats (s : RaftNode) : RaftNode :=
  set_outbox (outbox s ++ map (heartbeatFor s) (knownNodeIds s)) s.

(** Modelled from the spec: [becomeLeader] is described step by step in
    the consensus document ("Becoming Leader") but not listed. *)
Definition becomeLeader (s : RaftNode) : RaftNode :=
  let s1 := set_leaderId (Some (nodeId s)) (set_role Leader s) in
  let s2 := set_heartbeatTimer true (set_electionTimer false s1) in
  let s3 := set_nextIndex
              (foldr (fun p m => <[p := getLastIndex (raftLog s) + 1]> m)
                     (nextIndex s2) (knownNodeIds s)) s2 in
  let s4 := set_matchIndex
              (foldr (fun p m => <[p := 0]> m) (matchIndex s3) (knownNodeIds s))
              s3 in
  let s5 := sendHeartbeats s4 in
  set_signals (signals s5 ++ [LeaderElected (nodeId s) (currentTerm s)]) s5.

(** [totalVoters]: the node itself plus every known peer. *)
Definition totalVoters (s : RaftNode) : nat := length (allNodeIds s).

(** Modelled from the spec: only the single-voter shortcut of the election
    start is listed ([if (totalVoters === 1) { this.becomeLeader(); return; }]);
    the surrounding steps follow the election description: new term,
    Candidate, vote for self, then either the shortcut or a vote request
    to every known peer. *)
Definition startElection (s : RaftNode) : RaftNode :=
  let s1 := set_electionTimer true
              (set_votedFor (Some (nodeId s))
                 (set_role Candidate
                    (set_currentTerm (S (currentTerm s)) s))) in
  if totalVoters s1 =? 1
  then becomeLeader s1
  else
    set_outbox
      (outbox s1 ++
       map (fun p => (p, RequestVote (currentTerm s1) (nodeId s1)
                                     (getLastIndex (raftLog s1))
                                     (getLastTerm (raftLog s1))))
           (knownNodeIds s1))
      s1.

(** [proposeBlock(block)] *)
Definition proposeBlock (b : Block) (s : RaftNode) : RaftNode :=
  match role s with
  | Leader =>
      let entry := mkEntry (currentTerm s) (getLastIndex (raftLog s) + 1) b in
      let s1 := set_raftLog (append (raftLog s) entry) s in
      let s2 := set_matchIndex (<[nodeId s1 := index entry]> (matchIndex s1)) s1 in
      advanceCommitIndex (sendHeartbeats s2)
  | _ => s
  end.

(** Whether a message is a vote request. *)
Definition isRequestVote (m : string * Message) : bool :=
  match m.2 with
  | RequestVote _ _ _ _ => true
  | _ => false
  end.

(** *** Vocabulary for the statements below *)

(** What [onBlockCommitted] receives when index [i] is applied: the block
    of the entry at [i], provided the entry exists and a callback is set. *)
Definition handedOver (s : RaftNode) (i : nat) : list Block :=
  match getEntry (raftLog s) i with
  | Some entry => if hasCallback s then [block entry] else []
  | None => []
  end.

(** The nodes, out of all known voters and the leader itself, whose match
    index is at least [n]. *)
Definition replicas (s : RaftNode) (n : nat) : list string :=
  filter (fun id => n <= matchOf s id) (allNodeIds s).

(** Index [n] may be committed by counting replicas: its entry carries the
    leader's current term and a strict majority, floor(N/2)+1 of the N
    known voters, holds it. *)
Definition CommitCandidate (s : RaftNode) (n : nat) : Prop :=
  exists entry,
    getEntry (raftLog s) n = Some entry /\
    term entry = currentTerm s /\
    length (allNodeIds s) / 2 + 1 <= length (replicas s n).

(** The candidate's log is at least as up to date as the voter's. *)
Definition AtLeastAsUpToDate (s : RaftNode) (lastLogIndex lastLogTerm : nat) : Prop :=
  getLastTerm (raftLog s) < lastLogTerm \/
  (lastLogTerm = getLastTerm (raftLog s) /\ getLastIndex (raftLog s) <= lastLogIndex).

(** Example states used below. *)
Definition blk (h : nat) : Block :=
  mkBlock h "" "" 0 "" "" "" "" [].

Definition node0 : RaftNode :=
  mkNode "n1" [] 0 None [] Follower None 0 0 ∅ ∅ true [] [] [] true false.

(** A three-node leader in term 2 whose log holds one entry of term 1 and
    two of term 2; peer "n2" has acknowledged index 2, "n3" nothing. *)
Definition leader3 : RaftNode :=
  mkNode "n1" ["n2"; "n3"] 2 (Some "n1")
         [mkEntry 1 1 (blk 1); mkEntry 2 2 (blk 2); mkEntry 2 3 (blk 3)]
         Leader (Some "n1") 0 0
         ∅ (<["n2" := 2]> ∅) true [] [] [] false true.

(** A node whose commit index points past the end of its one-entry log. *)
Definition gapNode : RaftNode :=
  mkNode "n1" [] 1 None [mkEntry 1 1 (blk 1)] Follower None 2 0 ∅ ∅
         true [] [] [] true false.

(** A node with a two-entry log, both committed, and no callback set. *)
Definition muteNode : RaftNode :=
  mkNode "n1" [] 1 None [mkEntry 1 1 (blk 1); mkEntry 1 2 (blk 2)]
         Follower None 2 0 ∅ ∅ false [] [] [] true false.

End Raft.

(* --------------------------------------------------------------------- *)
(** ** Storage engine ([StateStore], atomic block application)            *)
(* --------------------------------------------------------------------- *)

Module Storage.

(** One row of the [world_state] table. *)
Record StateRow := mkRow {
  key : string;
  value : string;
  version : nat;
  updated_at : nat;
  updated_by : string;
  block_height : nat
}.

(** The tables of [ledger.db] that block application touches.  A table is
    the list of its rows in storage order; [nonces] maps a sender to its
    last used nonce. *)
Record Database := mkDb {
  world_state : list StateRow;
  blocks : list Block;
  tx_pool : list Transaction;
  nonces : gmap string nat
}.

Definition set_world_state (v : list StateRow) (d : Database) : Database :=
  mkDb v (blocks d) (tx_pool d) (nonces d).
Definition set_blocks (v : list Block) (d : Database) : Database :=
  mkDb (world_state d) v (tx_pool d) (nonces d).
Definition set_tx_pool (v : list Transaction) (d : Database) : Database :=
  mkDb (world_state d) (blocks d) v (nonces d).
Definition set_nonces (v : gmap string nat) (d : Database) : Database :=
  mkDb (world_state d) (blocks d) (tx_pool d) v.

(** *** [computeStateRoot] *)

(** [ORDER BY key ASC]: rows sorted on the key column, compared byte by
    byte (SQLite's default collation), by insertion. *)
Fixpoint insertRow (r : StateRow) (rows : list StateRow) : list StateRow :=
  match rows with
  | [] => [r]
  | r' :: rest =>
      if String.leb (key r) (key r')
      then r :: rows
      else r' :: insertRow r rest
  end.

Definition orderByKey (rows : list StateRow) : list StateRow :=
  foldr insertRow [] rows.

(** ["0".repeat(64)] *)
Fixpoint repeatString (s : string) (n : nat) : string :=
  match n with
  | 0 => EmptyString
  | S n' => String.append s (repeatString s n')
  end.

(** A number inside a template literal prints in decimal. *)
Definition showNat (n : nat) : string :=
  NilZero.string_of_uint (Nat.to_uint n).

(** [`${r.key}:${r.value}:${r.version}`] *)
Definition rowString (r : StateRow) : string :=
  String.append (key r)
    (String.append ":" (String.append (value r)
       (String.append ":" (showNat (version r))))).

(** The string handed to [sha256Hex]. *)
Definition stateString (rows : list StateRow) : string :=
  String.concat "|" (map rowString rows).

Section StateRoot.
(** The hash primitive of the crypto library. *)
Variable sha256Hex : string -> string.

(** [computeStateRoot()], returning the root together with the database
    it leaves behind. *)
Definition computeStateRoot (d : Database) : string * Database :=
  let rows := orderByKey (world_state d) in
  if length rows =? 0
  then (repeatString "0" 64, d)
  else (sha256Hex (stateString rows), d).
End StateRoot.

(** *** [query] *)

Inductive SqlValue :=
| SqlNull
| SqlInt (z : Z)
| SqlText (s : string).

(** [Record<string, unknown>] *)
Definition ResultRow := list (string * SqlValue).

(** What a call returns: rows, or a thrown error with its message. *)
Inductive QueryResult :=
| Rows (rows : list ResultRow)
| Thrown (message : string).

(** A JavaScript string is a sequence of UTF-16 code units.  [js] gives
    the code units of a literal written in ASCII. *)
Abbreviation JsString := (list N).

Definition js (s : string) : JsString :=
  map N_of_ascii (list_ascii_of_string s).

(** [trim] removes the WhiteSpace and LineTerminator code points from
    both ends: TAB, LF, VT, FF, CR, SPACE, U+00A0, U+1680,
    U+2000..U+200A, U+2028, U+2029, U+202F, U+205F, U+3000 and U+FEFF. *)
Definition isWhiteSpace (c : N) : bool :=
  (((0x9 <=? c) && (c <=? 0xD)) || (c =? 0x20) || (c =? 0xA0) || (c =? 0x1680)
   || ((0x2000 <=? c) && (c <=? 0x200A)) || (c =? 0x2028) || (c =? 0x2029)
   || (c =? 0x202F) || (c =? 0x205F) || (c =? 0x3000) || (c =? 0xFEFF))%N.

Fixpoint trimStart (s : JsString) : JsString :=
  match s with
  | [] => []
  | c :: rest => if isWhiteSpace c then trimStart rest else s
  end.

Fixpoint trimEnd (s : JsString) : JsString :=
  match s with
  | [] => []
  | c :: rest =>
      match trimEnd rest with
      | [] => if isWhiteSpace c then [] else [c]
      | kept => c :: kept
      end
  end.

Definition trim (s : JsString) : JsString := trimEnd (trimStart s).

(** [toUpperCase] works on code points: a high surrogate followed by a
    low surrogate is one code point, any other code unit is a code point
    by itself; the result is written back in UTF-16. *)
Definition isHighSurrogate (c : N) : bool := ((0xD800 <=? c) && (c <=? 0xDBFF))%N.
Definition isLowSurrogate (c : N) : bool := ((0xDC00 <=? c) && (c <=? 0xDFFF))%N.

Fixpoint codePoints (s : JsString) : list N :=
  match s with
  | [] => []
  | hi :: rest =>
      match rest with
      | lo :: rest' =>
          if isHighSurrogate hi && isLowSurrogate lo
          then (0x10000 + (hi - 0xD800) * 0x400 + (lo - 0xDC00))%N :: codePoints rest'
          else hi :: codePoints rest
      | [] => [hi]
      end
  end.

Definition codeUnits (cp : N) : list N :=
  if (cp <? 0x10000)%N then [cp]
  else [0xD800 + (cp - 0x10000) / 0x400; 0xDC00 + (cp - 0x10000) mod 0x400]%N.

(** The upper-case mappings of the Unicode tables (UnicodeData.txt and
    the unconditional entries of SpecialCasing.txt) that lead from a
    code point outside ASCII to a string beginning with an ASCII
    character: sharp s, dotless i, long s, j with caron, h with line
    below, t with diaeresis, w and y with ring, a with half ring, and
    the ligatures ff, fi, fl, ffi, ffl, long-s-t and st. *)
Definition specialCasing : list (N * list N) :=
  [ (0xDF, [0x53; 0x53]); (0x131, [0x49]); (0x17F, [0x53]);
    (0x1F0, [0x4A; 0x30C]); (0x1E96, [0x48; 0x331]); (0x1E97, [0x54; 0x308]);
    (0x1E98, [0x57; 0x30A]); (0x1E99, [0x59; 0x30A]); (0x1E9A, [0x41; 0x2BE]);
    (0xFB00, [0x46; 0x46]); (0xFB01, [0x46; 0x49]); (0xFB02, [0x46; 0x4C]);
    (0xFB03, [0x46; 0x46; 0x49]); (0xFB04, [0x46; 0x46; 0x4C]);
    (0xFB05, [0x53; 0x54]); (0xFB06, [0x53; 0x54]) ]%N.

Definition specialUpper (cp : N) : option (list N) :=
  match List.find (fun entry => (fst entry =? cp)%N) specialCasing with
  | Some entry => Some (snd entry)
  | None => None
  end.

(** The part of the upper-case mapping that is written out: [a]..[z]
    go to [A]..[Z], the other ASCII characters and the white space of
    [trim] stay, and the code points of [specialCasing] map as listed
    there. *)
Definition tableUpper (cp : N) : option (list N) :=
  if ((0x61 <=? cp) && (cp <=? 0x7A))%N then Some [cp - 0x20]%N
  else if (cp <? 0x80)%N then Some [cp]
  else if isWhiteSpace cp then Some [cp]
  else specialUpper cp.

(** [s.startsWith(p)] *)
Fixpoint startsWith (s p : JsString) {struct p} : bool :=
  match p with
  | [] => true
  | k :: p' =>
      match s with
      | [] => false
      | c :: s' => (c =? k)%N && startsWith s' p'
      end
  end.

Section Query.
(** The upper-case mapping of the Unicode tables for the code points
    that [tableUpper] does not list. *)
Variable unicodeUpper : N -> list N.

Definition upperPoint (cp : N) : list N :=
  match tableUpper cp with
  | Some mapped => mapped
  | None => unicodeUpper cp
  end.

Definition toUpperCase (s : JsString) : JsString :=
  flat_map (fun cp => flat_map codeUnits (upperPoint cp)) (codePoints s).

(** [this.db.prepare(sql).all(...params)] of the SQLite driver. *)
Variable prepareAll : JsString -> list SqlValue -> Database -> QueryResult * Database.

(** [query(sql, params)] *)
Definition query (sql : JsString) (params : list SqlValue) (d : Database)
  : QueryResult * Database :=
  let trimmed := toUpperCase (trim sql) in
  if negb (startsWith trimmed (js "SELECT"))
  then (Thrown "Only SELECT queries are allowed", d)
  else prepareAll sql params d.
End Query.

(** *** Atomic block application *)

(** The orchestrator's state around block application: the database and
    the in-memory chain. *)
Record NodeState := mkNodeState {
  db : Database;
  chain : list Block
}.

(** A step either completes or throws, and in both cases leaves a state
    behind (for a throw: whatever had been written so far). *)
Inductive Outcome (S : Type) :=
| Done (s : S)
| Threw (message : string) (s : S).
Arguments Done {S} s.
Arguments Threw {S} message s.

Definition bindOutcome {S} (o : Outcome S) (k : S -> Outcome S) : Outcome S :=
  match o with
  | Done s => k s
  | Threw m s => Threw m s
  end.

Notation "o >>> k" := (bindOutcome o k) (at level 50, left associativity).

Definition isDone {S} (o : Outcome S) : bool :=
  match o with Done _ => true | Threw _ _ => false end.

Definition stateOf {S} (o : Outcome S) : S :=
  match o with Done s => s | Threw _ s => s end.

(** Modelled from the spec: the store methods are only listed by name and
    purpose ("Store Classes").  [BlockStore.insert] adds a row to [blocks]
    and fails on a height or hash already present (primary key, unique
    index); [TxStore.removePending] deletes the given hashes from the pool;
    [TxStore.updateNonce] records the last used nonce of a sender;
    [Chain.appendBlock] accepts a block only at height tip + 1 whose
    previous hash is the tip's hash. *)
Definition blockStore_insert (b : Block) (d : Database) : Outcome Database :=
  if existsb (fun b' => (height b' =? height b) || String.eqb (hash b') (hash b))
             (blocks d)
  then Threw "UNIQUE constraint failed" d
  else Done (set_blocks (blocks d ++ [b]) d).

Definition removePending (hashes : list string) (d : Database) : Database :=
  set_tx_pool
    (filter (fun t => negb (existsb (String.eqb (tx_hash t)) hashes)) (tx_pool d))
    d.

Definition updateNonce (sender : string) (nonce : nat) (d : Database) : Database :=
  set_nonces (<[sender := nonce]> (nonces d)) d.

Definition chain_appendBlock (b : Block) (c : list Block) : Outcome (list Block) :=
  match last c with
  | None => Done (c ++ [b])
  | Some tip =>
      if (height b =? height tip + 1) && String.eqb (previousHash b) (hash tip)
      then Done (c ++ [b])
      else Threw "Invalid block" c
  end.

Section ApplyBlock.
(** [applyTransaction(tx, height)] of the orchestrator: writes the
    transaction's payload to the world state, or throws. *)
Variable applyTransaction : Transaction -> nat -> Database -> Outcome Database.

(** [for (const tx of block.transactions) this.applyTransaction(tx, block.height)] *)
Fixpoint applyTransactions (txs : list Transaction) (h : nat) (d : Database)
  : Outcome Database :=
  match txs with
  | [] => Done d
  | tx :: rest => applyTransaction tx h d >>> applyTransactions rest h
  end.

(** [for (const tx of block.transactions) this.txStore.updateNonce(tx.sender, tx.nonce)] *)
Definition updateNonces (txs : list Transaction) (d : Database) : Database :=
  foldl (fun d tx => updateNonce (tx_sender tx) (tx_nonce tx) d) d txs.

Definition onDb (n : NodeState) (o : Outcome Database) : Outcome NodeState :=
  match o with
  | Done d => Done (mkNodeState d (chain n))
  | Threw m d => Threw m (mkNodeState d (chain n))
  end.

Definition onChain (n : NodeState) (o : Outcome (list Block)) : Outcome NodeState :=
  match o with
  | Done c => Done (mkNodeState (db n) c)
  | Threw m c => Threw m (mkNodeState (db n) c)
  end.

(** The callback passed to [transaction(...)]. *)
Definition applyBlockBody (b : Block) (n : NodeState) : Outcome NodeState :=
  onDb n (applyTransactions (transactions b) (height b) (db n)) >>> fun n1 =>
  onChain n1 (chain_appendBlock b (chain n1)) >>> fun n2 =>
  onDb n2 (blockStore_insert b (db n2)) >>> fun n3 =>
  Done (mkNodeState
          (updateNonces (transactions b)
             (removePending (map tx_hash (transactions b)) (db n3)))
          (chain n3)).

(** [db.transaction(fn)()] of better-sqlite3: BEGIN, run [fn], COMMIT;
    on a throw ROLLBACK puts the database back as it was at BEGIN and
    the error is rethrown.  Only the database is rolled back. *)
Definition transaction (fn : NodeState -> Outcome NodeState) (n : NodeState)
  : Outcome NodeState :=
  match fn n with
  | Done n' => Done n'
  | Threw m n' => Threw m (mkNodeState (db n) (chain n'))
  end.

Definition applyBlockAtomically (b : Block) (n : NodeState) : Outcome NodeState :=
  transaction (applyBlockBody b) n.
End ApplyBlock.

(** *** Vocabulary for the statements below *)

(** Key order of two rows, byte-wise. *)
Definition keyLe (a b : StateRow) : Prop := String.leb (key a) (key b) = true.

(** Reading a decimal numeral: the value of a string of digits. *)
Definition digitValue (c : ascii) : option nat :=
  let n := nat_of_ascii c in
  if (48 <=? n) && (n <=? 57) then Some (n - 48) else None.

Fixpoint readDigits (acc : nat) (s : string) : option nat :=
  match s with
  | EmptyString => Some acc
  | String c rest =>
      match digitValue c with
      | Some v => readDigits (10 * acc + v) rest
      | None => None
      end
  end.

(** [s] is the decimal numeral of [n]: digits only, at least one, no
    leading zero except for ["0"] itself, with value [n]. *)
Definition isDecimalOf (n : nat) (s : string) : bool :=
  match s with
  | EmptyString => false
  | String c rest =>
      (negb (Ascii.eqb c "0") || String.eqb rest EmptyString)
      && bool_decide (readDigits 0 s = Some n)
  end.

(** The code units that spell each letter of SELECT once upper-cased:
    the letter in either case, and also long s (U+017F) for S and t with
    diaeresis (U+1E97, upper-cased to T followed by a combining mark)
    for the final T. *)
Definition isS (c : N) : bool := ((c =? 0x53) || (c =? 0x73) || (c =? 0x17F))%N.
Definition isE (c : N) : bool := ((c =? 0x45) || (c =? 0x65))%N.
Definition isL (c : N) : bool := ((c =? 0x4C) || (c =? 0x6C))%N.
Definition isC (c : N) : bool := ((c =? 0x43) || (c =? 0x63))%N.
Definition isT (c : N) : bool := ((c =? 0x54) || (c =? 0x74) || (c =? 0x1E97))%N.

Definition spellsSelect (kw : JsString) : bool :=
  match kw with
  | [s; e; l; e'; c; t] => isS s && isE e && isL l && isE e' && isC c && isT t
  | _ => false
  end.

(** A statement that, after leading white space, begins with the keyword
    SELECT in any mix of upper and lower case. *)
Definition BeginsWithSelect (sql : JsString) : Prop :=
  exists blanks kw rest,
    sql = blanks ++ kw ++ rest /\
    forallb isWhiteSpace blanks = true /\
    spellsSelect kw = true.

(** What is used of the Unicode tables beyond [tableUpper]: no other code
    point has an upper-case mapping that is empty or begins with an ASCII
    character. *)
Definition RestOfTable (unicodeUpper : N -> list N) : Prop :=
  forall cp, tableUpper cp = None ->
    exists u rest, unicodeUpper cp = u :: rest /\ (0x80 <= u)%N.

(** A driver that runs a statement beginning with SELECT without
    writing, as SQLite does for a SELECT statement. *)
Definition RunsSelectReadOnly
    (prepareAll : JsString -> list SqlValue -> Database -> QueryResult * Database)
  : Prop :=
  forall sql params d, BeginsWithSelect sql -> (prepareAll sql params d).2 = d.

(** A statement that the driver runs without writing. *)
Definition ReadOnlyStatement
    (prepareAll : JsString -> list SqlValue -> Database -> QueryResult * Database)
    (sql : JsString) : Prop :=
  forall params d, (prepareAll sql params d).2 = d.

(** The block links to the chain: the chain is empty, or the block comes
    right after its tip. *)
Definition linksTo (b : Block) (c : list Block) : Prop :=
  last c = None \/
  exists tip, last c = Some tip /\
              height b = height tip + 1 /\ previousHash b = hash tip.

(** No stored block has the height or the hash of [b]. *)
Definition notStored (b : Block) (stored : list Block) : Prop :=
  forall b', b' ∈ stored -> height b' <> height b /\ hash b' <> hash b.

(** Follows the spec's words: every transaction's payload is applied to
    the world state, one after the other in block order, each to the
    state its predecessor left, and none throws. *)
Inductive AppliesAll
    (applyTransaction : Transaction -> nat -> Database -> Outcome Database)
    (h : nat) : list Transaction -> Database -> Database -> Prop :=
| applies_none (d : Database) : AppliesAll applyTransaction h [] d d
| applies_next (tx : Transaction) (txs : list Transaction) (d d1 d2 : Database) :
    applyTransaction tx h d = Done d1 ->
    AppliesAll applyTransaction h txs d1 d2 ->
    AppliesAll applyTransaction h (tx :: txs) d d2.

(** Example data used below. *)
Definition rowA : StateRow := mkRow "a" "1" 1 0 "alice" 1.
Definition rowB : StateRow := mkRow "b" "2" 3 0 "bob" 2.
Definition rowK : StateRow := mkRow "k" "v" 1 0 "alice" 1.

Definition emptyDb : Database := mkDb [] [] [] ∅.

(** A stand-in hash for running examples: it tags its input. *)
Definition tagHash (s : string) : string := String.append "h:" s.

(** A driver stand-in that answers every statement with no rows. *)
Definition noRows (sql : JsString) (params : list SqlValue) (d : Database)
  : QueryResult * Database := (Rows [], d).

(** A stand-in for the rest of the Unicode tables: code points that
    [tableUpper] does not list are left as they are. *)
Definition unlistedUnchanged (cp : N) : list N := [cp].

(** A transaction interpreter stand-in: ["set"] writes a row whose key and
    value are the payload, anything else throws. *)
Definition toyApply (tx : Transaction) (h : nat) (d : Database) : Outcome Database :=
  if String.eqb (tx_type tx) "set"
  then Done (set_world_state
               (world_state d ++ [mkRow (tx_payload tx) (tx_payload tx) 1 0 (tx_sender tx) h])
               d)
  else Threw "unsupported transaction" d.

Definition txGood : Transaction := mkTransaction "t1" "set" "alice" 0 0 "x" "".
Definition txBad : Transaction := mkTransaction "t2" "boom" "alice" 1 0 "y" "".
Definition blockBad : Block := mkBlock 1 "b1" "genesis" 0 "" "" "" "" [txGood; txBad].
Definition blockGood : Block := mkBlock 1 "b1" "genesis" 0 "" "" "" "" [txGood].
Definition nodeBefore : NodeState :=
  mkNodeState (mkDb [] [] [txGood; txBad] ∅) [].

End Storage.

(* --------------------------------------------------------------------- *)
(** ** Peer mesh ([PeerManager], [BlockSync])                             *)
(* --------------------------------------------------------------------- *)

Module Mesh.

Inductive PeerStatus := Connecting | Connected | Disconnected.

(** A peer connection.  [conn] identifies the underlying socket. *)
Record Peer := mkPeer {
  conn : nat;
  p_nodeId : string;
  p_publicKey : string;
  p_orgId : string;
  p_address : option string;
  p_status : PeerStatus;
  chainHeight : nat
}.

(** [interface HandshakePayload] *)
Record HandshakePayload := mkHandshake {
  h_nodeId : string;
  h_publicKey : string;
  h_orgId : string;
  h_chainHeight : nat;
  h_listenPort : nat;
  h_listenAddress : option string
}.

(** What the handler does to the outside world. *)
Inductive Effect :=
| Close (c : nat)
| SendHandshakeAck (c : nat) (accepted : bool)
| SendPeerList (c : nat) (ids : list string)
| EmitPeerConnected (id : string).

(** The [PeerManager]: [opts.nodeId], the [peers] map keyed by node id,
    and the effects performed so far, oldest first. *)
Record PeerManager := mkManager {
  localId : string;
  peers : gmap string Peer;
  effects : list Effect
}.

(** [sharePeerList]: the ids of the connected peers other than the
    receiver, in the order [this.peers.values()] yields them. *)
Definition peerListFor (pm : PeerManager) (receiver : string) : list string :=
  map p_nodeId
    (filter (fun p => negb (String.eqb (p_nodeId p) receiver)
                      && match p_status p with Connected => true | _ => false end)
            (map snd (map_to_list (peers pm)))).

(** The handshake handler.  The two rejections are as listed; the
    acceptance that follows them is written from the four steps given
    under "After a successful handshake": the peer enters the map under
    its node id with status connected, the acknowledgement and the peer
    list are sent, and [peer:connected] is emitted. *)
Definition handleHandshake (pm : PeerManager) (peer : Peer)
    (payload : HandshakePayload) : PeerManager :=
  if String.eqb (h_nodeId payload) (localId pm)
  then mkManager (localId pm) (peers pm) (effects pm ++ [Close (conn peer)])
  else if bool_decide (is_Some (peers pm !! h_nodeId payload))
  then mkManager (localId pm) (peers pm) (effects pm ++ [Close (conn peer)])
  else
    let registered :=
      mkPeer (conn peer) (h_nodeId payload) (h_publicKey payload)
             (h_orgId payload) (h_listenAddress payload) Connected
             (h_chainHeight payload) in
    mkManager (localId pm)
      (<[h_nodeId payload := registered]> (peers pm))
      (effects pm ++
         [SendHandshakeAck (conn peer) true;
          SendPeerList (conn peer) (peerListFor pm (h_nodeId payload));
          EmitPeerConnected (h_nodeId payload)]).

(** A run of handshakes, each arriving on its own connection. *)
Definition handleHandshakes (pm : PeerManager)
    (incoming : list (Peer * HandshakePayload)) : PeerManager :=
  foldl (fun pm x => handleHandshake pm x.1 x.2) pm incoming.

(** The peer-map invariant: no entry for the local identity, and every
    entry is filed under the identity it carries, so no identity occurs in
    two entries. *)
Definition noSelf (pm : PeerManager) : Prop :=
  peers pm !! localId pm = None.

Definition keyedById (pm : PeerManager) : Prop :=
  forall k p, peers pm !! k = Some p -> p_nodeId p = k.

Definition noDuplicate (pm : PeerManager) : Prop :=
  forall k1 k2 p1 p2,
    peers pm !! k1 = Some p1 -> peers pm !! k2 = Some p2 ->
    p_nodeId p1 = p_nodeId p2 -> k1 = k2.

Definition peerMapOk (pm : PeerManager) : Prop :=
  noSelf pm /\ keyedById pm.

(** *** Block synchronisation *)

Definition SYNC_BATCH_SIZE : nat := 50.

(** The "find peer with highest chain" loop: the pair
    [(bestPeer, bestHeight)] after the scan. *)
Definition findBestPeer (connected : list Peer) (localHeight : nat)
  : option Peer * nat :=
  foldl (fun best peer =>
           if best.2 <? chainHeight peer
           then (Some peer, chainHeight peer)
           else best)
        (None, localHeight) connected.

(** [Math.min(from + SYNC_BATCH_SIZE - 1, bestHeight)] *)
Definition batchEnd (from bestHeight : nat) : nat :=
  Nat.min (from + SYNC_BATCH_SIZE - 1) bestHeight.

(** What block synchronisation needs from its surroundings: the local chain
    with [applyBlock] and [getChainHeight], and the network with
    [requestBlocks], where a request yields the blocks received (none on
    timeout or error) and the network as it is afterwards. *)
Class SyncEnv (Chain Net : Type) := {
  getChainHeight : Chain -> nat;
  applyBlock : Chain -> Block -> Chain;
  requestBlocks : Net -> Peer -> nat -> nat -> list Block * Net
}.

Section BlockSync.
Context {Chain Net : Type} {env : SyncEnv Chain Net}.

(** [for (const block of blocks) this.applyBlock(block)] *)
Definition applyBlocks (c : Chain) (bs : list Block) : Chain :=
  foldl applyBlock c bs.

(** The [while (currentHeight < bestHeight)] loop.  It need not
    terminate (a peer may keep answering with blocks that do not raise
    the height), so it is run for at most [fuel] turns; [None] means the
    turns ran out. *)
Fixpoint syncLoop (fuel : nat) (bestPeer : Peer) (bestHeight : nat)
    (c : Chain) (net : Net) : option (Chain * Net) :=
  match fuel with
  | 0 => None
  | S fuel' =>
      let currentHeight := getChainHeight c in
      if currentHeight <? bestHeight
      then
        let from := currentHeight + 1 in
        let to := batchEnd from bestHeight in
        let '(blocks, net') := requestBlocks net bestPeer from to in
        if length blocks =? 0
        then Some (c, net')
        else syncLoop fuel' bestPeer bestHeight (applyBlocks c blocks) net'
      else Some (c, net)
  end.

(** [syncFromPeers()] *)
Definition syncFromPeers (fuel : nat) (connected : list Peer)
    (c : Chain) (net : Net) : option (Chain * Net) :=
  match findBestPeer connected (getChainHeight c) with
  | (None, _) => Some (c, net)
  | (Some bestPeer, bestHeight) => syncLoop fuel bestPeer bestHeight c net
  end.

(** The synchronisation run as the design describes it, for a chosen
    peer and target height: stop once the height is reached, stop on an
    empty batch, otherwise apply the batch and go round again. *)
Inductive SyncRun (bestPeer : Peer) (bestHeight : nat)
  : Chain -> Net -> Chain -> Net -> Prop :=
| sync_caught_up c net :
    bestHeight <= getChainHeight c ->
    SyncRun bestPeer bestHeight c net c net
| sync_empty_batch c net net' :
    getChainHeight c < bestHeight ->
    requestBlocks net bestPeer (getChainHeight c + 1)
                  (batchEnd (getChainHeight c + 1) bestHeight) = ([], net') ->
    SyncRun bestPeer bestHeight c net c net'
| sync_batch c net blocks net' c' net'' :
    getChainHeight c < bestHeight ->
    requestBlocks net bestPeer (getChainHeight c + 1)
                  (batchEnd (getChainHeight c + 1) bestHeight) = (blocks, net') ->
    blocks <> [] ->
    SyncRun bestPeer bestHeight (applyBlocks c blocks) net' c' net'' ->
    SyncRun bestPeer bestHeight c net c' net''.

(** Every batch that arrives non-empty raises the local height. *)
Definition BatchesRaiseHeight (bestPeer : Peer) (bestHeight : nat) : Prop :=
  forall c net blocks net',
    getChainHeight c < bestHeight ->
    requestBlocks net bestPeer (getChainHeight c + 1)
                  (batchEnd (getChainHeight c + 1) bestHeight) = (blocks, net') ->
    blocks <> [] ->
    getChainHeight c < getChainHeight (applyBlocks c blocks).
End BlockSync.

(** Example data used below. *)
Definition peerAt (c : nat) (id : string) (h : nat) : Peer :=
  mkPeer c id "" "org" None Connected h.

Definition mesh0 : PeerManager := mkManager "me" ∅ [].

Definition helloFrom (id : string) : HandshakePayload :=
  mkHandshake id "" "org" 0 9000 None.

(** A toy chain and network for running the sync loop: the chain is the
    list of blocks applied, its height their number; the serving peer
    answers a request with fresh blocks for the heights asked. *)
Definition toyHeight (c : list Block) : nat := length c.
Definition toyApplyBlock (c : list Block) (b : Block) : list Block := c ++ [b].
Definition toyRequest (net : nat) (p : Peer) (from to : nat) : list Block * nat :=
  (map Raft.blk (seq from (to + 1 - from)), S net).

#[global] Instance toyEnv : SyncEnv (list Block) nat := {|
  getChainHeight := toyHeight;
  applyBlock := toyApplyBlock;
  requestBlocks := toyRequest
|}.

End Mesh.

(* --------------------------------------------------------------------- *)
(** ** Keystore ([encryptKeystore], [deriveKey], [decryptKeystore])       *)
(* --------------------------------------------------------------------- *)

Module Identity.

(** A [Uint8Array] is a list of integers, each in [0, 256). *)
Abbreviation Bytes := (list Z).

Definition isByte (z : Z) : Prop := (0 <= z < 256)%Z.

(** Storing a number into a [Uint8Array] keeps its low eight bits. *)
Definition toUint8 (z : Z) : Z := Z.land z 255.

Record KeyPair := mkKeyPair {
  publicKey : string;
  privateKey : string
}.

(** [interface KeystoreFile] (the "Keystore File Format" table). *)
Record KeystoreFile := mkKeystore {
  ks_version : nat;
  ks_publicKey : string;
  encryptedPrivateKey : string;
  salt : string;
  orgId : string;
  name : string
}.

(** Modelled from the spec: [toHex] and [fromHex] are used by the listed
    functions but not listed themselves.  [toHex] writes two lower-case
    hexadecimal digits per byte (the keystore example shows lower-case
    hex); [fromHex] reads digits two at a time, in either case, a
    character that is no digit counting as zero and a trailing odd
    character being dropped. *)
Definition hexDigit (n : Z) : ascii :=
  if (n <? 10)%Z
  then ascii_of_N (Z.to_N (48 + n))
  else ascii_of_N (Z.to_N (87 + n)).

Definition hexValue (c : ascii) : Z :=
  let n := Z.of_N (N_of_ascii c) in
  if ((48 <=? n) && (n <=? 57))%Z then (n - 48)%Z
  else if ((97 <=? n) && (n <=? 102))%Z then (n - 87)%Z
  else if ((65 <=? n) && (n <=? 70))%Z then (n - 55)%Z
  else 0%Z.

Fixpoint toHex (bs : Bytes) : string :=
  match bs with
  | [] => EmptyString
  | b :: rest =>
      String (hexDigit (Z.shiftr b 4)) (String (hexDigit (Z.land b 15)) (toHex rest))
  end.

Fixpoint fromHex (s : string) : Bytes :=
  match s with
  | String hi (String lo rest) =>
      (Z.lor (Z.shiftl (hexValue hi) 4) (hexValue lo)) :: fromHex rest
  | _ => []
  end.

(** Lower-case hexadecimal strings of even length: the values [toHex]
    produces, which is how key pairs are generated. *)
Definition isLowerHexDigit (c : ascii) : bool :=
  let n := Z.of_N (N_of_ascii c) in
  (((48 <=? n) && (n <=? 57)) || ((97 <=? n) && (n <=? 102)))%Z.

Fixpoint isHexString (s : string) : bool :=
  match s with
  | EmptyString => true
  | String hi (String lo rest) =>
      isLowerHexDigit hi && isLowerHexDigit lo && isHexString rest
  | String _ EmptyString => false
  end.

(** [new TextEncoder().encode(s)] on 8-bit characters. *)
Definition encode (s : string) : Bytes :=
  map (fun c => Z.of_N (N_of_ascii c)) (list_ascii_of_string s).

(** The two listed loops have the same body:
    [out[i] = input[i] ^ derived[i % derived.length]].  Reading past the
    end of [derived] (only possible when it is empty) yields [undefined],
    which [^] treats as 0. *)
Definition xorWith (derived input : Bytes) : Bytes :=
  imap (fun i b => toUint8 (Z.lxor b (nth (i mod length derived) derived 0%Z)))
       input.

Section Keystore.
(** The hash primitive of the crypto library, on byte arrays. *)
Variable sha256 : Bytes -> Bytes.

(** [deriveKey(password, salt)] *)
Definition deriveKey (password : string) (saltBytes : Bytes) : Bytes :=
  let key := sha256 (encode (String.append password (toHex saltBytes))) in
  Nat.iter 10000 sha256 key.

(** [encryptKeystore(keyPair, password, orgId, name)].  The 16 bytes of
    [crypto.getRandomValues] are the extra first argument.  The listing
    abbreviates the returned object; per the file format table it holds
    the key pair's public key, and the encrypted key and the salt in
    hex. *)
Definition encryptKeystore (randomSalt : Bytes) (keyPair : KeyPair)
    (password org nm : string) : KeystoreFile :=
  let derived := deriveKey password randomSalt in
  let privBytes := fromHex (privateKey keyPair) in
  let encrypted := xorWith derived privBytes in
  mkKeystore 1 (publicKey keyPair) (toHex encrypted) (toHex randomSalt) org nm.

(** [decryptKeystore(keystore, password)] *)
Definition decryptKeystore (keystore : KeystoreFile) (password : string)
  : KeyPair :=
  let saltBytes := fromHex (salt keystore) in
  let derived := deriveKey password saltBytes in
  let encrypted := fromHex (encryptedPrivateKey keystore) in
  let decrypted := xorWith derived encrypted in
  mkKeyPair (ks_publicKey keystore) (toHex decrypted).
End Keystore.

(** Example data used below: a short stand-in digest and a key pair. *)
Definition toyDigest (bs : Bytes) : Bytes :=
  [toUint8 (Z.of_nat (length bs)); 171; 18; 255]%Z.

Definition toySalt : Bytes := [1; 2; 3; 250; 0; 16; 32; 64; 128; 255; 9; 8; 7; 6; 5; 4]%Z.

Definition toyKeyPair : KeyPair := mkKeyPair "3a7f1b2c" "00ff10e8c2f9a1b3".


End Identity.

(* --------------------------------------------------------------------- *)
(** ** Further vocabulary for the Raft node                               *)
(* --------------------------------------------------------------------- *)

Module RaftExtra.
Import Raft.

(** Every entry carries, in its [index] field, its 1-based position. *)
Definition wellIndexed (l : RaftLog) : Prop :=
  forall i e, l !! i = Some e -> index e = S i.

(** The voters whose match index is still below [n]. *)
Definition laggards (s : RaftNode) (n : nat) : list string :=
  filter (fun id => matchOf s id < n) (allNodeIds s).

End RaftExtra.

(* --------------------------------------------------------------------- *)
(** ** Peer discovery and delivery ([PeerManager], [forwardToLeader])     *)
(* --------------------------------------------------------------------- *)

Module Gossip.
Import Mesh.

(** One entry of a PEER_LIST payload. *)
Record PeerInfo := mkPeerInfo {
  i_nodeId : string;
  i_publicKey : string;
  i_address : option string;
  i_orgId : string
}.

(** The envelopes the listed functions put on a connection. *)
Inductive WireMessage :=
| PeerListMsg (from : string) (list : list PeerInfo)
| TxForwardMsg (from : string) (tx : Transaction)
| PlainMsg (type from : string).

(** [p.status === "connected"] *)
Definition isConnected (p : Peer) : bool :=
  match p_status p with
  | Connected => true
  | _ => false
  end.

(** [Array.from(this.peers.values())] *)
Definition peerValues (pm : PeerManager) : list Peer :=
  map snd (map_to_list (peers pm)).

Definition infoOf (p : Peer) : PeerInfo :=
  mkPeerInfo (p_nodeId p) (p_publicKey p) (p_address p) (p_orgId p).

(** The [peers] field of the payload built by [sharePeerList(peer)]. *)
Definition peerListPayload (pm : PeerManager) (peer : Peer) : list PeerInfo :=
  map infoOf
    (filter (fun p => negb (String.eqb (p_nodeId p) (p_nodeId peer))
                      && isConnected p)
            (peerValues pm)).

(** [sharePeerList(peer)]: what is sent, and on which connection. *)
Definition sharePeerList (pm : PeerManager) (peer : Peer) : nat * WireMessage :=
  (conn peer, PeerListMsg (localId pm) (peerListPayload pm peer)).

(** [if (p.address)]: an absent or empty address is falsy. *)
Definition dialable (p : PeerInfo) : list string :=
  match i_address p with
  | Some a => if String.eqb a "" then [] else [a]
  | None => []
  end.

(** [handlePeerList(msg, _peer)]: the addresses handed to [connectTo], in
    order.  The peer map is not touched: a discovered peer enters it only
    through its own handshake. *)
Definition handlePeerList (pm : PeerManager) (payload : list PeerInfo)
  : list string :=
  flat_map
    (fun p =>
       if String.eqb (i_nodeId p) (localId pm) then []
       else if bool_decide (is_Some (peers pm !! i_nodeId p)) then []
       else dialable p)
    payload.

(** [broadcast(msg)]: the (connection, message) pairs sent. *)
Definition broadcast (pm : PeerManager) (msg : WireMessage)
  : list (nat * WireMessage) :=
  map (fun p => (conn p, msg)) (filter (fun p => isConnected p) (peerValues pm)).

(** [sendTo(nodeId, msg)] *)
Definition sendTo (pm : PeerManager) (nodeId : string) (msg : WireMessage)
  : list (nat * WireMessage) :=
  match peers pm !! nodeId with
  | Some p => if isConnected p then [(conn p, msg)] else []
  | None => []
  end.


(** The identities claimed by a run of handshakes. *)
Definition claimedIds (incoming : list (Peer * HandshakePayload)) : list string :=
  map (fun x => h_nodeId x.2) incoming.

(** Example data used below. *)
Definition meshABC : PeerManager :=
  mkManager "me"
    (<["a" := mkPeer 1 "a" "pka" "org" (Some "ws://a:9000") Connected 5]>
       (<["b" := mkPeer 2 "b" "pkb" "org" (Some "ws://b:9000") Connected 7]>
          (<["c" := mkPeer 3 "c" "pkc" "org" None Disconnected 9]> ∅)))
    [].

Definition meshB : PeerManager :=
  mkManager "b"
    (<["me" := mkPeer 1 "me" "pkme" "org" (Some "ws://me:9000") Connected 5]> ∅)
    [].


End Gossip.

(* --------------------------------------------------------------------- *)
(** ** Catch-up against a peer that serves what is asked                  *)
(* --------------------------------------------------------------------- *)

Module SyncExtra.
Import Mesh.

Section Serving.
Context {Chain Net : Type} {env : SyncEnv Chain Net}.

(** The selected peer answers every request of the loop with blocks that,
    once applied, bring the local chain to the end of the range asked. *)
Definition ServesFully (bestPeer : Peer) (bestHeight : nat) : Prop :=
  forall (c : Chain) (net : Net),
    getChainHeight c < bestHeight ->
    (requestBlocks net bestPeer (getChainHeight c + 1)
                   (batchEnd (getChainHeight c + 1) bestHeight)).1 <> [] /\
    getChainHeight
      (applyBlocks c
         (requestBlocks net bestPeer (getChainHeight c + 1)
                        (batchEnd (getChainHeight c + 1) bestHeight)).1)
    = batchEnd (getChainHeight c + 1) bestHeight.
End Serving.

(** The number of batches of 50 that cover a gap. *)
Definition batchesFor (gap : nat) : nat := (gap + 49) / 50.

End SyncExtra.

(* --------------------------------------------------------------------- *)
(** ** Schema migrations ([migrate])                                      *)
(* --------------------------------------------------------------------- *)

Module Migrations.
Import Storage.

(** One element of the [MIGRATIONS] array. *)
Record Migration := mkMigration {
  m_version : nat;
  m_sql : string
}.

(** The database as [migrate] sees it: whatever the migration scripts act
    on, and the rows (version, applied_at) of [_migrations]. *)
Record MigDb (Schema : Type) := mkMigDb {
  schema : Schema;
  applied : list (nat * nat)
}.
Arguments mkMigDb {Schema} schema applied.
Arguments schema {Schema} m.
Arguments applied {Schema} m.

Section Migrate.
Context {Schema : Type}.
(** [this.db.exec(sql)]: runs a script, or throws part-way. *)
Variable exec : string -> Schema -> Outcome Schema.
(** [Date.now()] at the k-th call made by one run of [migrate]. *)
Variable now : nat -> nat.

(** [new Set(applied.map(r => r.version))] *)
Definition appliedVersions (d : MigDb Schema) : list nat :=
  map fst (applied d).

(** [INSERT INTO _migrations (version, applied_at) VALUES (?, ?)]:
    [version] is the primary key, so a version already present throws. *)
Definition recordMigration (version at_ : nat) (d : MigDb Schema)
  : Outcome (MigDb Schema) :=
  if bool_decide (version ∈ appliedVersions d)
  then Threw "UNIQUE constraint failed: _migrations.version" d
  else Done (mkMigDb (schema d) (applied d ++ [(version, at_)])).

(** The callback of one migration's transaction. *)
Definition migrationBody (m : Migration) (at_ : nat) (d : MigDb Schema)
  : Outcome (MigDb Schema) :=
  match exec (m_sql m) (schema d) with
  | Done s' => recordMigration (m_version m) at_ (mkMigDb s' (applied d))
  | Threw msg s' => Threw msg (mkMigDb s' (applied d))
  end.

(** [this.db.transaction(fn)()]: on a throw the database is put back as
    it was and the error is rethrown. *)
Definition atomically (fn : MigDb Schema -> Outcome (MigDb Schema))
    (d : MigDb Schema) : Outcome (MigDb Schema) :=
  match fn d with
  | Done d' => Done d'
  | Threw msg _ => Threw msg d
  end.

(** The [for (const migration of MIGRATIONS)] loop; [snapshot] is
    [appliedVersions] as read before the loop, [k] counts the calls of
    [Date.now()] so far.  A throw leaves the loop. *)
Fixpoint migrateLoop (snapshot : list nat) (k : nat) (ms : list Migration)
    (d : MigDb Schema) : Outcome (MigDb Schema) :=
  match ms with
  | [] => Done d
  | m :: rest =>
      if bool_decide (m_version m ∈ snapshot)
      then migrateLoop snapshot k rest d
      else
        match atomically (migrationBody m (now k)) d with
        | Done d' => migrateLoop snapshot (S k) rest d'
        | Threw msg d' => Threw msg d'
        end
  end.

(** [migrate()] *)
Definition migrate (MIGRATIONS : list Migration) (d : MigDb Schema)
  : Outcome (MigDb Schema) :=
  migrateLoop (appliedVersions d) 0 MIGRATIONS d.

(** Running a list of scripts one after the other. *)
Fixpoint execAll (sqls : list string) (s : Schema) : Outcome Schema :=
  match sqls with
  | [] => Done s
  | sql :: rest =>
      match exec sql s with
      | Done s' => execAll rest s'
      | Threw msg s' => Threw msg s'
      end
  end.
End Migrate.

(** The migrations of a list that a database has not yet applied. *)
Definition pending {Schema} (MIGRATIONS : list Migration) (d : MigDb Schema)
  : list Migration :=
  filter (fun m => m_version m ∉ appliedVersions d) MIGRATIONS.

(** Example data used below: the schema is the list of scripts run so
    far, and the script ["bad"] throws. *)
Definition toyExec (sql : string) (s : list string) : Outcome (list string) :=
  if String.eqb sql "bad" then Threw "syntax error" (s ++ ["partial"])
  else Done (s ++ [sql]).

Definition toyClock (k : nat) : nat := 1000 + k.

Definition toyMigrations : list Migration :=
  [mkMigration 1 "create"; mkMigration 2 "alter"].

End Migrations.

(* --------------------------------------------------------------------- *)
(** ** Key generation, signatures, node id, keystore on disk              *)
(* --------------------------------------------------------------------- *)

Module Signing.
Import Identity.

(** Modelled from the spec: [shortId] lives in [utils.js] and is not
    listed; the node id is described as the first 16 hex characters of
    the public key. *)
Definition shortId (publicKeyHex : string) : string :=
  String.substring 0 16 publicKeyHex.

Section Ed25519.
(** The operations of the Ed25519 library.  [ed.sign] and [ed.verify]
    throw on malformed input: [None]. *)
Variable getPublicKey : Bytes -> Bytes.
Variable edSign : Bytes -> Bytes -> option Bytes.
Variable edVerify : Bytes -> Bytes -> Bytes -> option bool.

(** [generateKeyPair()], with the bytes of [ed.utils.randomPrivateKey()]
    as argument. *)
Definition generateKeyPair (randomPrivateKey : Bytes) : KeyPair :=
  mkKeyPair (toHex (getPublicKey randomPrivateKey)) (toHex randomPrivateKey).

(** [sign(message, privateKeyHex)]; [None] when the library throws. *)
Definition sign (message privateKeyHex : string) : option string :=
  match edSign (encode message) (fromHex privateKeyHex) with
  | Some sig => Some (toHex sig)
  | None => None
  end.

(** [verify(message, signatureHex, publicKeyHex)]: a throw inside the
    [try] becomes [false]. *)
Definition verify (message signatureHex publicKeyHex : string) : bool :=
  match edVerify (fromHex signatureHex) (encode message) (fromHex publicKeyHex) with
  | Some ok => ok
  | None => false
  end.

(** What the node relies on from the library: a signature made with a
    private key is a byte array that verifies, for the same message,
    against the public key derived from that private key. *)
Definition Ed25519Correct : Prop :=
  forall msg sk sig,
    edSign msg sk = Some sig ->
    Forall isByte sig /\ edVerify sig msg (getPublicKey sk) = Some true.
End Ed25519.

Section Startup.
(** The keystore file on disk: [fs.existsSync], [fs.readFileSync] and
    [fs.writeFileSync] on [keystore.json], whose content is [None] when
    the file does not exist; [serializeKeystore] and
    [deserializeKeystore] are taken as given. *)
Context {File : Type}.
Variable serializeKeystore : KeystoreFile -> File.
Variable deserializeKeystore : File -> KeystoreFile.
Variable sha256 : Bytes -> Bytes.
Variable getPublicKey : Bytes -> Bytes.

(** "Automatic Keypair Creation": the key pair the node starts with and
    the file as it is afterwards.  The random bytes for a new private key
    and for the salt are arguments; [org] and [nm] are
    [config.node.orgId] and [config.node.name]. *)
Definition loadOrCreateKeyPair (disk : option File)
    (randomPrivateKey randomSalt : Bytes) (org nm : string)
  : KeyPair * option File :=
  match disk with
  | Some data =>
      let ks := deserializeKeystore data in
      (decryptKeystore sha256 ks "", disk)
  | None =>
      let keyPair := generateKeyPair getPublicKey randomPrivateKey in
      let ks := encryptKeystore sha256 randomSalt keyPair "" org nm in
      (keyPair, Some (serializeKeystore ks))
  end.
End Startup.

(** Example data used below: a stand-in signature scheme in which the
    public key is the private key and a signature is key and message in
    a row, and key material of the documented sizes. *)
Definition toyPublic (sk : Bytes) : Bytes := map toUint8 sk.
Definition toySign (msg sk : Bytes) : option Bytes :=
  Some (map toUint8 (sk ++ msg)).
Definition toyVerify (sig msg pk : Bytes) : option bool :=
  Some (bool_decide (sig = pk ++ map toUint8 msg)).

Definition toyPrivate : Bytes :=
  [7; 200; 13; 255; 0; 1; 2; 3; 4; 5; 6; 7; 8; 9; 10; 11;
   12; 13; 14; 15; 16; 17; 18; 19; 20; 21; 22; 23; 24; 25; 26; 27]%Z.

End Signing.

(* --------------------------------------------------------------------- *)
(** ** Further vocabulary for the storage engine                          *)
(* --------------------------------------------------------------------- *)

Module StorageExtra.
Import Storage.

(** Two rows with the same hashed columns. *)
Definition sameContent (r r' : StateRow) : Prop :=
  key r = key r' /\ value r = value r' /\ version r = version r'.

(** One row that reads like two: its value swallows the end of the first
    row, the separator and the start of the second. *)
Definition mergedRow (r1 r2 : StateRow) : StateRow :=
  mkRow (key r1)
        (String.append (value r1)
           (String.append ":" (String.append (showNat (version r1))
              (String.append "|" (String.append (key r2)
                 (String.append ":" (value r2)))))))
        (version r2) (updated_at r2) (updated_by r2) (block_height r2).

(** A world state of just these rows. *)
Definition stateOfRows (rows : list StateRow) : Database := mkDb rows [] [] ∅.

End StorageExtra.

(* ===================================================================== *)
(** * Part II — Lemmas and theorems                                       *)
(* ===================================================================== *)

Module RaftFacts.
Import Raft.

(** ** The log *)

Lemma getEntry_in_range (l : RaftLog) (n : nat) :
  0 < n <= getLastIndex l -> is_Some (getEntry l n).
Proof.
  unfold getLastIndex. destruct n as [|i]; [lia|]. intros [_ Hn].
  simpl. apply lookup_lt_is_Some. lia.
Qed.

Lemma getEntry_Some_range (l : RaftLog) (n : nat) (e : RaftLogEntry) :
  getEntry l n = Some e -> 0 < n <= getLastIndex l.
Proof.
  unfold getLastIndex. destruct n as [|i]; [discriminate|]. simpl.
  intros H. apply lookup_lt_Some in H. lia.
Qed.

Lemma getEntry_append_last (l : RaftLog) (e : RaftLogEntry) :
  getEntry (append l e) (getLastIndex (append l e)) = Some e.
Proof.
  unfold append, getLastIndex. rewrite length_app. simpl.
  replace (length l + 1) with (S (length l)) by lia. simpl.
  rewrite lookup_app_r by lia. by rewrite Nat.sub_diag.
Qed.

Lemma getLastIndex_append (l : RaftLog) (e : RaftLogEntry) :
  getLastIndex (append l e) = S (getLastIndex l).
Proof. unfold append, getLastIndex. rewrite length_app. simpl. lia. Qed.

(** ** [applyCommitted] *)

Lemma applyOne_eq (s : RaftNode) :
  applyOne s =
  set_delivered (delivered s ++ handedOver s (S (lastApplied s)))
    (set_lastApplied (S (lastApplied s)) s).
Proof.
  unfold applyOne, handedOver. destruct s as [? ? ? ? lg ? ? ? la ? ? cb dl ? ? ? ?].
  simpl. destruct (lg !! la) as [e|]; simpl.
  - destruct cb; simpl; [done|]. by rewrite app_nil_r.
  - by rewrite app_nil_r.
Qed.

(** The loop after [fuel] turns at most: [lastApplied] has moved up by the
    number of turns taken, one block list per index has been handed over
    in increasing order, and nothing else has changed. *)
Lemma applyLoop_eq (fuel : nat) (s : RaftNode) :
  applyLoop fuel s =
  set_delivered
    (delivered s ++
     flat_map (handedOver s)
       (seq (S (lastApplied s)) (Nat.min fuel (commitIndex s - lastApplied s))))
    (set_lastApplied
       (lastApplied s + Nat.min fuel (commitIndex s - lastApplied s)) s).
Proof.
  revert s. induction fuel as [|fuel IH]; intros s.
  - simpl. destruct s; simpl. rewrite app_nil_r. by rewrite Nat.add_0_r.
  - cbn [applyLoop]. destruct (lastApplied s <? commitIndex s) eqn:Hlt.
    + apply Nat.ltb_lt in Hlt. rewrite IH, applyOne_eq.
      destruct s as [? ? ? ? lg ? ? ci la ? ? cb dl ? ? ? ?]; simpl in *.
      replace (ci - la) with (S (ci - S la)) by lia.
      unfold set_delivered, set_lastApplied, handedOver; simpl.
      rewrite <- app_assoc. do 2 f_equal. lia.
    + apply Nat.ltb_ge in Hlt.
      replace (commitIndex s - lastApplied s) with 0 by lia.
      rewrite Nat.min_0_r. destruct s; simpl.
      rewrite app_nil_r. by rewrite Nat.add_0_r.
Qed.

(** On exit the loop guard is false, so the turns allowed were enough. *)
Lemma applyLoop_exit (s : RaftNode) :
  (lastApplied (applyCommitted s) <? commitIndex (applyCommitted s)) = false.
Proof.
  unfold applyCommitted. rewrite applyLoop_eq. simpl.
  rewrite Nat.min_id. destruct s; simpl. apply Nat.ltb_ge. lia.
Qed.

(** More turns change nothing. *)
Lemma applyLoop_more_fuel (s : RaftNode) (extra : nat) :
  applyLoop (commitIndex s - lastApplied s + extra) s = applyCommitted s.
Proof.
  unfold applyCommitted. rewrite !applyLoop_eq. simpl.
  rewrite Nat.min_id. by replace (Nat.min _ _) with (commitIndex s - lastApplied s) by lia.
Qed.

Lemma applyCommitted_eq (s : RaftNode) :
  applyCommitted s =
  set_delivered
    (delivered s ++
     flat_map (handedOver s)
       (seq (S (lastApplied s)) (commitIndex s - lastApplied s)))
    (set_lastApplied (lastApplied s + (commitIndex s - lastApplied s)) s).
Proof. unfold applyCommitted. rewrite applyLoop_eq. simpl. by rewrite Nat.min_id. Qed.

Lemma commitIndex_applyCommitted (s : RaftNode) :
  commitIndex (applyCommitted s) = commitIndex s.
Proof. rewrite applyCommitted_eq. by destruct s. Qed.

Lemma lastApplied_applyCommitted (s : RaftNode) :
  lastApplied s <= commitIndex s ->
  lastApplied (applyCommitted s) = commitIndex s.
Proof. intros H. rewrite applyCommitted_eq. destruct s; simpl in *. lia. Qed.

(** With a callback set and every index up to the last present in the log,
    what is handed over for a run of indices is that slice of the log. *)
Lemma handedOver_slice (s : RaftNode) (from len : nat) :
  hasCallback s = true ->
  from + len <= getLastIndex (raftLog s) ->
  flat_map (handedOver s) (seq (S from) len) =
  map block (take len (drop from (raftLog s))).
Proof.
  intros Hcb. unfold getLastIndex. revert from.
  induction len as [|len IH]; intros from Hle; simpl; [done|].
  unfold handedOver at 1. simpl. rewrite Hcb.
  destruct (raftLog s !! from) as [e|] eqn:He.
  - rewrite (drop_S _ e _ He). simpl. f_equal.
    rewrite IH by lia. done.
  - apply lookup_ge_None in He. lia.
Qed.

(** C5 (as amended).  From a state with [lastApplied <= commitIndex],
    [applyCommitted] walks the indices [lastApplied+1 .. commitIndex] in
    increasing order, one step of [lastApplied] per index, and ends with
    [lastApplied = commitIndex].  The callback receives, in that order,
    the block of every index in the range whose entry is in the log, once
    each, provided a callback is set; an index without an entry advances
    [lastApplied] without a callback, and without a callback nothing is
    handed over.  When a callback is set and [commitIndex] does not pass
    the end of the log, the blocks handed over are exactly those of the
    entries [lastApplied+1 .. commitIndex], one per index.  No index at or
    below the old [lastApplied] is handed over again, and nothing else in
    the node changes. *)
Theorem applyCommitted_sequential (s : RaftNode) :
  lastApplied s <= commitIndex s ->
  applyCommitted s =
    set_delivered
      (delivered s ++
       flat_map (handedOver s)
         (seq (S (lastApplied s)) (commitIndex s - lastApplied s)))
      (set_lastApplied (commitIndex s) s)
  /\ lastApplied (applyCommitted s) = commitIndex s
  /\ (forall fuel, commitIndex s - lastApplied s <= fuel ->
        applyLoop fuel s = applyCommitted s)
  /\ (hasCallback s = true ->
      commitIndex s <= getLastIndex (raftLog s) ->
      delivered (applyCommitted s) =
        delivered s ++
        map block (take (commitIndex s - lastApplied s)
                        (drop (lastApplied s) (raftLog s)))
      /\ length (delivered (applyCommitted s)) =
         length (delivered s) + (commitIndex s - lastApplied s)).
Proof.
  intros Hle. split; [|split; [|split]].
  - rewrite applyCommitted_eq. do 2 f_equal. lia.
  - by apply lastApplied_applyCommitted.
  - intros fuel Hfuel.
    replace fuel with (commitIndex s - lastApplied s
                       + (fuel - (commitIndex s - lastApplied s))) by lia.
    apply applyLoop_more_fuel.
  - intros Hcb Hlast.
    assert (delivered (applyCommitted s) =
            delivered s ++
            map block (take (commitIndex s - lastApplied s)
                            (drop (lastApplied s) (raftLog s)))) as Hd.
    { rewrite applyCommitted_eq.
      rewrite handedOver_slice by (done || lia). by destruct s. }
    split; [done|]. rewrite Hd, length_app, length_map, length_take, length_drop.
    unfold getLastIndex in Hlast. lia.
Qed.

Lemma applyCommitted_sequential_witness :
  applyCommitted leader3 = leader3 /\
  applyCommitted (set_commitIndex 2 leader3) =
    set_delivered [blk 1; blk 2]
      (set_lastApplied 2 (set_commitIndex 2 leader3)).
Proof.
  split.
  - destruct (applyCommitted_sequential leader3) as [H _];
      [simpl; lia | exact H].
  - destruct (applyCommitted_sequential (set_commitIndex 2 leader3)) as [H _];
      [simpl; lia | exact H].
Defined.

(** C5 as stated fails: with [lastApplied <= commitIndex] the callback is
    not invoked once per index of the range when the log has no entry at
    an index ([gapNode]: range 1..2, one invocation) or when no callback
    is set ([muteNode]: range 1..2, no invocation). *)
Lemma applyCommitted_not_once_per_index :
  (lastApplied gapNode <= commitIndex gapNode /\
   length (delivered (applyCommitted gapNode)) <>
   length (delivered gapNode) + (commitIndex gapNode - lastApplied gapNode))
  /\
  (lastApplied muteNode <= commitIndex muteNode /\
   length (delivered (applyCommitted muteNode)) <>
   length (delivered muteNode) + (commitIndex muteNode - lastApplied muteNode)).
Proof. vm_compute. repeat split; (lia || discriminate). Qed.

(** ** [advanceCommitIndex] *)

(** The counting loop counts the members of [replicas]. *)
Lemma replicatedCount_eq (s : RaftNode) (n : nat) :
  replicatedCount s n = length (replicas s n).
Proof.
  unfold replicatedCount, replicas.
  assert (forall ids acc,
    foldl (fun count id => if n <=? matchOf s id then S count else count) acc ids
    = acc + length (filter (fun id => n <= matchOf s id) ids)) as Hgen.
  { induction ids as [|id ids IH]; intros acc; simpl; [lia|].
    rewrite IH, filter_cons.
    destruct (Nat.leb_spec n (matchOf s id)); case_decide; simpl; lia. }
  by rewrite Hgen.
Qed.

(** The test made for one candidate index is the commit rule. *)
Lemma commitsAt_iff (s : RaftNode) (n : nat) :
  commitsAt s n = true <-> CommitCandidate s n.
Proof.
  unfold commitsAt, CommitCandidate, majority. rewrite replicatedCount_eq.
  destruct (getEntry (raftLog s) n) as [e|]; split.
  - destruct (Nat.eqb_spec (term e) (currentTerm s)); [|discriminate].
    intros H%Nat.leb_le. eauto.
  - intros (e' & [= <-] & Ht & Hm). rewrite Ht, Nat.eqb_refl.
    by apply Nat.leb_le.
  - discriminate.
  - intros (e' & [=] & _).
Qed.

Lemma scanCommit_Some (s : RaftNode) (n m : nat) :
  scanCommit s n = Some m ->
  commitIndex s < m <= n /\ commitsAt s m = true /\
  forall k, m < k <= n -> commitsAt s k = false.
Proof.
  induction n as [|n IH]; simpl; [discriminate|].
  destruct (Nat.ltb_spec (commitIndex s) (S n)); [|discriminate].
  destruct (commitsAt s (S n)) eqn:Hc.
  - intros [= <-]. repeat split; (lia || done).
  - intros H'. destruct (IH H') as (Hr & Hm & Hk).
    repeat split; [lia | lia | done |].
    intros k Hk'. destruct (decide (k = S n)) as [->|]; [done|].
    apply Hk. lia.
Qed.

Lemma scanCommit_None (s : RaftNode) (n : nat) :
  scanCommit s n = None ->
  forall k, commitIndex s < k <= n -> commitsAt s k = false.
Proof.
  induction n as [|n IH]; simpl; [intros _ k; lia|].
  destruct (Nat.ltb_spec (commitIndex s) (S n)); [|intros _ k; lia].
  destruct (commitsAt s (S n)) eqn:Hc; [discriminate|].
  intros H' k Hk. destruct (decide (k = S n)) as [->|]; [done|].
  apply IH; [done | lia].
Qed.



(** On [leader3] the scan passes index 3 (current term, one replica out of
    three) and commits index 2; both committed blocks reach the callback. *)
Example advanceCommitIndex_leader3 :
  advanceCommitIndex leader3 =
  set_delivered [blk 1; blk 2]
    (set_lastApplied 2 (set_commitIndex 2 leader3)).
Proof. reflexivity. Qed.

(** An entry of an earlier term is not committed however many nodes hold
    it: a term-2 leader whose only entry is from term 1, held by all. *)
Example advanceCommitIndex_old_term :
  let s := mkNode "n1" ["n2"; "n3"] 2 (Some "n1") [mkEntry 1 1 (blk 1)]
                  Leader (Some "n1") 0 0 ∅
                  (<["n2" := 1]> (<["n3" := 1]> ∅)) true [] [] [] false true in
  replicatedCount s 1 = 3 /\ advanceCommitIndex s = s.
Proof. split; reflexivity. Qed.

(** ** Elections *)

Lemma isLogUpToDate_iff (s : RaftNode) (lastLogIndex lastLogTerm : nat) :
  isLogUpToDate s lastLogIndex lastLogTerm = true <->
  AtLeastAsUpToDate s lastLogIndex lastLogTerm.
Proof.
  unfold isLogUpToDate, AtLeastAsUpToDate.
  destruct (Nat.eqb_spec lastLogTerm (getLastTerm (raftLog s))) as [->|Hne]; simpl.
  - rewrite Nat.leb_le. split; [intros; right; done|]. intros [?|[_ ?]]; [lia|done].
  - rewrite Nat.ltb_lt. split; [intros; left; done|]. intros [?|[? _]]; done.
Qed.

(** C6.  [isLogUpToDate] answers true exactly when the candidate's last
    log term is strictly higher than the voter's, or the two are equal and
    the candidate's last log index is at least the voter's.  The vote
    handler grants exactly when, in addition, the candidate's term is at
    least the voter's current term and the voter has not voted in that
    term for another candidate (a vote cast in a lower term is void: the
    voter steps down first). *)
Theorem vote_granting_rule (s : RaftNode) (cterm : nat) (cand : string)
    (lastLogIndex lastLogTerm : nat) :
  (isLogUpToDate s lastLogIndex lastLogTerm = true <->
   (getLastTerm (raftLog s) < lastLogTerm \/
    (lastLogTerm = getLastTerm (raftLog s) /\
     getLastIndex (raftLog s) <= lastLogIndex)))
  /\
  ((handleRequestVote s cterm cand lastLogIndex lastLogTerm).2 = true <->
   (currentTerm s <= cterm /\
    (cterm = currentTerm s -> votedFor s = None \/ votedFor s = Some cand) /\
    isLogUpToDate s lastLogIndex lastLogTerm = true)).
Proof.
  split; [apply isLogUpToDate_iff|].
  unfold handleRequestVote, voteDecision. cbn [snd].
  destruct (Nat.ltb_spec (currentTerm s) cterm) as [Hlt|Hge].
  - replace (isLogUpToDate (stepDown cterm s) lastLogIndex lastLogTerm)
      with (isLogUpToDate s lastLogIndex lastLogTerm) by (by destruct s).
    replace (currentTerm (stepDown cterm s)) with cterm by (by destruct s).
    replace (votedFor (stepDown cterm s)) with (@None string) by (by destruct s).
    rewrite Nat.leb_refl. simpl. split.
    + intros H. repeat split; [lia | intros; lia | done].
    + by intros (_ & _ & H).
  - rewrite !andb_true_iff, Nat.leb_le. split.
    + intros [[Hle Hv] Hup]. repeat split; [done | | done].
      intros _. destruct (votedFor s) as [v|]; [|by left].
      apply bool_decide_eq_true in Hv. right. by subst.
    + intros (Hle & Hv & Hup). repeat split; [done | | done].
      destruct (votedFor s) as [v|] eqn:Hvf; [|done].
      apply bool_decide_eq_true. destruct Hv as [?|[= ?]]; [lia | done | done].
Qed.

Lemma vote_granting_rule_witness :
  isLogUpToDate leader3 3 2 = true /\
  (handleRequestVote leader3 3 "n2" 3 2).2 = true.
Proof.
  destruct (vote_granting_rule leader3 3 "n2" 3 2) as [Hup Hgrant].
  split.
  - apply Hup. right. vm_compute. lia.
  - apply Hgrant. split; [simpl; lia|]. split; [simpl; lia | reflexivity].
Defined.

(** A vote already given to another candidate in the same term, a stale
    term, and a shorter log each refuse the vote. *)
Example vote_refusals :
  (handleRequestVote leader3 2 "n2" 3 2).2 = false /\
  (handleRequestVote leader3 1 "n2" 3 2).2 = false /\
  (handleRequestVote leader3 3 "n2" 2 2).2 = false /\
  (handleRequestVote leader3 3 "n2" 9 1).2 = false.
Proof. repeat split; reflexivity. Qed.

Lemma totalVoters_one (s : RaftNode) :
  totalVoters s = 1 <-> knownNodeIds s = [].
Proof.
  unfold totalVoters, allNodeIds. rewrite length_app. simpl.
  destruct (knownNodeIds s); simpl; split; (done || lia).
Qed.

(** A lone leader whose last entry is of its own term commits it on the
    first turn of the scan: the majority of one is the leader itself. *)
Lemma scanCommit_single (s : RaftNode) (e : RaftLogEntry) :
  knownNodeIds s = [] ->
  commitIndex s < getLastIndex (raftLog s) ->
  getEntry (raftLog s) (getLastIndex (raftLog s)) = Some e ->
  term e = currentTerm s ->
  scanCommit s (getLastIndex (raftLog s)) = Some (getLastIndex (raftLog s)).
Proof.
  intros Hk Hci He Ht.
  assert (commitsAt s (getLastIndex (raftLog s)) = true) as Hc.
  { unfold commitsAt, majority, replicatedCount, allNodeIds, matchOf.
    rewrite He, Ht, Nat.eqb_refl, Hk. simpl.
    rewrite decide_True by done. by rewrite Nat.leb_refl. }
  destruct (getLastIndex (raftLog s)) as [|n] eqn:Hn; [lia|].
  simpl. destruct (Nat.ltb_spec (commitIndex s) (S n)); [|lia]. by rewrite Hc.
Qed.

Lemma proposeBlock_single (s : RaftNode) (b : Block) :
  role s = Leader ->
  knownNodeIds s = [] ->
  commitIndex s <= getLastIndex (raftLog s) ->
  proposeBlock b s =
  applyCommitted
    (set_commitIndex (S (getLastIndex (raftLog s)))
       (set_outbox (outbox s ++ [])
          (set_matchIndex (<[nodeId s := getLastIndex (raftLog s) + 1]> (matchIndex s))
             (set_raftLog
                (append (raftLog s)
                   (mkEntry (currentTerm s) (getLastIndex (raftLog s) + 1) b))
                s)))).
Proof.
  intros Hrole Hk Hci. unfold proposeBlock. rewrite Hrole.
  set (entry := mkEntry (currentTerm s) (getLastIndex (raftLog s) + 1) b).
  set (s2 := sendHeartbeats _).
  assert (raftLog s2 = append (raftLog s) entry) as Hlog by (by destruct s).
  assert (s2 = set_outbox (outbox s ++ [])
                 (set_matchIndex (<[nodeId s := getLastIndex (raftLog s) + 1]> (matchIndex s))
                    (set_raftLog (append (raftLog s) entry) s))) as Hs2.
  { subst s2. unfold sendHeartbeats. destruct s; simpl in *. by subst. }
  unfold advanceCommitIndex.
  replace (role s2) with Leader by (rewrite Hs2; by destruct s).
  rewrite (scanCommit_single s2 entry).
  - rewrite Hlog, getLastIndex_append. by rewrite Hs2.
  - rewrite Hs2. by destruct s.
  - rewrite Hlog, getLastIndex_append.
    replace (commitIndex s2) with (commitIndex s) by (rewrite Hs2; by destruct s).
    lia.
  - rewrite Hlog. apply getEntry_append_last.
  - rewrite Hs2. by destruct s.
Qed.

(** C7.  When the node is the only voter, starting an election makes it
    Leader of the next term at once and puts nothing on the wire: no
    RequestVote (and no other message) is sent.  From then on a block
    proposed is committed in the same call: after [proposeBlock b] the
    commit index is the index of the new entry, which holds [b] with the
    current term, still with nothing sent; and the entry is applied in the
    same call too ([lastApplied] catches up).  (The commit index and
    [lastApplied] are taken not to run ahead of the log and of the commit
    index, as in every state the node reaches.) *)
Theorem single_voter_leads_and_commits (s : RaftNode) :
  totalVoters s = 1 ->
  let s' := startElection s in
  role s' = Leader
  /\ leaderId s' = Some (nodeId s)
  /\ currentTerm s' = S (currentTerm s)
  /\ outbox s' = outbox s
  /\ filter (fun m => isRequestVote m = true) (outbox s') =
     filter (fun m => isRequestVote m = true) (outbox s)
  /\ (commitIndex s <= getLastIndex (raftLog s) ->
      forall b,
        let s'' := proposeBlock b s' in
        getLastIndex (raftLog s'') = S (getLastIndex (raftLog s))
        /\ commitIndex s'' = getLastIndex (raftLog s'')
        /\ getEntry (raftLog s'') (commitIndex s'') =
           Some (mkEntry (currentTerm s') (S (getLastIndex (raftLog s))) b)
        /\ outbox s'' = outbox s
        /\ (lastApplied s <= commitIndex s -> lastApplied s'' = commitIndex s'')).
Proof.
  intros Hone s'.
  assert (knownNodeIds s = []) as Hk by (by apply totalVoters_one).
  assert (role s' = Leader /\ leaderId s' = Some (nodeId s) /\
          currentTerm s' = S (currentTerm s) /\ outbox s' = outbox s /\
          knownNodeIds s' = [] /\ raftLog s' = raftLog s /\
          commitIndex s' = commitIndex s /\ lastApplied s' = lastApplied s)
    as (Hr & Hl & Ht & Ho & Hk' & Hlog & Hci' & Hla').
  { subst s'. unfold startElection, totalVoters, allNodeIds.
    destruct s; simpl in *. subst. simpl. rewrite app_nil_r. done. }
  do 4 (split; [done|]). split; [by rewrite Ho|].
  intros Hci b s''. subst s''.
  rewrite proposeBlock_single by (done || (rewrite Hci', Hlog; lia)).
  rewrite applyCommitted_eq, Hlog, Ht, Ho.
  assert (getLastIndex (append (raftLog s)
            (mkEntry (S (currentTerm s)) (getLastIndex (raftLog s) + 1) b))
          = S (getLastIndex (raftLog s))) as Hlen by apply getLastIndex_append.
  destruct s' as [? ? ? ? ? ? ? ci' la' ? ? ? ? ? ? ? ?]; simpl in *. subst ci' la'.
  split; [exact Hlen|]. split; [by rewrite Hlen|]. split; [|split].
  - unfold append, getLastIndex. rewrite lookup_app_r by lia.
    rewrite Nat.sub_diag. simpl. do 2 f_equal. lia.
  - by rewrite app_nil_r.
  - lia.
Qed.

Lemma single_voter_leads_and_commits_witness :
  role (startElection node0) = Leader /\
  outbox (startElection node0) = [] /\
  commitIndex (proposeBlock (blk 1) (startElection node0)) = 1 /\
  delivered (proposeBlock (blk 1) (startElection node0)) = [blk 1].
Proof.
  destruct (single_voter_leads_and_commits node0) as (Hr & _ & _ & Ho & _ & Hp);
    [reflexivity |].
  split; [exact Hr|]. split; [exact Ho|].
  destruct (Hp (Nat.le_refl 0) (blk 1)) as (Hl & Hc & _).
  split; [rewrite Hc; exact Hl | reflexivity].
Defined.

(** With a second voter the election does go on the wire. *)
Example two_voters_request_votes :
  let s := set_role Follower leader3 in
  role (startElection s) = Candidate /\
  outbox (startElection s) =
    [("n2", RequestVote 3 "n1" 3 2); ("n3", RequestVote 3 "n1" 3 2)].
Proof. split; reflexivity. Qed.

End RaftFacts.

Module StorageFacts.
Import Storage.

(** ** Ordering of keys *)

Lemma ascii_compare_eq (a b : ascii) : Ascii.compare a b = Eq <-> a = b.
Proof.
  split; [apply Ascii.compare_eq_iff|]. intros ->.
  unfold Ascii.compare. apply N.compare_refl.
Qed.

Lemma ascii_compare_trans (a b c : ascii) (r : comparison) :
  Ascii.compare a b = r -> Ascii.compare b c = r -> Ascii.compare a c = r.
Proof.
  unfold Ascii.compare. destruct r.
  - rewrite !N.compare_eq_iff. congruence.
  - rewrite !N.compare_lt_iff. lia.
  - rewrite !N.compare_gt_iff. lia.
Qed.

Lemma string_compare_refl (s : string) : String.compare s s = Eq.
Proof.
  induction s as [|c s IH]; simpl; [done|].
  replace (Ascii.compare c c) with Eq by (symmetry; by apply ascii_compare_eq).
  done.
Qed.

(** [String.compare] is transitive on [Lt]. *)
Lemma string_compare_lt_trans (s1 s2 s3 : string) :
  String.compare s1 s2 = Lt -> String.compare s2 s3 = Lt ->
  String.compare s1 s3 = Lt.
Proof.
  revert s2 s3. induction s1 as [|c1 s1 IH]; intros [|c2 s2] [|c3 s3]; simpl;
    try done.
  destruct (Ascii.compare c1 c2) eqn:H12; try done;
    destruct (Ascii.compare c2 c3) eqn:H23; try done; intros Ha Hb.
  - apply ascii_compare_eq in H12, H23. subst.
    replace (Ascii.compare c3 c3) with Eq by (symmetry; by apply ascii_compare_eq).
    by apply (IH s2).
  - apply ascii_compare_eq in H12. subst. by rewrite H23.
  - apply ascii_compare_eq in H23. subst. by rewrite H12.
  - by rewrite (ascii_compare_trans _ _ _ _ H12 H23).
Qed.

Lemma string_leb_iff (s1 s2 : string) :
  String.leb s1 s2 = true <-> String.compare s1 s2 = Lt \/ s1 = s2.
Proof.
  unfold String.leb. destruct (String.compare s1 s2) eqn:Hc.
  - apply String.compare_eq_iff in Hc. by split; [right|].
  - by split; [left|].
  - split; [done|]. intros [?|E]; [done|]. subst s2.
    rewrite string_compare_refl in Hc. discriminate.
Qed.

Lemma string_leb_trans (s1 s2 s3 : string) :
  String.leb s1 s2 = true -> String.leb s2 s3 = true -> String.leb s1 s3 = true.
Proof.
  rewrite !string_leb_iff. intros [H12|E12] [H23|E23]; subst; eauto.
  left. by apply (string_compare_lt_trans _ s2).
Qed.

(** ** [ORDER BY key ASC] *)

Lemma insertRow_perm (r : StateRow) (rows : list StateRow) :
  insertRow r rows ≡ₚ r :: rows.
Proof.
  induction rows as [|r' rows IH]; simpl; [done|].
  destruct (String.leb (key r) (key r')); [done|].
  rewrite IH. apply Permutation_swap.
Qed.

Lemma orderByKey_perm (rows : list StateRow) : orderByKey rows ≡ₚ rows.
Proof.
  induction rows as [|r rows IH]; simpl; [done|].
  by rewrite insertRow_perm, IH.
Qed.

Lemma insertRow_sorted (r : StateRow) (rows : list StateRow) :
  StronglySorted keyLe rows -> StronglySorted keyLe (insertRow r rows).
Proof.
  induction 1 as [|r' rows Hs IH Hall]; simpl.
  - by repeat constructor.
  - destruct (String.leb (key r) (key r')) eqn:Hle.
    + constructor; [by constructor|]. constructor; [done|].
      eapply Forall_impl; [exact Hall|]. intros x Hx.
      by apply (string_leb_trans _ (key r')).
    + constructor; [done|]. rewrite insertRow_perm. constructor; [|done].
      unfold keyLe. destruct (String.leb_total (key r) (key r')); congruence.
Qed.

Lemma orderByKey_sorted (rows : list StateRow) :
  StronglySorted keyLe (orderByKey rows).
Proof.
  induction rows as [|r rows IH]; simpl; [constructor|].
  by apply insertRow_sorted.
Qed.

(** In a table with a primary key, a key names one row. *)
Lemma same_key_same_row (rows : list StateRow) (a b : StateRow) :
  NoDup (map key rows) -> a ∈ rows -> b ∈ rows -> key a = key b -> a = b.
Proof.
  induction rows as [|r rows IH]; simpl; [by intros _ ?%elem_of_nil|].
  intros [Hnot Hnd]%NoDup_cons [->|Ha]%elem_of_cons [->|Hb]%elem_of_cons Hk;
    try done.
  - exfalso. apply Hnot. rewrite Hk. by apply list_elem_of_fmap_2.
  - exfalso. apply Hnot. rewrite <- Hk. by apply list_elem_of_fmap_2.
  - by apply IH.
Qed.

(** Two key-sorted lists holding the same rows, with no key twice, are the
    same list. *)
Lemma sorted_rows_unique (l1 l2 : list StateRow) :
  NoDup (map key l1) ->
  StronglySorted keyLe l1 -> StronglySorted keyLe l2 ->
  l1 ≡ₚ l2 -> l1 = l2.
Proof.
  revert l2. induction l1 as [|a l1 IH]; intros l2 Hnd Hs1 Hs2 Hp.
  - by apply Permutation_nil_l in Hp.
  - destruct l2 as [|b l2]; [by apply Permutation_nil_r in Hp|].
    apply StronglySorted_inv in Hs1 as [Hs1 Ha].
    apply StronglySorted_inv in Hs2 as [Hs2 Hb].
    assert (a = b) as ->.
    { apply (same_key_same_row (a :: l1)); [done | by left | |].
      - rewrite Hp. by left.
      - apply String.leb_antisym.
        + assert (b ∈ a :: l1) as [->|Hin]%elem_of_cons by (rewrite Hp; by left).
          * apply string_leb_iff. by right.
          * rewrite Forall_forall in Ha. by apply Ha.
        + assert (a ∈ b :: l2) as [->|Hin]%elem_of_cons by (rewrite <- Hp; by left).
          * apply string_leb_iff. by right.
          * rewrite Forall_forall in Hb. by apply Hb. }
    f_equal. apply IH; [by apply NoDup_cons in Hnd as [_ ?] | done | done |].
    by apply Permutation_cons_inv in Hp.
Qed.

Lemma orderByKey_permutation_invariant (l1 l2 : list StateRow) :
  NoDup (map key l1) -> l1 ≡ₚ l2 -> orderByKey l1 = orderByKey l2.
Proof.
  intros Hnd Hp. apply sorted_rows_unique.
  - by rewrite orderByKey_perm.
  - apply orderByKey_sorted.
  - apply orderByKey_sorted.
  - by rewrite !orderByKey_perm.
Qed.

(** ** The decimal form of the version *)

Lemma readDigits_string_of_uint (d : Decimal.uint) (acc : nat) :
  readDigits acc (NilEmpty.string_of_uint d) = Some (Nat.of_uint_acc d acc).
Proof.
  revert acc. induction d as [|d IH|d IH|d IH|d IH|d IH|d IH|d IH|d IH|d IH|d IH];
    intros acc; [done|..];
    simpl; rewrite IH; do 2 f_equal; rewrite Nat.tail_mul_spec; lia.
Qed.

Lemma nzhead_no_leading_zero (d d' : Decimal.uint) :
  Decimal.nzhead d <> Decimal.D0 d'.
Proof. induction d; simpl; done. Qed.

Lemma unorm_leading_zero (d d' : Decimal.uint) :
  Decimal.unorm d = Decimal.D0 d' -> d' = Decimal.Nil.
Proof.
  unfold Decimal.unorm. destruct (Decimal.nzhead d) eqn:Hd; try done.
  - by intros [= <-].
  - intros [= <-]. by apply nzhead_no_leading_zero in Hd.
Qed.

(** [showNat] writes the decimal numeral of its argument. *)
Lemma showNat_decimal (n : nat) : isDecimalOf n (showNat n) = true.
Proof.
  unfold showNat.
  pose proof (DecimalNat.Unsigned.of_to n) as Hval.
  pose proof (DecimalNat.Unsigned.to_of (Nat.to_uint n)) as Hnorm.
  rewrite Hval in Hnorm. unfold Nat.of_uint in Hval.
  pose proof (readDigits_string_of_uint (Nat.to_uint n) 0) as Hread.
  rewrite Hval in Hread.
  destruct (Nat.to_uint n) as [|d|d|d|d|d|d|d|d|d|d] eqn:Hd;
    try (unfold isDecimalOf, NilZero.string_of_uint;
         cbn [NilEmpty.string_of_uint];
         cbn [NilEmpty.string_of_uint] in Hread;
         rewrite Hread; by rewrite bool_decide_eq_true_2).
  - discriminate Hnorm.
  - symmetry in Hnorm. apply unorm_leading_zero in Hnorm. subst d.
    simpl in Hval. by subst n.
Qed.

(** A decimal numeral names one number. *)
Lemma isDecimalOf_value (n m : nat) (s : string) :
  isDecimalOf n s = true -> isDecimalOf m s = true -> n = m.
Proof.
  unfold isDecimalOf. destruct s as [|c s]; [done|].
  intros [_ Hn%bool_decide_eq_true]%andb_true_iff
         [_ Hm%bool_decide_eq_true]%andb_true_iff.
  congruence.
Qed.

(** C2.  [computeStateRoot] leaves the database as it found it, so a
    second call returns the same root.  On an empty world state it returns
    the string of 64 zero characters; otherwise it returns the SHA-256 of
    the rows sorted by key ascending, each written [key:value:version]
    with the version as a decimal numeral, and joined by a bar.  Two
    databases whose world-state tables hold the same rows (in whatever
    storage order, keys being unique) give the same root. *)
Theorem computeStateRoot_reproducible (sha256Hex : string -> string) (d : Database) :
  (computeStateRoot sha256Hex d).2 = d
  /\ (computeStateRoot sha256Hex (computeStateRoot sha256Hex d).2).1
     = (computeStateRoot sha256Hex d).1
  /\ (world_state d = [] ->
      (computeStateRoot sha256Hex d).1 =
      "0000000000000000000000000000000000000000000000000000000000000000"%string)
  /\ (world_state d <> [] ->
      exists rows texts,
        rows ≡ₚ world_state d /\ StronglySorted keyLe rows /\
        Forall2 (fun r text =>
                   exists digits,
                     isDecimalOf (version r) digits = true /\
                     text = String.append (key r)
                              (String.append ":" (String.append (value r)
                                 (String.append ":" digits))))
                rows texts /\
        (computeStateRoot sha256Hex d).1 = sha256Hex (String.concat "|" texts))
  /\ (forall d',
        NoDup (map key (world_state d)) ->
        world_state d ≡ₚ world_state d' ->
        (computeStateRoot sha256Hex d).1 = (computeStateRoot sha256Hex d').1).
Proof.
  assert ((computeStateRoot sha256Hex d).2 = d) as Hsame
    by (unfold computeStateRoot; by destruct (length _ =? 0)).
  split; [done|]. split; [by rewrite Hsame|].
  unfold computeStateRoot. split; [|split].
  - intros ->. reflexivity.
  - intros Hne.
    exists (orderByKey (world_state d)), (map rowString (orderByKey (world_state d))).
    split; [apply orderByKey_perm|]. split; [apply orderByKey_sorted|]. split.
    + apply Forall2_fmap_r, Forall_Forall2_diag, Forall_forall. intros r _.
      exists (showNat (version r)). split; [apply showNat_decimal | done].
    + destruct (Nat.eqb_spec (length (orderByKey (world_state d))) 0) as [H0|];
        [|done].
      apply nil_length_inv in H0. exfalso. apply Hne.
      symmetry. apply Permutation_nil_l. rewrite <- H0. apply orderByKey_perm.
  - intros d' Hnd Hp.
    rewrite (orderByKey_permutation_invariant _ _ Hnd Hp).
    by destruct (length _ =? 0).
Qed.

Lemma computeStateRoot_reproducible_witness :
  (computeStateRoot tagHash (mkDb [rowB; rowA] [] [] ∅)).1
    = (computeStateRoot tagHash (mkDb [rowA; rowB] [] [] ∅)).1
  /\ (computeStateRoot tagHash emptyDb).1
     = "0000000000000000000000000000000000000000000000000000000000000000"%string
  /\ (exists rows texts,
        rows ≡ₚ [rowB; rowA] /\ StronglySorted keyLe rows /\
        Forall2 (fun r text =>
                   exists digits,
                     isDecimalOf (version r) digits = true /\
                     text = String.append (key r)
                              (String.append ":" (String.append (value r)
                                 (String.append ":" digits))))
                rows texts /\
        (computeStateRoot tagHash (mkDb [rowB; rowA] [] [] ∅)).1
        = tagHash (String.concat "|" texts)).
Proof.
  split; [|split].
  - destruct (computeStateRoot_reproducible tagHash (mkDb [rowB; rowA] [] [] ∅))
      as (_ & _ & _ & _ & Hperm).
    apply Hperm.
    + apply (bool_decide_unpack _). vm_compute. exact I.
    + simpl. apply Permutation_swap.
  - destruct (computeStateRoot_reproducible tagHash emptyDb)
      as (_ & _ & Hempty & _).
    by apply Hempty.
  - destruct (computeStateRoot_reproducible tagHash (mkDb [rowB; rowA] [] [] ∅))
      as (_ & _ & _ & Hrows & _).
    by apply Hrows.
Defined.

(** What is hashed for a two-row table stored out of key order, and for
    the single row written by [set("k", "v")]. *)
Example computeStateRoot_examples :
  (computeStateRoot tagHash (mkDb [rowB; rowA] [] [] ∅)).1
    = "h:a:1:1|b:2:3"%string /\
  (computeStateRoot tagHash (mkDb [rowK] [] [] ∅)).1 = "h:k:v:1"%string /\
  String.length (computeStateRoot tagHash emptyDb).1 = 64.
Proof. repeat split; reflexivity. Qed.

(** ** [query] *)

Section QueryFacts.
Variable unicodeUpper : N -> list N.
Hypothesis rest_of_table : RestOfTable unicodeUpper.

Local Open Scope N_scope.

(** *** White space at both ends *)

Lemma trimStart_split (s : JsString) :
  exists blanks,
    s = blanks ++ trimStart s /\ forallb isWhiteSpace blanks = true.
Proof.
  induction s as [|c s (blanks & Hs & Hb)]; simpl.
  - by exists [].
  - destruct (isWhiteSpace c) eqn:Hc.
    + exists (c :: blanks). simpl. rewrite Hc, Hb. split; [|done]. by f_equal.
    + by exists [].
Qed.

Lemma trimStart_blanks (blanks t : JsString) :
  forallb isWhiteSpace blanks = true -> trimStart (blanks ++ t) = trimStart t.
Proof.
  induction blanks as [|c blanks IH]; simpl; [done|].
  intros [Hc Hb]%andb_true_iff. rewrite Hc. by apply IH.
Qed.

Lemma trimEnd_split (s : JsString) : exists blanks, s = trimEnd s ++ blanks.
Proof.
  induction s as [|c s (blanks & Hs)]; simpl.
  - by exists [].
  - destruct (trimEnd s) as [|k kept] eqn:Hkept.
    + destruct (isWhiteSpace c).
      * by exists (c :: s).
      * exists blanks. simpl. by f_equal.
    + exists blanks. simpl. by f_equal.
Qed.

Lemma trimEnd_keeps (c : N) (s : JsString) :
  isWhiteSpace c = false -> trimEnd (c :: s) = c :: trimEnd s.
Proof. intros Hc. simpl. rewrite Hc. by destruct (trimEnd s). Qed.

(** *** Upper-casing the first code unit *)

Lemma codeUnits_bmp (cp : N) : cp < 0x10000 -> codeUnits cp = [cp].
Proof. intros H. unfold codeUnits. by destruct (N.ltb_spec cp 0x10000); [|lia]. Qed.

Lemma codeUnits_head (cp : N) :
  0x80 <= cp -> exists u rest, codeUnits cp = u :: rest /\ 0x80 <= u.
Proof.
  intros H. unfold codeUnits. destruct (N.ltb_spec cp 0x10000).
  - by exists cp, [].
  - eexists _, _. split; [reflexivity|].
    apply N.le_trans with 0xD800; [lia | apply N.le_add_r].
Qed.

Lemma specialUpper_listed (cp : N) (mapped : list N) :
  specialUpper cp = Some mapped -> In (cp, mapped) specialCasing.
Proof.
  unfold specialUpper.
  destruct (List.find _ specialCasing) as [[k e]|] eqn:Hf; [|done].
  intros [= <-]. apply List.find_some in Hf as [Hin Hk]. simpl in Hk.
  apply N.eqb_eq in Hk. by subst k.
Qed.

(** What [tableUpper] lists: an ASCII character with its upper-case
    form, a white space character of [trim] left as it is, or an entry of
    [specialCasing]. *)
Lemma tableUpper_cases (cp : N) (mapped : list N) :
  tableUpper cp = Some mapped ->
  (cp < 0x80 /\
   mapped = [if (0x61 <=? cp) && (cp <=? 0x7A) then cp - 0x20 else cp])
  \/ (isWhiteSpace cp = true /\ 0x80 <= cp < 0xD800 + 0x2800 /\ mapped = [cp])
  \/ In (cp, mapped) specialCasing.
Proof.
  unfold tableUpper.
  destruct ((0x61 <=? cp) && (cp <=? 0x7A)) eqn:Hlow.
  - intros [= <-]. left. split; [|done].
    apply andb_true_iff in Hlow as [_ ?%N.leb_le]. lia.
  - destruct (N.ltb_spec cp 0x80); [intros [= <-]; by left|].
    destruct (isWhiteSpace cp) eqn:Hws.
    + intros [= <-]. right. left. split; [done|]. split; [|done].
      split; [done|]. unfold isWhiteSpace in Hws.
      repeat (apply orb_true_iff in Hws as [Hws|Hws]);
        repeat (apply andb_true_iff in Hws as [Hws ?]);
        repeat match goal with
               | H : (_ =? _) = true |- _ => apply N.eqb_eq in H
               | H : (_ <=? _) = true |- _ => apply N.leb_le in H
               end; lia.
    + intros Hs. right. right. by apply specialUpper_listed.
Qed.

Lemma tableUpper_bmp (cp : N) (mapped : list N) :
  tableUpper cp = Some mapped -> cp < 0x10000.
Proof.
  intros [[? _]|[(_ & ? & _)|Hin]]%tableUpper_cases; [lia | lia |].
  simpl in Hin.
  repeat (destruct Hin as [[= <- _]|Hin]; [lia|]). done.
Qed.

Lemma codePoints_single (c : N) (t : JsString) :
  isHighSurrogate c = false -> codePoints (c :: t) = c :: codePoints t.
Proof. intros Hc. simpl. rewrite Hc. by destruct t. Qed.

Lemma codePoints_first (c : N) (t : JsString) :
  exists cp rest,
    codePoints (c :: t) = cp :: rest /\ (cp = c \/ 0x10000 <= cp).
Proof.
  simpl. destruct t as [|lo t]; [by exists c, []; split; [|left]|].
  destruct (isHighSurrogate c && isLowSurrogate lo).
  - eexists _, _. split; [reflexivity|]. right. lia.
  - eexists _, _. split; [reflexivity|]. by left.
Qed.

Lemma tableUpper_not_surrogate (c : N) (mapped : list N) :
  tableUpper c = Some mapped -> isHighSurrogate c = false.
Proof.
  intros H. unfold isHighSurrogate.
  destruct (N.leb_spec 0xD800 c) as [Hhi|]; [|done]. simpl.
  apply tableUpper_cases in H as [[? _]|[(Hws & _ & _)|Hin]]; [lia | |].
  - destruct (N.leb_spec c 0xDBFF) as [Hlo|]; [|done]. exfalso.
    unfold isWhiteSpace in Hws.
    repeat (apply orb_true_iff in Hws as [Hws|Hws]);
      repeat (apply andb_true_iff in Hws as [Hws ?]);
      repeat match goal with
             | H : (_ =? _) = true |- _ => apply N.eqb_eq in H
             | H : (_ <=? _) = true |- _ => apply N.leb_le in H
             end; lia.
  - simpl in Hin.
    repeat (destruct Hin as [[= <- _]|Hin]; [done|]). done.
Qed.

Lemma toUpperCase_listed (c : N) (mapped : list N) (t : JsString) :
  tableUpper c = Some mapped ->
  toUpperCase unicodeUpper (c :: t)
  = flat_map codeUnits mapped ++ toUpperCase unicodeUpper t.
Proof.
  intros H. unfold toUpperCase.
  rewrite (codePoints_single c t (tableUpper_not_surrogate c mapped H)).
  simpl. unfold upperPoint at 1. by rewrite H.
Qed.

(** A code unit that [tableUpper] does not list never gives an ASCII
    character first, whether it stands alone or opens a surrogate pair. *)
Lemma toUpperCase_unlisted (c : N) (t : JsString) :
  tableUpper c = None ->
  exists u rest, toUpperCase unicodeUpper (c :: t) = u :: rest /\ 0x80 <= u.
Proof.
  intros Hc. unfold toUpperCase.
  destruct (codePoints_first c t) as (cp & cps & -> & Hcp).
  assert (tableUpper cp = None) as Hnone.
  { destruct Hcp as [->|Hbig]; [done|].
    destruct (tableUpper cp) as [mapped|] eqn:Hm; [|done].
    apply tableUpper_bmp in Hm. lia. }
  simpl. unfold upperPoint at 1. rewrite Hnone.
  destruct (rest_of_table cp Hnone) as (v & vs & -> & Hv). simpl.
  destruct (codeUnits_head v Hv) as (u & us & -> & Hu).
  by eexists _, _.
Qed.

Lemma startsWith_ascii (c k : N) (t kw : JsString) :
  k < 0x80 ->
  startsWith (toUpperCase unicodeUpper (c :: t)) (k :: kw) = true ->
  exists mapped,
    tableUpper c = Some mapped /\
    startsWith (flat_map codeUnits mapped ++ toUpperCase unicodeUpper t)
               (k :: kw) = true.
Proof.
  intros Hk H. destruct (tableUpper c) as [mapped|] eqn:Hc.
  - exists mapped. by rewrite <- (toUpperCase_listed c mapped t Hc).
  - destruct (toUpperCase_unlisted c t Hc) as (u & us & Hu & Hbig).
    rewrite Hu in H. simpl in H.
    apply andb_true_iff in H as [->%N.eqb_eq _]. lia.
Qed.

(** The case analysis behind the six letters: which code units give the
    ASCII letter [k] first, and what is left to match. *)
Ltac first_letter H :=
  let mapped := fresh "mapped" in
  let Hm := fresh "Hm" in
  let Hin := fresh "Hin" in
  apply startsWith_ascii in H as (mapped & Hm & H); [|reflexivity];
  apply tableUpper_cases in Hm as [[? ->]|[(_ & ? & ->)|Hin]];
  [ simpl in H; rewrite codeUnits_bmp in H
      by (destruct (_ && _); lia);
    simpl in H; apply andb_true_iff in H as [?%N.eqb_eq H]
  | simpl in H; rewrite codeUnits_bmp in H by lia;
    simpl in H; apply andb_true_iff in H as [?%N.eqb_eq _]; lia
  | simpl in Hin;
    repeat (destruct Hin as [[= <- <-]|Hin];
            [first [ discriminate H | idtac ]|]);
    try contradiction ].

Lemma ascii_upper_is (c k : N) :
  (if (0x61 <=? c) && (c <=? 0x7A) then c - 0x20 else c) = k ->
  c = k \/ c = k + 0x20.
Proof.
  destruct ((0x61 <=? c) && (c <=? 0x7A)) eqn:Hlow; [|by left].
  apply andb_true_iff in Hlow as [?%N.leb_le _]. right. lia.
Qed.

Ltac either_case H :=
  apply ascii_upper_is in H as [-> | ->]; reflexivity.

Lemma first_is_S (c : N) (t kw : JsString) :
  startsWith (toUpperCase unicodeUpper (c :: t)) (0x53 :: 0x45 :: kw) = true ->
  isS c = true /\ startsWith (toUpperCase unicodeUpper t) (0x45 :: kw) = true.
Proof.
  intros H. first_letter H; (split; [|done]).
  - match goal with E : _ = 0x53 |- _ => either_case E end.
  - reflexivity.
Qed.

Lemma first_is_E (c : N) (t kw : JsString) :
  startsWith (toUpperCase unicodeUpper (c :: t)) (0x45 :: kw) = true ->
  isE c = true /\ startsWith (toUpperCase unicodeUpper t) kw = true.
Proof.
  intros H. first_letter H; (split; [|done]).
  match goal with E : _ = 0x45 |- _ => either_case E end.
Qed.

Lemma first_is_L (c : N) (t kw : JsString) :
  startsWith (toUpperCase unicodeUpper (c :: t)) (0x4C :: kw) = true ->
  isL c = true /\ startsWith (toUpperCase unicodeUpper t) kw = true.
Proof.
  intros H. first_letter H; (split; [|done]).
  match goal with E : _ = 0x4C |- _ => either_case E end.
Qed.

Lemma first_is_C (c : N) (t kw : JsString) :
  startsWith (toUpperCase unicodeUpper (c :: t)) (0x43 :: kw) = true ->
  isC c = true /\ startsWith (toUpperCase unicodeUpper t) kw = true.
Proof.
  intros H. first_letter H; (split; [|done]).
  match goal with E : _ = 0x43 |- _ => either_case E end.
Qed.

Lemma first_is_T (c : N) (t : JsString) :
  startsWith (toUpperCase unicodeUpper (c :: t)) [0x54] = true -> isT c = true.
Proof.
  intros H. first_letter H.
  - match goal with E : _ = 0x54 |- _ => either_case E end.
  - reflexivity.
Qed.

(** The other direction: each spelling of a letter gives that letter. *)
Lemma isWhiteSpace_not_letter (c : N) :
  isS c || isE c || isL c || isC c || isT c = true -> isWhiteSpace c = false.
Proof.
  unfold isS, isE, isL, isC, isT. intros H.
  repeat (apply orb_true_iff in H as [H|H]);
    apply N.eqb_eq in H; by subst c.
Qed.

Lemma upper_single (c k : N) (t : JsString) :
  tableUpper c = Some [k] -> k < 0x10000 ->
  toUpperCase unicodeUpper (c :: t) = k :: toUpperCase unicodeUpper t.
Proof.
  intros H Hk. rewrite (toUpperCase_listed c [k] t H). simpl.
  by rewrite codeUnits_bmp.
Qed.

Lemma upper_S (c : N) (t : JsString) :
  isS c = true ->
  toUpperCase unicodeUpper (c :: t) = 0x53 :: toUpperCase unicodeUpper t.
Proof.
  unfold isS. intros H.
  repeat (apply orb_true_iff in H as [H|H]);
    apply N.eqb_eq in H; subst c; by apply upper_single.
Qed.

Lemma upper_E (c : N) (t : JsString) :
  isE c = true ->
  toUpperCase unicodeUpper (c :: t) = 0x45 :: toUpperCase unicodeUpper t.
Proof.
  unfold isE. intros H.
  repeat (apply orb_true_iff in H as [H|H]);
    apply N.eqb_eq in H; subst c; by apply upper_single.
Qed.

Lemma upper_L (c : N) (t : JsString) :
  isL c = true ->
  toUpperCase unicodeUpper (c :: t) = 0x4C :: toUpperCase unicodeUpper t.
Proof.
  unfold isL. intros H.
  repeat (apply orb_true_iff in H as [H|H]);
    apply N.eqb_eq in H; subst c; by apply upper_single.
Qed.

Lemma upper_C (c : N) (t : JsString) :
  isC c = true ->
  toUpperCase unicodeUpper (c :: t) = 0x43 :: toUpperCase unicodeUpper t.
Proof.
  unfold isC. intros H.
  repeat (apply orb_true_iff in H as [H|H]);
    apply N.eqb_eq in H; subst c; by apply upper_single.
Qed.

Lemma upper_T (c : N) (t : JsString) :
  isT c = true ->
  exists rest, toUpperCase unicodeUpper (c :: t) = 0x54 :: rest.
Proof.
  unfold isT. intros H.
  repeat (apply orb_true_iff in H as [H|H]);
    apply N.eqb_eq in H; subst c.
  - eexists. by apply upper_single.
  - eexists. by apply upper_single.
  - eexists. by rewrite (toUpperCase_listed 0x1E97 [0x54; 0x308] t).
Qed.

(** *** The guard *)

Lemma spellsSelect_inv (kw : JsString) :
  spellsSelect kw = true ->
  exists s e l e' c t,
    kw = [s; e; l; e'; c; t] /\ isS s = true /\ isE e = true /\ isL l = true /\
    isE e' = true /\ isC c = true /\ isT t = true.
Proof.
  unfold spellsSelect.
  destruct kw as [|s [|e [|l [|e' [|c [|t [|x kw]]]]]]]; try done.
  intros H. repeat (apply andb_true_iff in H as [H ?]).
  by exists s, e, l, e', c, t.
Qed.

(** The upper-case form of a statement starts with SELECT exactly when
    the statement starts with six code units that spell it. *)
Lemma upper_starts_with_select (t : JsString) :
  startsWith (toUpperCase unicodeUpper t) (js "SELECT") = true <->
  exists kw rest, t = kw ++ rest /\ spellsSelect kw = true.
Proof.
  change (js "SELECT") with [0x53; 0x45; 0x4C; 0x45; 0x43; 0x54]. split.
  - destruct t as [|c1 [|c2 [|c3 [|c4 [|c5 [|c6 rest]]]]]]; intros H.
    + discriminate H.
    + apply first_is_S in H as [_ H]. discriminate H.
    + apply first_is_S in H as [_ H]. apply first_is_E in H as [_ H].
      discriminate H.
    + apply first_is_S in H as [_ H]. apply first_is_E in H as [_ H].
      apply first_is_L in H as [_ H]. discriminate H.
    + apply first_is_S in H as [_ H]. apply first_is_E in H as [_ H].
      apply first_is_L in H as [_ H]. apply first_is_E in H as [_ H].
      discriminate H.
    + apply first_is_S in H as [_ H]. apply first_is_E in H as [_ H].
      apply first_is_L in H as [_ H]. apply first_is_E in H as [_ H].
      apply first_is_C in H as [_ H]. discriminate H.
    + apply first_is_S in H as [H1 H]. apply first_is_E in H as [H2 H].
      apply first_is_L in H as [H3 H]. apply first_is_E in H as [H4 H].
      apply first_is_C in H as [H5 H].
      pose proof (first_is_T c6 rest H) as H6.
      exists [c1; c2; c3; c4; c5; c6], rest. split; [done|].
      simpl. by rewrite H1, H2, H3, H4, H5, H6.
  - intros (kw & rest & -> & Hkw).
    apply spellsSelect_inv in Hkw
      as (s & e & l & e' & c & x & -> & Hs & He & Hl & He' & Hc & Hx).
    simpl. rewrite (upper_S _ _ Hs), (upper_E _ _ He), (upper_L _ _ Hl),
      (upper_E _ _ He'), (upper_C _ _ Hc).
    destruct (upper_T x rest Hx) as (more & ->). reflexivity.
Qed.

(** The guard of [query] passes exactly on the statements that begin with
    SELECT. *)
Lemma select_guard_iff (sql : JsString) :
  startsWith (toUpperCase unicodeUpper (trim sql)) (js "SELECT") = true
  <-> BeginsWithSelect sql.
Proof.
  rewrite upper_starts_with_select. unfold trim, BeginsWithSelect. split.
  - intros (kw & rest & Ht & Hkw).
    destruct (trimStart_split sql) as (blanks & Hs & Hb).
    destruct (trimEnd_split (trimStart sql)) as (tail & Htail).
    exists blanks, kw, (rest ++ tail). split; [|done].
    rewrite Hs at 1. rewrite Htail at 1. by rewrite Ht, <- app_assoc.
  - intros (blanks & kw & rest & -> & Hb & Hkw).
    rewrite trimStart_blanks by done. exists kw, (trimEnd rest).
    split; [|done].
    apply spellsSelect_inv in Hkw
      as (s & e & l & e' & c & x & -> & Hs & He & Hl & He' & Hc & Hx).
    assert (trimStart ([s; e; l; e'; c; x] ++ rest)
            = [s; e; l; e'; c; x] ++ rest) as ->.
    { simpl. rewrite (isWhiteSpace_not_letter s); [done|]. by rewrite Hs. }
    change ([s; e; l; e'; c; x] ++ rest)
      with (s :: e :: l :: e' :: c :: x :: rest).
    change ([s; e; l; e'; c; x] ++ trimEnd rest)
      with (s :: e :: l :: e' :: c :: x :: trimEnd rest).
    rewrite !trimEnd_keeps; [done| | | | | |];
      apply isWhiteSpace_not_letter.
    + rewrite Hx. by rewrite !orb_true_r.
    + rewrite Hc. by rewrite !orb_true_r.
    + rewrite He'. by rewrite !orb_true_r.
    + rewrite Hl. by rewrite !orb_true_r.
    + rewrite He. by rewrite !orb_true_r.
    + by rewrite Hs.
Qed.

(** C4 (as amended).  [query] runs a statement only if it begins with
    SELECT: after the white space that [trim] removes, six code units
    that upper-case to SELECT.  Any other statement raises "Only SELECT
    queries are allowed": the driver is never called (the outcome is the
    same whatever the driver would do) and the database is left
    unchanged.  A statement that begins with SELECT is handed to the
    driver as given, with its parameters, and what the driver returns is
    returned.  With a driver that runs such statements without writing,
    no call of [query] changes the database, and every statement that is
    not a read-only statement beginning with SELECT raises the error. *)
Theorem query_select_only
    (prepareAll : JsString -> list SqlValue -> Database -> QueryResult * Database)
    (sql : JsString) (params : list SqlValue) (d : Database) :
  (~ BeginsWithSelect sql ->
   query unicodeUpper prepareAll sql params d
     = (Thrown "Only SELECT queries are allowed", d)
   /\ forall other,
        query unicodeUpper other sql params d
        = query unicodeUpper prepareAll sql params d)
  /\
  (BeginsWithSelect sql ->
   query unicodeUpper prepareAll sql params d = prepareAll sql params d)
  /\
  (RunsSelectReadOnly prepareAll ->
   (query unicodeUpper prepareAll sql params d).2 = d
   /\ (~ (BeginsWithSelect sql /\ ReadOnlyStatement prepareAll sql) ->
       query unicodeUpper prepareAll sql params d
         = (Thrown "Only SELECT queries are allowed", d))).
Proof.
  unfold query. split; [|split].
  - intros H.
    destruct (startsWith _ _) eqn:Hg; [by apply select_guard_iff in Hg|].
    split; [done|]. intros other. done.
  - intros H. apply select_guard_iff in H. by rewrite H.
  - intros Hdriver.
    destruct (startsWith _ _) eqn:Hg; simpl; [|done].
    apply select_guard_iff in Hg. split; [by apply Hdriver|].
    intros Hnot. exfalso. apply Hnot. split; [done|].
    intros params' d'. by apply Hdriver.
Qed.

End QueryFacts.

Lemma unlistedUnchanged_rest : RestOfTable unlistedUnchanged.
Proof.
  intros cp Hcp. exists cp, []. split; [done|].
  unfold tableUpper in Hcp.
  destruct ((0x61 <=? cp)%N && (cp <=? 0x7A)%N); [done|].
  destruct (N.ltb_spec cp 0x80); [done | lia].
Qed.

Lemma query_select_only_witness :
  query unlistedUnchanged noRows
        (js "  select key, value FROM world_state WHERE key LIKE ?")
        [SqlText "balance:%"] emptyDb = (Rows [], emptyDb)
  /\
  query unlistedUnchanged noRows (js "DELETE FROM world_state") [] emptyDb
    = (Thrown "Only SELECT queries are allowed", emptyDb)
  /\
  (query unlistedUnchanged noRows (0xFEFF%N :: js "SELECT 1") [] emptyDb).2
    = emptyDb.
Proof.
  split; [|split].
  - destruct (query_select_only unlistedUnchanged unlistedUnchanged_rest noRows
                (js "  select key, value FROM world_state WHERE key LIKE ?")
                [SqlText "balance:%"] emptyDb) as (_ & Hrun & _).
    apply Hrun.
    exists (js "  "), (js "select"),
           (js " key, value FROM world_state WHERE key LIKE ?").
    repeat split; reflexivity.
  - destruct (query_select_only unlistedUnchanged unlistedUnchanged_rest noRows
                (js "DELETE FROM world_state") [] emptyDb) as (Hstop & _ & _).
    apply Hstop.
    intros H%(select_guard_iff unlistedUnchanged unlistedUnchanged_rest).
    vm_compute in H. discriminate H.
  - destruct (query_select_only unlistedUnchanged unlistedUnchanged_rest noRows
                (0xFEFF%N :: js "SELECT 1") [] emptyDb) as (_ & _ & Hsame).
    apply Hsame. intros sql params d _. reflexivity.
Defined.

(** C4 as stated fails: a read-only statement is not always executed.
    A SELECT introduced by a WITH clause or preceded by a comment is turned
    away with the error, although the driver would have answered it. *)
Lemma query_rejects_some_read_only :
  query unlistedUnchanged noRows
        (js "WITH t AS (SELECT 1) SELECT * FROM t") [] emptyDb
    <> noRows (js "WITH t AS (SELECT 1) SELECT * FROM t") [] emptyDb
  /\ query unlistedUnchanged noRows
           (js "WITH t AS (SELECT 1) SELECT * FROM t") [] emptyDb
     = (Thrown "Only SELECT queries are allowed", emptyDb)
  /\ query unlistedUnchanged noRows
           (js "/* all keys */ SELECT key FROM world_state") [] emptyDb
     = (Thrown "Only SELECT queries are allowed", emptyDb)
  /\ ReadOnlyStatement noRows (js "WITH t AS (SELECT 1) SELECT * FROM t").
Proof. repeat split; (discriminate || reflexivity). Qed.

(** Statements the guard turns away and statements it lets through.  A
    byte order mark or a no-break space before SELECT is trimmed, long s
    upper-cases to S and t with diaeresis to T and a combining mark;
    sharp s upper-cases to SS. *)
Example query_guard_examples :
  let guard sql :=
    startsWith (toUpperCase unlistedUnchanged (trim sql)) (js "SELECT") in
  guard (js "INSERT INTO world_state VALUES (1)") = false /\
  guard (js "drop table blocks") = false /\
  guard (js "UPDATE world_state SET value = 1") = false /\
  guard (js "WITH t AS (SELECT 1) SELECT * FROM t") = false /\
  guard (js "") = false /\
  guard (js "SeLeCt 1  ") = true /\
  guard (0xFEFF%N :: js "SELECT 1") = true /\
  guard (0xA0%N :: 0x2003%N :: js "select 1") = true /\
  guard (0x17F%N :: js "elect 1") = true /\
  guard (js "selec" ++ [0x1E97%N] ++ js " 1") = true /\
  guard (0xDF%N :: js "elect 1") = false /\
  guard (0x200B%N :: js "SELECT 1") = false.
Proof. repeat split; reflexivity. Qed.

(** ** Atomic block application *)

Section ApplyBlockFacts.
Variable applyTransaction : Transaction -> nat -> Database -> Outcome Database.

(** A transaction that throws makes the whole loop throw, with the
    state written so far. *)
Lemma applyTransactions_failure (pre post : list Transaction) (tx : Transaction)
    (h : nat) (d d1 d2 : Database) (m : string) :
  applyTransactions applyTransaction pre h d = Done d1 ->
  applyTransaction tx h d1 = Threw m d2 ->
  applyTransactions applyTransaction (pre ++ tx :: post) h d = Threw m d2.
Proof.
  revert d. induction pre as [|t pre IH]; simpl; intros d.
  - intros [= ->] Hf. by rewrite Hf.
  - destruct (applyTransaction t h d) as [d'|]; simpl; [|done]. apply IH.
Qed.

(** The loop throws only if some transaction throws. *)
Lemma applyTransactions_threw (txs : list Transaction) (h : nat)
    (d d2 : Database) (m : string) :
  applyTransactions applyTransaction txs h d = Threw m d2 ->
  exists pre tx post d1,
    txs = pre ++ tx :: post /\
    applyTransactions applyTransaction pre h d = Done d1 /\
    applyTransaction tx h d1 = Threw m d2.
Proof.
  revert d. induction txs as [|t txs IH]; simpl; intros d; [done|].
  destruct (applyTransaction t h d) as [d'|m' d'] eqn:Ht; simpl.
  - intros (pre & tx & post & d1 & -> & Hpre & Htx)%IH.
    exists (t :: pre), tx, post, d1. simpl. by rewrite Ht.
  - intros [= -> ->]. by exists [], t, txs, d.
Qed.

Lemma updateNonces_tables (txs : list Transaction) (d : Database) :
  world_state (updateNonces txs d) = world_state d /\
  blocks (updateNonces txs d) = blocks d /\
  tx_pool (updateNonces txs d) = tx_pool d.
Proof.
  unfold updateNonces. revert d. induction txs as [|t txs IH]; intros d; simpl;
    [done|].
  destruct (IH (updateNonce (tx_sender t) (tx_nonce t) d)) as (-> & -> & ->).
  done.
Qed.

(** After the nonce loop a sender's nonce is that of its last
    transaction in the block. *)
Lemma updateNonces_last (pre post : list Transaction) (tx : Transaction)
    (d : Database) :
  Forall (fun t => tx_sender t <> tx_sender tx) post ->
  nonces (updateNonces (pre ++ tx :: post) d) !! tx_sender tx = Some (tx_nonce tx).
Proof.
  intros Hpost. unfold updateNonces. rewrite foldl_app. simpl.
  set (d0 := updateNonce _ _ (foldl _ d pre)).
  assert (nonces d0 !! tx_sender tx = Some (tx_nonce tx)) as H0
    by (subst d0; simpl; apply lookup_insert_eq).
  clearbody d0. revert d0 H0.
  induction Hpost as [|t post Hne _ IH]; intros d0 H0; simpl; [done|].
  apply IH. simpl. by rewrite lookup_insert_ne.
Qed.

Lemma removePending_gone (hashes : list string) (d : Database) (t : Transaction) :
  t ∈ tx_pool (removePending hashes d) ->
  t ∈ tx_pool d /\ tx_hash t ∉ hashes.
Proof.
  unfold removePending. simpl. rewrite list_elem_of_filter.
  intros [Hn Hin]. split; [done|]. intros Hh.
  apply negb_prop_elim in Hn. apply Hn. apply Is_true_true.
  apply existsb_exists. exists (tx_hash t). split.
  - by apply list_elem_of_In.
  - apply String.eqb_refl.
Qed.

(** The listed loop completes exactly when every transaction applies in
    order, and then leaves the state the last one left. *)
Lemma applyTransactions_Done (txs : list Transaction) (h : nat) (d d1 : Database) :
  applyTransactions applyTransaction txs h d = Done d1
  <-> AppliesAll applyTransaction h txs d d1.
Proof.
  split.
  - revert d. induction txs as [|t txs IH]; simpl; intros d.
    + intros [= ->]. constructor.
    + destruct (applyTransaction t h d) as [d'|] eqn:Ht; simpl; [|done].
      intros H. eapply applies_next; [exact Ht | by apply IH].
  - induction 1 as [|t txs d d' d2 Ht _ IH]; simpl; [done|].
    by rewrite Ht.
Qed.

Lemma chain_appendBlock_Done (b : Block) (c c1 : list Block) :
  chain_appendBlock b c = Done c1 <-> linksTo b c /\ c1 = c ++ [b].
Proof.
  unfold chain_appendBlock, linksTo. destruct (last c) as [tip|].
  - destruct (Nat.eqb_spec (height b) (height tip + 1)) as [Hh|Hh]; simpl.
    + destruct (String.eqb_spec (previousHash b) (hash tip)) as [Hp|Hp].
      * split; [intros [= <-]; split; [right; by exists tip | done]|].
        by intros [_ ->].
      * split; [done|]. intros [[?|(tip' & [= <-] & _ & ?)] _]; done.
    + split; [done|]. intros [[?|(tip' & [= <-] & ? & _)] _]; done.
  - split; [intros [= <-]; split; [by left | done]|]. by intros [_ ->].
Qed.

Lemma blockStore_insert_Done (b : Block) (d d2 : Database) :
  blockStore_insert b d = Done d2
  <-> notStored b (blocks d) /\ d2 = set_blocks (blocks d ++ [b]) d.
Proof.
  unfold blockStore_insert, notStored.
  destruct (existsb _ (blocks d)) eqn:Hex.
  - split; [done|]. intros [Hfresh _]. exfalso.
    apply existsb_exists in Hex as (b' & Hin%list_elem_of_In & Hb').
    destruct (Hfresh b' Hin) as [Hh Hs].
    apply orb_true_iff in Hb' as [?%Nat.eqb_eq | ?%String.eqb_eq]; done.
  - split; [intros [= <-]; split; [|done] | by intros [_ ->]].
    intros b' Hin%list_elem_of_In. split; intros Heq.
    + assert (existsb (fun b' => (height b' =? height b)
                                  || String.eqb (hash b') (hash b))
                      (blocks d) = true) as Hyes; [|congruence].
      apply existsb_exists. exists b'. split; [done|].
      by rewrite Heq, Nat.eqb_refl.
    + assert (existsb (fun b' => (height b' =? height b)
                                  || String.eqb (hash b') (hash b))
                      (blocks d) = true) as Hyes; [|congruence].
      apply existsb_exists. exists b'. split; [done|].
      by rewrite Heq, String.eqb_refl, orb_true_r.
Qed.

Lemma removePending_iff (hashes : list string) (d : Database) (t : Transaction) :
  t ∈ tx_pool (removePending hashes d)
  <-> t ∈ tx_pool d /\ tx_hash t ∉ hashes.
Proof.
  split; [apply removePending_gone|].
  intros [Hin Hnot]. unfold removePending. simpl.
  apply list_elem_of_filter. split; [|done].
  apply negb_prop_intro. intros Hex%Is_true_true.
  apply existsb_exists in Hex as (x & Hx%list_elem_of_In & Heq%String.eqb_eq).
  by subst x.
Qed.

Lemma updateNonces_other (txs : list Transaction) (d : Database) (sender : string) :
  sender ∉ map tx_sender txs ->
  nonces (updateNonces txs d) !! sender = nonces d !! sender.
Proof.
  unfold updateNonces. revert d. induction txs as [|t txs IH]; intros d; simpl;
    [done|].
  intros Hnot. rewrite IH.
  - simpl. apply lookup_insert_ne. intros Heq. apply Hnot. rewrite <- Heq. by left.
  - intros Hin. apply Hnot. by right.
Qed.

(** C3.  Block application is all or nothing.
    (1) Whenever it throws, the database (world state, blocks, pending
    pool, nonces) is exactly what it was before.  (2) In particular, if
    applying some transaction of the block throws after the ones before
    it were applied, the call throws that error and the whole node,
    database and chain, is as before: the block is not applied.
    (3) If every transaction applies, the block links to the chain and
    is not stored yet, the call completes: the world state is the one
    the transactions produced, applied in order, the block is the new
    last row of block storage and the new chain tip, the pending pool
    has lost exactly the block's transactions, each sender's nonce is
    that of its last transaction in the block and the other nonces are
    untouched.  (4) It completes in no other case. *)
Theorem applyBlock_all_or_nothing (b : Block) (n : NodeState) :
  (forall m n',
     applyBlockAtomically applyTransaction b n = Threw m n' -> db n' = db n)
  /\
  (forall pre tx post d1 m d2,
     transactions b = pre ++ tx :: post ->
     AppliesAll applyTransaction (height b) pre (db n) d1 ->
     applyTransaction tx (height b) d1 = Threw m d2 ->
     applyBlockAtomically applyTransaction b n = Threw m n)
  /\
  (forall d1,
     AppliesAll applyTransaction (height b) (transactions b) (db n) d1 ->
     linksTo b (chain n) ->
     notStored b (blocks d1) ->
     exists n',
       applyBlockAtomically applyTransaction b n = Done n' /\
       world_state (db n') = world_state d1 /\
       blocks (db n') = blocks d1 ++ [b] /\
       chain n' = chain n ++ [b] /\
       (forall t, t ∈ tx_pool (db n') <->
          t ∈ tx_pool d1 /\ tx_hash t ∉ map tx_hash (transactions b)) /\
       (forall pre tx post,
          transactions b = pre ++ tx :: post ->
          Forall (fun t => tx_sender t <> tx_sender tx) post ->
          nonces (db n') !! tx_sender tx = Some (tx_nonce tx)) /\
       (forall sender,
          sender ∉ map tx_sender (transactions b) ->
          nonces (db n') !! sender = nonces d1 !! sender))
  /\
  (forall n',
     applyBlockAtomically applyTransaction b n = Done n' ->
     exists d1,
       AppliesAll applyTransaction (height b) (transactions b) (db n) d1 /\
       linksTo b (chain n) /\
       notStored b (blocks d1)).
Proof.
  unfold applyBlockAtomically, transaction. split; [|split; [|split]].
  - intros m n'. destruct (applyBlockBody _ b n); [done|]. by intros [= _ <-].
  - intros pre tx post d1 m d2 Htxs Hpre%applyTransactions_Done Htx.
    unfold applyBlockBody. rewrite Htxs.
    rewrite (applyTransactions_failure _ _ _ _ _ _ _ _ Hpre Htx). simpl.
    by destruct n.
  - intros d1 Hall%applyTransactions_Done Hlink Hfresh.
    unfold applyBlockBody. rewrite Hall. simpl.
    assert (chain_appendBlock b (chain n) = Done (chain n ++ [b])) as ->
      by (by apply chain_appendBlock_Done).
    simpl.
    assert (blockStore_insert b d1 = Done (set_blocks (blocks d1 ++ [b]) d1)) as ->
      by (by apply blockStore_insert_Done).
    simpl. eexists. split; [reflexivity|]. simpl.
    destruct (updateNonces_tables (transactions b)
                (removePending (map tx_hash (transactions b))
                   (set_blocks (blocks d1 ++ [b]) d1))) as (Hw & Hb & Hp).
    rewrite Hw, Hb, Hp. do 3 (split; [done|]). split; [|split].
    + intros t. apply (removePending_iff _ (set_blocks (blocks d1 ++ [b]) d1)).
    + intros pre tx post -> Hpost. by apply updateNonces_last.
    + intros sender Hnot. by rewrite updateNonces_other.
  - intros n'. unfold applyBlockBody.
    destruct (applyTransactions _ _ _ _) as [d1|] eqn:Happly; simpl; [|done].
    destruct (chain_appendBlock b (chain n)) as [c1|] eqn:Hchain; simpl; [|done].
    destruct (blockStore_insert b d1) as [d2|] eqn:Hins; simpl; [|done].
    intros _. exists d1. split; [by apply applyTransactions_Done|].
    split; [by apply chain_appendBlock_Done in Hchain as [? _]|].
    by apply blockStore_insert_Done in Hins as [? _].
Qed.
End ApplyBlockFacts.

Lemma applyBlock_all_or_nothing_witness :
  applyBlockAtomically toyApply blockBad nodeBefore
    = Threw "unsupported transaction" nodeBefore
  /\
  exists n',
    applyBlockAtomically toyApply blockGood nodeBefore = Done n' /\
    world_state (db n') = [mkRow "x" "x" 1 0 "alice" 1] /\
    blocks (db n') = [blockGood] /\
    chain n' = [blockGood] /\
    (txGood ∉ tx_pool (db n')) /\
    nonces (db n') !! "alice" = Some 0.
Proof.
  split.
  - destruct (applyBlock_all_or_nothing toyApply blockBad nodeBefore)
      as (_ & H & _).
    apply (H [txGood] txBad []
             (set_world_state [mkRow "x" "x" 1 0 "alice" 1] (db nodeBefore))
             "unsupported transaction"%string
             (set_world_state [mkRow "x" "x" 1 0 "alice" 1] (db nodeBefore)));
      [reflexivity | | reflexivity].
    eapply applies_next; [reflexivity | apply applies_none].
  - destruct (applyBlock_all_or_nothing toyApply blockGood nodeBefore)
      as (_ & _ & H & _).
    destruct (H (set_world_state [mkRow "x" "x" 1 0 "alice" 1] (db nodeBefore)))
      as (n' & Hdone & Hw & Hb & Hc & Hpool & Hnonce & _).
    + eapply applies_next; [reflexivity | apply applies_none].
    + by left.
    + intros b' Hin. by apply elem_of_nil in Hin.
    + exists n'. do 4 (split; [done|]). split.
      * intros Hin%Hpool. destruct Hin as [_ Hnot]. apply Hnot. by left.
      * apply (Hnonce [] txGood []); [reflexivity | constructor].
Defined.

(** The same block without the failing transaction goes through: the row
    is written, the block stored, the pool entry removed, the nonce set. *)
Example applyBlock_success :
  applyBlockAtomically toyApply blockGood nodeBefore =
  Done (mkNodeState
          (mkDb [mkRow "x" "x" 1 0 "alice" 1] [blockGood] [txBad]
                (<["alice" := 0]> ∅))
          [blockGood]).
Proof. reflexivity. Qed.

End StorageFacts.

Module MeshFacts.
Import Mesh.

(** ** Handshake *)

Lemma keyedById_noDuplicate (pm : PeerManager) : keyedById pm -> noDuplicate pm.
Proof.
  intros Hk k1 k2 p1 p2 H1 H2 Hid.
  by rewrite <- (Hk _ _ H1), <- (Hk _ _ H2).
Qed.

Lemma handleHandshake_localId (pm : PeerManager) (peer : Peer)
    (payload : HandshakePayload) :
  localId (handleHandshake pm peer payload) = localId pm.
Proof.
  unfold handleHandshake.
  destruct (String.eqb _ _); [done|]. by destruct (bool_decide _).
Qed.

Lemma handleHandshake_rejects (pm : PeerManager) (peer : Peer)
    (payload : HandshakePayload) :
  h_nodeId payload = localId pm \/ is_Some (peers pm !! h_nodeId payload) ->
  handleHandshake pm peer payload =
  mkManager (localId pm) (peers pm) (effects pm ++ [Close (conn peer)]).
Proof.
  unfold handleHandshake. intros [Hself|Hdup].
  - by rewrite Hself, String.eqb_refl.
  - destruct (String.eqb _ _); [done|]. by rewrite bool_decide_eq_true_2.
Qed.

Lemma handleHandshake_preserves (pm : PeerManager) (peer : Peer)
    (payload : HandshakePayload) :
  peerMapOk pm -> peerMapOk (handleHandshake pm peer payload).
Proof.
  intros [Hself Hkeyed]. unfold handleHandshake.
  destruct (String.eqb_spec (h_nodeId payload) (localId pm)) as [|Hne];
    [by split|].
  destruct (bool_decide _); [by split|]. split.
  - unfold noSelf. simpl. by rewrite lookup_insert_ne.
  - intros k p. simpl. rewrite lookup_insert. case_decide as Hk.
    + intros [= <-]. simpl. done.
    + apply Hkeyed.
Qed.

Lemma handleHandshakes_preserves (pm : PeerManager)
    (incoming : list (Peer * HandshakePayload)) :
  peerMapOk pm -> peerMapOk (handleHandshakes pm incoming).
Proof.
  unfold handleHandshakes. revert pm.
  induction incoming as [|[peer payload] incoming IH]; intros pm Hok; simpl;
    [done|].
  apply IH. by apply handleHandshake_preserves.
Qed.

(** C9.  A handshake that claims the local node's identity, or an identity
    already in the peer map, closes the connection and changes nothing
    else: no peer is added, no acknowledgement sent, no event emitted.
    Every handshake, accepted or not, keeps the entries already in the map
    and preserves the invariant that the map has no entry for the local
    identity and files every entry under the identity it carries; hence
    after any run of handshakes starting from such a map there is no entry
    for the local node and no identity appears in two entries. *)
Theorem handshake_rejects_self_and_duplicate (pm : PeerManager) (peer : Peer)
    (payload : HandshakePayload) :
  (h_nodeId payload = localId pm \/ is_Some (peers pm !! h_nodeId payload) ->
   peers (handleHandshake pm peer payload) = peers pm /\
   effects (handleHandshake pm peer payload) = effects pm ++ [Close (conn peer)])
  /\
  (forall k p, peers pm !! k = Some p ->
               peers (handleHandshake pm peer payload) !! k = Some p)
  /\
  (peerMapOk pm ->
   noSelf (handleHandshake pm peer payload) /\
   keyedById (handleHandshake pm peer payload) /\
   noDuplicate (handleHandshake pm peer payload))
  /\
  (forall incoming,
     peerMapOk pm ->
     noSelf (handleHandshakes pm incoming) /\
     noDuplicate (handleHandshakes pm incoming)).
Proof.
  split; [|split; [|split]].
  - intros H. by rewrite (handleHandshake_rejects _ _ _ H).
  - intros k p Hk. unfold handleHandshake.
    destruct (String.eqb _ _); [done|].
    destruct (bool_decide _) eqn:Hd; [done|]. simpl.
    apply bool_decide_eq_false in Hd.
    rewrite lookup_insert_ne; [done|]. intros <-. apply Hd. by exists p.
  - intros Hok. destruct (handleHandshake_preserves pm peer payload Hok) as [? ?].
    repeat split; [done | done |]. by apply keyedById_noDuplicate.
  - intros incoming Hok.
    destruct (handleHandshakes_preserves pm incoming Hok) as [? ?].
    split; [done|]. by apply keyedById_noDuplicate.
Qed.

Lemma handshake_rejects_self_and_duplicate_witness :
  peers (handleHandshake mesh0 (peerAt 7 "" 0) (helloFrom "me")) = ∅ /\
  effects (handleHandshake mesh0 (peerAt 7 "" 0) (helloFrom "me")) = [Close 7].
Proof.
  apply (handshake_rejects_self_and_duplicate mesh0 (peerAt 7 "" 0) (helloFrom "me")).
  left. reflexivity.
Defined.

(** A first handshake from "n2" is accepted, a second one under the same
    identity only closes the new connection, and one claiming to be "me"
    is closed as well. *)
Example handshake_sequence :
  let pm := handleHandshakes mesh0
              [(peerAt 1 "" 0, helloFrom "n2");
               (peerAt 2 "" 0, helloFrom "n2");
               (peerAt 3 "" 0, helloFrom "me")] in
  peers pm = {["n2" := mkPeer 1 "n2" "" "org" None Connected 0]} /\
  effects pm =
    [SendHandshakeAck 1 true; SendPeerList 1 []; EmitPeerConnected "n2";
     Close 2; Close 3].
Proof. split; reflexivity. Qed.

(** ** Block synchronisation *)

(** The scan keeps the running maximum and the first peer that reached it. *)
Lemma findBestPeer_fold (connected : list Peer) (b0 : option Peer) (h0 : nat) :
  let r := foldl (fun best peer =>
                    if best.2 <? chainHeight peer
                    then (Some peer, chainHeight peer) else best)
                 (b0, h0) connected in
  h0 <= r.2 /\
  (forall q, q ∈ connected -> chainHeight q <= r.2) /\
  (r.1 = b0 /\ r.2 = h0 \/
   exists p, r.1 = Some p /\ p ∈ connected /\ chainHeight p = r.2 /\ h0 < r.2).
Proof.
  revert b0 h0. induction connected as [|q connected IH]; intros b0 h0; simpl.
  - split; [done|]. split; [by intros q ?%elem_of_nil | by left].
  - destruct (Nat.ltb_spec h0 (chainHeight q)) as [Hlt|Hge].
    + destruct (IH (Some q) (chainHeight q)) as (Hle & Hall & Hsel). simpl in *.
      split; [lia|]. split.
      * intros q' [->|Hin]%elem_of_cons; [done | by apply Hall].
      * right. destruct Hsel as [[Hp Hh]|(p & Hp & Hin & Hh & Hlt')].
        -- exists q. rewrite Hp, Hh. repeat split; [by left | done].
        -- exists p. repeat split; [done | by right | done | lia].
    + destruct (IH b0 h0) as (Hle & Hall & Hsel). simpl in *.
      split; [done|]. split.
      * intros q' [->|Hin]%elem_of_cons; [lia | by apply Hall].
      * destruct Hsel as [?|(p & Hp & Hin & Hh & Hlt')]; [by left|].
        right. exists p. repeat split; [done | by right | done | done].
Qed.

(** Two scans that start below a height some peer reports end alike. *)
Lemma findBestPeer_same (connected : list Peer) (b1 b2 : option Peer)
    (h1 h2 : nat) :
  (exists q, q ∈ connected /\ h1 < chainHeight q /\ h2 < chainHeight q) ->
  foldl (fun best peer =>
           if best.2 <? chainHeight peer
           then (Some peer, chainHeight peer) else best) (b1, h1) connected =
  foldl (fun best peer =>
           if best.2 <? chainHeight peer
           then (Some peer, chainHeight peer) else best) (b2, h2) connected.
Proof.
  revert b1 b2 h1 h2.
  induction connected as [|q connected IH]; intros b1 b2 h1 h2 (w & Hin & Hw1 & Hw2).
  - by apply elem_of_nil in Hin.
  - simpl.
    destruct (Nat.ltb_spec h1 (chainHeight q)), (Nat.ltb_spec h2 (chainHeight q));
      [done| | |].
    all: apply elem_of_cons in Hin as [->|Hin]; [lia|].
    all: apply IH; exists w; repeat split; (done || lia).
Qed.

Section BlockSyncFacts.
Context {Chain Net : Type} {env : SyncEnv Chain Net}.

Lemma batchEnd_bounds (from bestHeight : nat) :
  from <= bestHeight ->
  from <= batchEnd from bestHeight <= bestHeight /\
  batchEnd from bestHeight + 1 - from <= 50.
Proof. unfold batchEnd, SYNC_BATCH_SIZE. lia. Qed.

Lemma syncLoop_sound (fuel : nat) (best : Peer) (bestHeight : nat)
    (c : Chain) (net : Net) (c' : Chain) (net' : Net) :
  syncLoop fuel best bestHeight c net = Some (c', net') ->
  SyncRun best bestHeight c net c' net'.
Proof.
  revert c net. induction fuel as [|fuel IH]; intros c net; simpl; [done|].
  destruct (Nat.ltb_spec (getChainHeight c) bestHeight) as [Hlt|Hge].
  - destruct (requestBlocks net best _ _) as [blocks net1] eqn:Hreq.
    destruct blocks as [|b blocks]; simpl.
    + intros [= <- <-]. by eapply sync_empty_batch.
    + intros Hrec. eapply sync_batch; [done | exact Hreq | done | by apply IH].
  - intros [= <- <-]. by apply sync_caught_up.
Qed.

Lemma syncLoop_complete (best : Peer) (bestHeight : nat)
    (c : Chain) (net : Net) (c' : Chain) (net' : Net) :
  SyncRun best bestHeight c net c' net' ->
  exists fuel, syncLoop fuel best bestHeight c net = Some (c', net').
Proof.
  induction 1 as [c net Hge | c net net' Hlt Hreq
                 | c net blocks net' c' net'' Hlt Hreq Hne _ [fuel IH]].
  - exists 1. simpl. by destruct (Nat.ltb_spec (getChainHeight c) bestHeight); [lia|].
  - exists 1. simpl.
    destruct (Nat.ltb_spec (getChainHeight c) bestHeight); [|lia].
    by rewrite Hreq.
  - exists (S fuel). simpl.
    destruct (Nat.ltb_spec (getChainHeight c) bestHeight); [|lia].
    rewrite Hreq. by destruct blocks.
Qed.

(** Where a run ends: at or above the target height, or below it on a
    batch that came back empty. *)
Lemma SyncRun_stop (best : Peer) (bestHeight : nat)
    (c : Chain) (net : Net) (c' : Chain) (net' : Net) :
  SyncRun best bestHeight c net c' net' ->
  bestHeight <= getChainHeight c' \/
  (getChainHeight c' < bestHeight /\
   exists net0,
     requestBlocks net0 best (getChainHeight c' + 1)
                   (batchEnd (getChainHeight c' + 1) bestHeight) = ([], net')).
Proof.
  induction 1 as [c net Hge | c net net' Hlt Hreq | ? ? ? ? ? ? _ _ _ _ IH].
  - by left.
  - right. split; [done|]. by exists net.
  - exact IH.
Qed.

Lemma syncLoop_terminates (best : Peer) (bestHeight : nat) :
  BatchesRaiseHeight best bestHeight ->
  forall fuel c net,
    bestHeight - getChainHeight c < fuel ->
    is_Some (syncLoop fuel best bestHeight c net).
Proof.
  intros Hprog. induction fuel as [|fuel IH]; intros c net Hfuel; [lia|].
  simpl. destruct (Nat.ltb_spec (getChainHeight c) bestHeight) as [Hlt|Hge];
    [|by eexists].
  destruct (requestBlocks net best _ _) as [blocks net1] eqn:Hreq.
  destruct blocks as [|b blocks]; simpl; [by eexists|].
  apply IH.
  assert (getChainHeight c < getChainHeight (applyBlocks c (b :: blocks)))
    by (by eapply Hprog).
  unfold applyBlocks in *. simpl in *. lia.
Qed.

(** C8.  One run of [syncFromPeers] over a given set of connected peers.
    (a) The peer selected is a connected peer with the highest reported
    height, provided that height is above the local one (otherwise the
    run ends at once, nothing requested); selecting again at any local
    height still below the target would pick the same peer.  (b) Each
    request starts at local height + 1 and spans at most 50 heights, never
    past the target.  (c) The blocks returned are applied in order.
    (d) The loop yields a result exactly for the runs that end either
    with the local height at or above the selected peer's height, or on
    a request that came back empty; and it does yield one, within
    target − local + 1 turns, whenever every non-empty batch raises
    the local height. *)
Theorem syncFromPeers_run (connected : list Peer) (c : Chain) (net : Net) :
  (forall bestHeight,
     findBestPeer connected (getChainHeight c) = (None, bestHeight) ->
     (forall q, q ∈ connected -> chainHeight q <= getChainHeight c) /\
     forall fuel, syncFromPeers fuel connected c net = Some (c, net))
  /\
  (forall best bestHeight,
     findBestPeer connected (getChainHeight c) = (Some best, bestHeight) ->
     (best ∈ connected /\ chainHeight best = bestHeight /\
      getChainHeight c < bestHeight /\
      forall q, q ∈ connected -> chainHeight q <= bestHeight)
     /\ (forall current, current < bestHeight ->
           findBestPeer connected current = (Some best, bestHeight))
     /\ (forall from, from <= bestHeight ->
           from <= batchEnd from bestHeight <= bestHeight /\
           batchEnd from bestHeight + 1 - from <= 50)
     /\ (forall c' net',
           (exists fuel, syncFromPeers fuel connected c net = Some (c', net'))
           <-> SyncRun best bestHeight c net c' net')
     /\ (forall c' net',
           SyncRun best bestHeight c net c' net' ->
           bestHeight <= getChainHeight c' \/
           (getChainHeight c' < bestHeight /\
            exists net0,
              requestBlocks net0 best (getChainHeight c' + 1)
                (batchEnd (getChainHeight c' + 1) bestHeight) = ([], net')))
     /\ (BatchesRaiseHeight best bestHeight ->
         is_Some (syncFromPeers (S (bestHeight - getChainHeight c))
                                connected c net))).
Proof.
  pose proof (findBestPeer_fold connected None (getChainHeight c))
    as (Hle & Hall & Hsel).
  fold (findBestPeer connected (getChainHeight c)) in Hle, Hall, Hsel.
  split.
  - intros bestHeight Hfind. rewrite Hfind in *. simpl in *.
    destruct Hsel as [[_ ->]|(p & [=] & _)].
    split; [done|]. intros fuel. unfold syncFromPeers. by rewrite Hfind.
  - intros best bestHeight Hfind. rewrite Hfind in *. simpl in *.
    destruct Hsel as [[[=] _]|(p & [= <-] & Hin & Hh & Hlt)].
    split; [done|]. split; [|split; [|split; [|split]]].
    + intros current Hcur. rewrite <- Hfind. unfold findBestPeer.
      apply findBestPeer_same. exists best. repeat split; (done || lia).
    + intros from Hfrom. by apply batchEnd_bounds.
    + intros c' net'. unfold syncFromPeers. rewrite Hfind. split.
      * intros [fuel Hrun]. by eapply syncLoop_sound.
      * intros Hrun. by apply syncLoop_complete.
    + intros c' net'. apply SyncRun_stop.
    + intros Hprog. unfold syncFromPeers. rewrite Hfind.
      apply syncLoop_terminates; [done | lia].
Qed.
End BlockSyncFacts.

(** The toy network serves what is asked, so every batch raises the
    height. *)
Lemma toy_batches_raise (best : Peer) (bestHeight : nat) :
  BatchesRaiseHeight (env := toyEnv) best bestHeight.
Proof.
  intros c net blocks net' _ _ Hne. simpl. unfold toyHeight.
  assert (forall bs (c0 : list Block),
            length (applyBlocks c0 bs) = length c0 + length bs) as Hlen.
  { induction bs as [|b bs IH]; intros c0; simpl; [lia|].
    rewrite IH. unfold toyApplyBlock. rewrite length_app. simpl. lia. }
  rewrite Hlen. destruct blocks; [done | simpl; lia].
Qed.

Lemma syncFromPeers_run_witness :
  SyncRun (env := toyEnv) (peerAt 2 "b" 120) 120
          [] 0 (map Raft.blk (seq 1 120)) 3
  /\ is_Some (syncFromPeers (env := toyEnv) 121
                [peerAt 1 "a" 3; peerAt 2 "b" 120; peerAt 3 "c" 120] [] 0).
Proof.
  destruct (syncFromPeers_run (env := toyEnv)
              [peerAt 1 "a" 3; peerAt 2 "b" 120; peerAt 3 "c" 120] [] 0)
    as [_ H].
  destruct (H (peerAt 2 "b" 120) 120) as (_ & _ & _ & Hrun & _ & Hterm);
    [reflexivity|].
  split.
  - apply Hrun. exists 4. vm_compute. reflexivity.
  - apply Hterm. apply toy_batches_raise.
Defined.

(** The same run, executed: three requests (1..50, 51..100, 101..120)
    bring the chain from height 0 to the best peer's 120; with no peer
    ahead nothing is requested. *)
Example syncFromPeers_examples :
  syncFromPeers (env := toyEnv) 4
    [peerAt 1 "a" 3; peerAt 2 "b" 120; peerAt 3 "c" 120] [] 0
    = Some (map Raft.blk (seq 1 120), 3) /\
  syncFromPeers (env := toyEnv) 0
    [peerAt 1 "a" 0] [] 0 = Some ([], 0).
Proof. split; vm_compute; reflexivity. Qed.

End MeshFacts.

Module IdentityFacts.
Import Identity.

Local Open Scope Z_scope.

(** ** Bytes and bits *)

Lemma toUint8_testbit (x i : Z) :
  0 <= i -> Z.testbit (toUint8 x) i = if i <? 8 then Z.testbit x i else false.
Proof.
  intros Hi. unfold toUint8. change 255 with (Z.ones 8).
  rewrite Z.land_ones by lia.
  destruct (Z.ltb_spec i 8).
  - apply Z.mod_pow2_bits_low. lia.
  - apply Z.mod_pow2_bits_high. lia.
Qed.

Lemma small_testbit_high (b n i : Z) :
  0 <= n -> 0 <= b < 2 ^ n -> n <= i -> Z.testbit b i = false.
Proof.
  intros Hn Hb Hi. rewrite <- (Z.mod_small b (2 ^ n)) by lia.
  apply Z.mod_pow2_bits_high. lia.
Qed.

Lemma toUint8_isByte (x : Z) : isByte (toUint8 x).
Proof.
  unfold isByte, toUint8. change 255 with (Z.ones 8).
  rewrite Z.land_ones by lia. apply Z.mod_pos_bound. lia.
Qed.

(** XOR with the same key byte twice, each result stored in a
    [Uint8Array], gives back the byte. *)
Lemma xor_twice (b k : Z) :
  isByte b -> toUint8 (Z.lxor (toUint8 (Z.lxor b k)) k) = b.
Proof.
  intros Hb. apply Z.bits_inj'. intros i Hi.
  rewrite toUint8_testbit by done. destruct (Z.ltb_spec i 8).
  - rewrite Z.lxor_spec, toUint8_testbit by done.
    destruct (Z.ltb_spec i 8); [|lia].
    rewrite Z.lxor_spec. by destruct (Z.testbit b i), (Z.testbit k i).
  - symmetry. apply (small_testbit_high b 8); unfold isByte in Hb; lia.
Qed.

Lemma xorWith_lookup (derived input : Bytes) (i : nat) :
  xorWith derived input !! i =
  (fun b => toUint8 (Z.lxor b (nth (i mod length derived) derived 0)))
    <$> input !! i.
Proof. unfold xorWith. apply list_lookup_imap. Qed.

Lemma xorWith_isByte (derived input : Bytes) :
  Forall isByte (xorWith derived input).
Proof.
  apply Forall_lookup. intros i x. rewrite xorWith_lookup.
  destruct (input !! i); simpl; [|done]. intros [= <-]. apply toUint8_isByte.
Qed.

Lemma xorWith_involutive (derived input : Bytes) :
  Forall isByte input -> xorWith derived (xorWith derived input) = input.
Proof.
  intros Hin. apply list_eq. intros i. rewrite !xorWith_lookup.
  destruct (input !! i) as [b|] eqn:Hb; simpl; [|done].
  f_equal. apply xor_twice. by apply (Forall_lookup_1 _ _ _ _ Hin Hb).
Qed.

(** ** Hexadecimal *)

Lemma hexValue_hexDigit_nat (k : nat) :
  (k < 16)%nat -> hexValue (hexDigit (Z.of_nat k)) = Z.of_nat k.
Proof.
  intros Hk. do 16 (destruct k as [|k]; [reflexivity|]). lia.
Qed.

Lemma hexValue_hexDigit (n : Z) : 0 <= n < 16 -> hexValue (hexDigit n) = n.
Proof.
  intros Hn. rewrite <- (Z2Nat.id n) by lia. apply hexValue_hexDigit_nat. lia.
Qed.

Lemma hexValue_range (c : ascii) : 0 <= hexValue c < 16.
Proof.
  unfold hexValue. generalize (Z.of_N (N_of_ascii c)). intros n.
  repeat match goal with
         | |- context [(?a <=? ?b)] => destruct (Z.leb_spec a b); simpl
         end; lia.
Qed.


(** A byte splits into its two hexadecimal digits and back. *)
Lemma nibbles_join (b : Z) :
  isByte b ->
  0 <= Z.shiftr b 4 < 16 /\ 0 <= Z.land b 15 < 16 /\
  Z.lor (Z.shiftl (Z.shiftr b 4) 4) (Z.land b 15) = b.
Proof.
  unfold isByte. intros Hb. split; [|split].
  - rewrite Z.shiftr_div_pow2 by lia. change (2 ^ 4) with 16.
    split; [apply Z.div_pos; lia | apply Z.div_lt_upper_bound; lia].
  - change 15 with (Z.ones 4). rewrite Z.land_ones by lia.
    apply Z.mod_pos_bound. lia.
  - apply Z.bits_inj'. intros i Hi.
    rewrite Z.lor_spec, Z.land_spec. change 15 with (Z.ones 4).
    destruct (Z.ltb_spec i 4).
    + rewrite Z.shiftl_spec_low by lia. simpl.
      rewrite Z.ones_spec_low by lia. by rewrite andb_true_r.
    + rewrite Z.shiftl_spec by lia. rewrite Z.shiftr_spec by lia.
      replace (i - 4 + 4) with i by lia.
      rewrite Z.ones_spec_high by lia. by rewrite andb_false_r, orb_false_r.
Qed.

(** Two hexadecimal digits make a byte from which each can be read back. *)
Lemma nibbles_split (hi lo : Z) :
  0 <= hi < 16 -> 0 <= lo < 16 ->
  isByte (Z.lor (Z.shiftl hi 4) lo) /\
  Z.shiftr (Z.lor (Z.shiftl hi 4) lo) 4 = hi /\
  Z.land (Z.lor (Z.shiftl hi 4) lo) 15 = lo.
Proof.
  intros Hhi Hlo.
  assert (Z.shiftr (Z.lor (Z.shiftl hi 4) lo) 4 = hi) as Hhigh.
  { rewrite Z.shiftr_lor, Z.shiftr_shiftl_l by lia. simpl.
    rewrite (Z.shiftr_div_pow2 lo) by lia. change (2 ^ 4) with 16.
    rewrite Z.div_small by lia. by rewrite Z.lor_0_r, Z.shiftl_0_r. }
  assert (Z.land (Z.lor (Z.shiftl hi 4) lo) 15 = lo) as Hlow.
  { rewrite Z.land_lor_distr_l. change 15 with (Z.ones 4).
    rewrite !Z.land_ones by lia. rewrite Z.shiftl_mul_pow2 by lia.
    rewrite Z.mod_mul by lia. rewrite Z.mod_small by (change (2 ^ 4) with 16; lia).
    done. }
  split; [|by split].
  set (v := Z.lor (Z.shiftl hi 4) lo) in *.
  assert (0 <= v) as Hv.
  { subst v. apply Z.lor_nonneg. split; [apply Z.shiftl_nonneg|]; lia. }
  rewrite Z.shiftr_div_pow2 in Hhigh by lia.
  change 15 with (Z.ones 4) in Hlow. rewrite Z.land_ones in Hlow by lia.
  change (2 ^ 4) with 16 in *.
  unfold isByte. pose proof (Z.div_mod v 16). lia.
Qed.

Lemma fromHex_toHex (bs : Bytes) : Forall isByte bs -> fromHex (toHex bs) = bs.
Proof.
  induction 1 as [|b bs Hb _ IH]; simpl; [done|].
  destruct (nibbles_join b Hb) as (Hhi & Hlo & Hjoin).
  by rewrite !hexValue_hexDigit, Hjoin, IH.
Qed.

(** Strings two characters at a time, as [fromHex] reads them. *)
Lemma string_pair_ind (P : string -> Prop) :
  P EmptyString ->
  (forall c, P (String c EmptyString)) ->
  (forall hi lo rest, P rest -> P (String hi (String lo rest))) ->
  forall s, P s.
Proof.
  intros H0 H1 H2.
  assert (forall s, P s /\ forall c, P (String c s)) as H.
  { induction s as [|a s [IHs IHc]]; [by split|].
    split; [apply IHc | intros c; by apply H2]. }
  intros s. apply H.
Qed.

Lemma fromHex_isByte (s : string) : Forall isByte (fromHex s).
Proof.
  induction s as [|c|hi lo rest IH] using string_pair_ind; simpl;
    [constructor | constructor |].
  constructor; [|done]. apply nibbles_split; apply hexValue_range.
Qed.


Lemma isLowerHexDigit_hexDigit_nat (k : nat) :
  (k < 16)%nat -> isLowerHexDigit (hexDigit (Z.of_nat k)) = true.
Proof. intros Hk. do 16 (destruct k as [|k]; [reflexivity|]). lia. Qed.

Lemma isLowerHexDigit_hexDigit (n : Z) :
  0 <= n < 16 -> isLowerHexDigit (hexDigit n) = true.
Proof.
  intros Hn. rewrite <- (Z2Nat.id n) by lia.
  apply isLowerHexDigit_hexDigit_nat. lia.
Qed.

Lemma toHex_isHexString (bs : Bytes) :
  Forall isByte bs -> isHexString (toHex bs) = true.
Proof.
  induction 1 as [|b bs Hb _ IH]; simpl; [done|].
  destruct (nibbles_join b Hb) as (Hhi & Hlo & _).
  by rewrite !isLowerHexDigit_hexDigit, IH.
Qed.




(** What the round trip does to any key pair: the private key comes back
    as the lower-case hexadecimal form of the bytes it decodes to.  So
    the key pair comes back unchanged only if its private key is such a
    string. *)
Lemma keystore_roundtrip_normalises (sha256 : Bytes -> Bytes)
    (randomSalt : Bytes) (keyPair : KeyPair) (password org nm : string) :
  Forall isByte randomSalt ->
  decryptKeystore sha256
    (encryptKeystore sha256 randomSalt keyPair password org nm) password
  = mkKeyPair (publicKey keyPair) (toHex (fromHex (privateKey keyPair)))
  /\ (decryptKeystore sha256
        (encryptKeystore sha256 randomSalt keyPair password org nm) password
      = keyPair -> isHexString (privateKey keyPair) = true).
Proof.
  intros Hsalt.
  assert (decryptKeystore sha256
            (encryptKeystore sha256 randomSalt keyPair password org nm) password
          = mkKeyPair (publicKey keyPair) (toHex (fromHex (privateKey keyPair))))
    as Heq.
  { unfold decryptKeystore, encryptKeystore. simpl.
    rewrite (fromHex_toHex randomSalt Hsalt).
    rewrite (fromHex_toHex (xorWith _ _)) by apply xorWith_isByte.
    by rewrite xorWith_involutive by apply fromHex_isByte. }
  split; [done|]. rewrite Heq. intros <-. simpl.
  apply toHex_isHexString, fromHex_isByte.
Qed.

(** The keystore written for the example key pair: the private key is
    stored XOR-ed with the derived key, the salt in hex. *)
Example keystore_example :
  encryptKeystore toyDigest toySalt toyKeyPair "" "my-org" "node-1" =
  mkKeystore 1 "3a7f1b2c" "04540217c652b34c" "010203fa0010204080ff090807060504"
             "my-org" "node-1".
Proof. vm_compute. reflexivity. Qed.

End IdentityFacts.

(* ===================================================================== *)
(** * Further properties of the modelled code                             *)
(* ===================================================================== *)

Module RaftExtraFacts.
Import Raft RaftExtra RaftFacts.

(** ** Applying and committing *)

Lemma applyCommitted_caught_up (s : RaftNode) :
  commitIndex s <= lastApplied s -> applyCommitted s = s.
Proof.
  intros Hle. rewrite applyCommitted_eq.
  replace (commitIndex s - lastApplied s) with 0 by lia.
  destruct s; simpl. by rewrite app_nil_r, Nat.add_0_r.
Qed.

Lemma lastApplied_after_apply (s : RaftNode) :
  commitIndex s <= lastApplied (applyCommitted s).
Proof. rewrite applyCommitted_eq. destruct s; simpl. lia. Qed.

(** X1.  Applying committed entries a second time does nothing, and so
    does applying them on a node that is already caught up: no block is
    handed to the callback twice. *)
Theorem applyCommitted_never_reapplies (s : RaftNode) :
  applyCommitted (applyCommitted s) = applyCommitted s
  /\ (commitIndex s <= lastApplied s -> applyCommitted s = s)
  /\ delivered (applyCommitted (applyCommitted s)) = delivered (applyCommitted s).
Proof.
  assert (applyCommitted (applyCommitted s) = applyCommitted s) as Hagain.
  { apply applyCommitted_caught_up. rewrite commitIndex_applyCommitted.
    apply lastApplied_after_apply. }
  split; [exact Hagain|]. split; [apply applyCommitted_caught_up|].
  by rewrite Hagain.
Qed.

Lemma applyCommitted_never_reapplies_witness :
  applyCommitted (set_lastApplied 2 (set_commitIndex 2 leader3))
  = set_lastApplied 2 (set_commitIndex 2 leader3).
Proof.
  apply (applyCommitted_never_reapplies (set_lastApplied 2 (set_commitIndex 2 leader3))).
  simpl. lia.
Defined.

(** What [applyCommitted] leaves alone. *)
Lemma applyCommitted_keeps (s : RaftNode) :
  raftLog (applyCommitted s) = raftLog s /\
  currentTerm (applyCommitted s) = currentTerm s /\
  role (applyCommitted s) = role s /\
  votedFor (applyCommitted s) = votedFor s /\
  matchIndex (applyCommitted s) = matchIndex s /\
  knownNodeIds (applyCommitted s) = knownNodeIds s /\
  nodeId (applyCommitted s) = nodeId s /\
  outbox (applyCommitted s) = outbox s.
Proof. rewrite applyCommitted_eq. by destruct s. Qed.

Lemma applyCommitted_grows (s : RaftNode) :
  lastApplied s <= lastApplied (applyCommitted s) /\
  exists more, delivered (applyCommitted s) = delivered s ++ more.
Proof.
  rewrite applyCommitted_eq. destruct s; simpl. split; [lia|]. eauto.
Qed.

(** The outcome of [advanceCommitIndex], by cases on the scan. *)
Lemma advanceCommitIndex_cases (s : RaftNode) :
  advanceCommitIndex s = s \/
  exists m,
    role s = Leader /\
    scanCommit s (getLastIndex (raftLog s)) = Some m /\
    advanceCommitIndex s = applyCommitted (set_commitIndex m s).
Proof.
  unfold advanceCommitIndex. destruct (role s) eqn:Hr; try by left.
  destruct (scanCommit s _) as [m|] eqn:Hscan; [|by left].
  right. by exists m.
Qed.

(** X2.  [advanceCommitIndex] only moves forward: the log, the term, the
    role, the vote and the match indices are untouched, nothing is sent,
    the commit index and [lastApplied] never decrease, blocks already
    handed to the callback stay (new ones are added after them), and a
    commit index within the log stays within the log. *)
Theorem advanceCommitIndex_only_forward (s : RaftNode) :
  raftLog (advanceCommitIndex s) = raftLog s
  /\ currentTerm (advanceCommitIndex s) = currentTerm s
  /\ role (advanceCommitIndex s) = role s
  /\ votedFor (advanceCommitIndex s) = votedFor s
  /\ matchIndex (advanceCommitIndex s) = matchIndex s
  /\ outbox (advanceCommitIndex s) = outbox s
  /\ commitIndex s <= commitIndex (advanceCommitIndex s)
  /\ lastApplied s <= lastApplied (advanceCommitIndex s)
  /\ (exists more, delivered (advanceCommitIndex s) = delivered s ++ more)
  /\ (commitIndex s <= getLastIndex (raftLog s) ->
      commitIndex (advanceCommitIndex s) <= getLastIndex (raftLog s)).
Proof.
  destruct (advanceCommitIndex_cases s) as [->|(m & Hr & Hscan & ->)].
  - repeat split; try done. exists []. by rewrite app_nil_r.
  - destruct (scanCommit_Some _ _ _ Hscan) as (Hm & _ & _).
    destruct (applyCommitted_keeps (set_commitIndex m s))
      as (-> & -> & -> & -> & -> & _ & _ & ->).
    destruct (applyCommitted_grows (set_commitIndex m s)) as (Hla & more & ->).
    rewrite commitIndex_applyCommitted.
    destruct s; simpl in *. repeat split; try done; try lia. by exists more.
Qed.

Lemma advanceCommitIndex_only_forward_witness :
  commitIndex leader3 <= commitIndex (advanceCommitIndex leader3) /\
  commitIndex (advanceCommitIndex leader3) <= getLastIndex (raftLog leader3).
Proof.
  destruct (advanceCommitIndex_only_forward leader3)
    as (_ & _ & _ & _ & _ & _ & Hci & _ & _ & Hlast).
  split; [exact Hci|]. apply Hlast. simpl. lia.
Defined.

Lemma scanCommit_None_intro (s : RaftNode) (n : nat) :
  (forall k, commitIndex s < k <= n -> commitsAt s k = false) ->
  scanCommit s n = None.
Proof.
  induction n as [|n IH]; intros Hnone; simpl; [done|].
  destruct (Nat.ltb_spec (commitIndex s) (S n)); [|done].
  rewrite Hnone by lia. apply IH. intros k Hk. apply Hnone. lia.
Qed.

(** The commit test looks only at the log, the term and the match
    indices, none of which committing and applying change. *)
Lemma commitsAt_after_commit (s : RaftNode) (m k : nat) :
  commitsAt (applyCommitted (set_commitIndex m s)) k = commitsAt s k.
Proof. rewrite applyCommitted_eq. by destruct s. Qed.

(** X3.  Calling [advanceCommitIndex] again without new acknowledgements
    changes nothing: the first call already committed the highest index
    that qualifies. *)
Theorem advanceCommitIndex_idempotent (s : RaftNode) :
  advanceCommitIndex (advanceCommitIndex s) = advanceCommitIndex s.
Proof.
  destruct (advanceCommitIndex_cases s) as [Hsame|(m & Hr & Hscan & Heq)];
    [by rewrite !Hsame|].
  rewrite Heq. unfold advanceCommitIndex at 1.
  destruct (applyCommitted_keeps (set_commitIndex m s))
    as (Hlog & _ & Hrole & _).
  rewrite Hrole, Hlog.
  replace (role (set_commitIndex m s)) with Leader by (by destruct s).
  replace (raftLog (set_commitIndex m s)) with (raftLog s) by (by destruct s).
  rewrite scanCommit_None_intro; [done|].
  intros k Hk. rewrite commitsAt_after_commit.
  destruct (scanCommit_Some _ _ _ Hscan) as (_ & _ & Habove).
  apply Habove. rewrite commitIndex_applyCommitted in Hk.
  destruct s; simpl in *. lia.
Qed.

(** ** Leadership *)

(** X4.  A node that is not Leader neither proposes nor commits, and
    [stepDown] puts any node in that position: after it, [proposeBlock]
    and [advanceCommitIndex] leave the node exactly as it is, with the new
    term adopted and the vote cleared. *)
Theorem stepDown_ends_leadership (s : RaftNode) (newTerm : nat) (b : Block) :
  proposeBlock b (stepDown newTerm s) = stepDown newTerm s
  /\ advanceCommitIndex (stepDown newTerm s) = stepDown newTerm s
  /\ currentTerm (stepDown newTerm s) = newTerm
  /\ votedFor (stepDown newTerm s) = None
  /\ raftLog (stepDown newTerm s) = raftLog s
  /\ commitIndex (stepDown newTerm s) = commitIndex s
  /\ (role s <> Leader -> proposeBlock b s = s /\ advanceCommitIndex s = s).
Proof.
  repeat split; try by destruct s.
  - unfold proposeBlock. by destruct (role s).
  - unfold advanceCommitIndex. by destruct (role s).
Qed.

Lemma stepDown_ends_leadership_witness :
  proposeBlock (blk 4) (set_role Follower leader3) = set_role Follower leader3.
Proof.
  apply (stepDown_ends_leadership (set_role Follower leader3) 0 (blk 4)).
  discriminate.
Defined.

(** ** Proposing *)

Lemma sendHeartbeats_keeps (s : RaftNode) :
  raftLog (sendHeartbeats s) = raftLog s /\
  currentTerm (sendHeartbeats s) = currentTerm s /\
  role (sendHeartbeats s) = role s /\
  matchIndex (sendHeartbeats s) = matchIndex s /\
  commitIndex (sendHeartbeats s) = commitIndex s /\
  lastApplied (sendHeartbeats s) = lastApplied s.
Proof. by destruct s. Qed.

Lemma advanceCommitIndex_log (s : RaftNode) :
  raftLog (advanceCommitIndex s) = raftLog s /\
  currentTerm (advanceCommitIndex s) = currentTerm s /\
  role (advanceCommitIndex s) = role s /\
  matchIndex (advanceCommitIndex s) = matchIndex s /\
  commitIndex s <= commitIndex (advanceCommitIndex s).
Proof.
  destruct (advanceCommitIndex_cases s) as [->|(m & Hr & Hscan & ->)]; [done|].
  destruct (scanCommit_Some _ _ _ Hscan) as (Hm & _ & _).
  destruct (applyCommitted_keeps (set_commitIndex m s))
    as (-> & -> & -> & _ & -> & _).
  rewrite commitIndex_applyCommitted. destruct s; simpl in *.
  repeat split; (done || lia).
Qed.

Lemma wellIndexed_append (l : RaftLog) (t : nat) (b : Block) :
  wellIndexed l -> wellIndexed (append l (mkEntry t (getLastIndex l + 1) b)).
Proof.
  intros Hwf i e. unfold append, getLastIndex.
  destruct (decide (i < length l)) as [Hlt|Hge].
  - rewrite lookup_app_l by done. apply Hwf.
  - rewrite lookup_app_r by lia.
    destruct (i - length l) as [|j] eqn:Hj; simpl; [|by destruct j].
    intros [= <-]. simpl. lia.
Qed.

(** X5.  On a leader [proposeBlock] appends exactly one entry: the block
    with the current term and, as index, the new last position.  Entries
    already in the log keep their place (the log is append-only here), a
    log whose entries carry their positions keeps that property, the
    leader records the new index as its own match index, and term, role
    and commit index do not go back. *)
Theorem proposeBlock_appends_one (s : RaftNode) (b : Block) :
  role s = Leader ->
  raftLog (proposeBlock b s) =
    raftLog s ++ [mkEntry (currentTerm s) (S (getLastIndex (raftLog s))) b]
  /\ getLastIndex (raftLog (proposeBlock b s)) = S (getLastIndex (raftLog s))
  /\ (forall i e, getEntry (raftLog s) i = Some e ->
                  getEntry (raftLog (proposeBlock b s)) i = Some e)
  /\ (wellIndexed (raftLog s) -> wellIndexed (raftLog (proposeBlock b s)))
  /\ matchIndex (proposeBlock b s) !! nodeId s
     = Some (getLastIndex (raftLog (proposeBlock b s)))
  /\ currentTerm (proposeBlock b s) = currentTerm s
  /\ role (proposeBlock b s) = Leader
  /\ commitIndex s <= commitIndex (proposeBlock b s).
Proof.
  intros Hrole. unfold proposeBlock. rewrite Hrole.
  set (entry := mkEntry (currentTerm s) (getLastIndex (raftLog s) + 1) b).
  set (s2 := set_matchIndex _ _).
  destruct (advanceCommitIndex_log (sendHeartbeats s2)) as (-> & -> & -> & -> & Hci).
  destruct (sendHeartbeats_keeps s2) as (Hl & Ht & Hr & Hm & Hc & _).
  rewrite Hc in Hci. rewrite Hl, Ht, Hr, Hm.
  assert (raftLog s2 = append (raftLog s) entry) as -> by (by destruct s).
  assert (entry = mkEntry (currentTerm s) (S (getLastIndex (raftLog s))) b) as He
    by (unfold entry; f_equal; lia).
  split; [by rewrite <- He|]. split; [apply getLastIndex_append|].
  split; [|split; [|split; [|split; [|split]]]].
  - intros i e Hi. destruct i as [|i]; [done|]. simpl in *.
    unfold append. by apply lookup_app_l_Some.
  - apply wellIndexed_append.
  - rewrite getLastIndex_append. subst s2 entry. destruct s; simpl.
    rewrite lookup_insert_eq. f_equal. lia.
  - by destruct s.
  - by destruct s.
  - replace (commitIndex s) with (commitIndex s2) by (by destruct s). done.
Qed.

Lemma proposeBlock_appends_one_witness :
  raftLog (proposeBlock (blk 4) leader3)
  = raftLog leader3 ++ [mkEntry 2 4 (blk 4)].
Proof.
  apply (proposeBlock_appends_one leader3 (blk 4)). reflexivity.
Defined.

(** ** Majorities *)

Lemma majority_twice (s : RaftNode) :
  length (allNodeIds s) < majority s + majority s.
Proof.
  unfold majority. pose proof (Nat.div_mod_eq (length (allNodeIds s)) 2).
  pose proof (Nat.mod_upper_bound (length (allNodeIds s)) 2). lia.
Qed.

(** Two duplicate-free selections from a duplicate-free list that
    together outnumber it share an element. *)
Lemma overlapping_selections (all a b : list string) :
  NoDup a -> NoDup b ->
  (forall x, x ∈ a -> x ∈ all) -> (forall x, x ∈ b -> x ∈ all) ->
  length all < length a + length b ->
  exists x, x ∈ a /\ x ∈ b.
Proof.
  intros Ha Hb Hina Hinb Hlen.
  destruct (decide (Exists (fun x => x ∈ b) a)) as [Hex|Hno].
  - apply Exists_exists in Hex. exact Hex.
  - exfalso. apply not_Exists_Forall in Hno; [|intros x; apply _].
    rewrite Forall_forall in Hno.
    assert (NoDup (a ++ b)) as Hnd.
    { apply NoDup_app. split; [done|]. split; [|done]. intros x Hx. by apply Hno. }
    assert (a ++ b ⊆+ all) as Hsub.
    { apply NoDup_submseteq; [done|]. intros x [?|?]%elem_of_app; eauto. }
    apply submseteq_length in Hsub. rewrite length_app in Hsub. lia.
Qed.

(** X6.  Majorities overlap: with no voter listed twice, any two sets of
    replicas that each reach [floor(N/2)+1] of the same N voters have a
    voter in common. *)
Theorem majorities_intersect (s s' : RaftNode) (n n' : nat) :
  NoDup (allNodeIds s) ->
  allNodeIds s' = allNodeIds s ->
  majority s <= length (replicas s n) ->
  majority s' <= length (replicas s' n') ->
  exists id, id ∈ replicas s n /\ id ∈ replicas s' n'.
Proof.
  intros Hnd Hall Hm Hm'.
  assert (majority s' = majority s) as Hmaj by (unfold majority; by rewrite Hall).
  apply (overlapping_selections (allNodeIds s)).
  - by apply NoDup_filter.
  - unfold replicas. rewrite Hall. by apply NoDup_filter.
  - unfold replicas. intros x Hx. by apply list_elem_of_filter in Hx as [_ ?].
  - unfold replicas. rewrite Hall. intros x Hx.
    by apply list_elem_of_filter in Hx as [_ ?].
  - pose proof (majority_twice s). lia.
Qed.

Lemma majorities_intersect_witness :
  exists id,
    id ∈ replicas leader3 2 /\
    id ∈ replicas (set_matchIndex (<["n3" := 3]> ∅) leader3) 3.
Proof.
  apply (majorities_intersect leader3 (set_matchIndex (<["n3" := 3]> ∅) leader3) 2 3).
  - apply (bool_decide_unpack _). vm_compute. exact I.
  - reflexivity.
  - vm_compute. lia.
  - vm_compute. lia.
Defined.

(** ** Tolerated failures *)

Lemma replicas_laggards (s : RaftNode) (n : nat) :
  length (replicas s n) + length (laggards s n) = length (allNodeIds s).
Proof.
  unfold replicas, laggards.
  induction (allNodeIds s) as [|id ids IH]; simpl; [done|].
  rewrite !filter_cons. repeat case_decide; simpl; lia.
Qed.

(** X7.  A minority of lagging voters does not stop a commit: on a leader,
    if index [n] (above the commit index) holds an entry of the current
    term and at most [floor((N-1)/2)] of the N voters have a match index
    below [n], then after [advanceCommitIndex] the commit index is at
    least [n]. *)
Theorem commit_despite_minority_lag (s : RaftNode) (n : nat) (entry : RaftLogEntry) :
  role s = Leader ->
  commitIndex s < n ->
  getEntry (raftLog s) n = Some entry ->
  term entry = currentTerm s ->
  length (laggards s n) <= (length (allNodeIds s) - 1) / 2 ->
  n <= commitIndex (advanceCommitIndex s).
Proof.
  intros Hrole Hci Hentry Hterm Hlag.
  assert (commitsAt s n = true) as Hcommit.
  { apply commitsAt_iff. exists entry. repeat split; [done | done |].
    pose proof (replicas_laggards s n) as Hsum.
    assert (1 <= length (allNodeIds s)) as Hpos
      by (unfold allNodeIds; rewrite length_app; simpl; lia).
    pose proof (Nat.div_mod_eq (length (allNodeIds s)) 2).
    pose proof (Nat.mod_upper_bound (length (allNodeIds s)) 2).
    pose proof (Nat.div_mod_eq (length (allNodeIds s) - 1) 2).
    pose proof (Nat.mod_upper_bound (length (allNodeIds s) - 1) 2).
    lia. }
  pose proof (getEntry_Some_range _ _ _ Hentry) as [_ Hlast].
  unfold advanceCommitIndex. rewrite Hrole.
  destruct (scanCommit s (getLastIndex (raftLog s))) as [m|] eqn:Hscan.
  - rewrite commitIndex_applyCommitted.
    destruct (scanCommit_Some _ _ _ Hscan) as (_ & _ & Habove).
    replace (commitIndex (set_commitIndex m s)) with m by (by destruct s).
    destruct (decide (n <= m)) as [|Hlt]; [done|].
    rewrite Habove in Hcommit by lia. discriminate.
  - rewrite (scanCommit_None _ _ Hscan n) in Hcommit by lia. discriminate.
Qed.

Lemma commit_despite_minority_lag_witness :
  2 <= commitIndex (advanceCommitIndex leader3).
Proof.
  apply (commit_despite_minority_lag leader3 2 (mkEntry 2 2 (blk 2)));
    try reflexivity; vm_compute; lia.
Defined.

(** ** Votes *)

Lemma handleRequestVote_state (s : RaftNode) (cterm : nat) (cand : string)
    (li lt : nat) :
  (handleRequestVote s cterm cand li lt).2 = true ->
  currentTerm (handleRequestVote s cterm cand li lt).1 = cterm /\
  votedFor (handleRequestVote s cterm cand li lt).1 = Some cand /\
  raftLog (handleRequestVote s cterm cand li lt).1 = raftLog s.
Proof.
  unfold handleRequestVote. cbn [fst snd].
  set (s1 := if currentTerm s <? cterm then stepDown cterm s else s).
  intros Hg. rewrite Hg.
  assert (currentTerm s1 = cterm) as Ht.
  { unfold voteDecision in Hg. apply andb_true_iff in Hg as [Hg _].
    apply andb_true_iff in Hg as [Hle%Nat.leb_le _]. subst s1.
    destruct (Nat.ltb_spec (currentTerm s) cterm); [by destruct s | lia]. }
  assert (raftLog s1 = raftLog s) as Hl
    by (subst s1; destruct (currentTerm s <? cterm); by destruct s).
  destruct s1; simpl in *. by subst.
Qed.

(** X8.  One vote per term: once the handler has granted its vote to a
    candidate in a term, a request from any other candidate in that term
    is refused, whatever its log, while the same candidate asking again
    is granted again; the voter's term is then the candidate's, and it
    never goes down. *)
Theorem one_vote_per_term (s : RaftNode) (cterm : nat) (cand : string)
    (li lt : nat) :
  (handleRequestVote s cterm cand li lt).2 = true ->
  (forall other li' lt',
     other <> cand ->
     (handleRequestVote (handleRequestVote s cterm cand li lt).1
                        cterm other li' lt').2 = false)
  /\ (handleRequestVote (handleRequestVote s cterm cand li lt).1
                        cterm cand li lt).2 = true
  /\ currentTerm (handleRequestVote s cterm cand li lt).1 = cterm
  /\ currentTerm s <= cterm.
Proof.
  intros Hg. destruct (handleRequestVote_state _ _ _ _ _ Hg) as (Ht & Hv & Hl).
  set (s1 := (handleRequestVote s cterm cand li lt).1) in *.
  assert (currentTerm s <= cterm) as Hle.
  { unfold handleRequestVote, voteDecision in Hg. cbn [snd] in Hg.
    apply andb_true_iff in Hg as [Hg _].
    apply andb_true_iff in Hg as [Hc%Nat.leb_le _].
    destruct (Nat.ltb_spec (currentTerm s) cterm); [lia | done]. }
  assert (isLogUpToDate s1 li lt = true) as Hup.
  { unfold handleRequestVote, voteDecision in Hg. cbn [snd] in Hg.
    apply andb_true_iff in Hg as [_ Hup].
    unfold isLogUpToDate in *. rewrite Hl.
    destruct (currentTerm s <? cterm); [|done]. by destruct s. }
  split; [|split; [|split]]; try done.
  - intros other li' lt' Hne. unfold handleRequestVote, voteDecision. cbn [snd].
    replace (if currentTerm s1 <? cterm then stepDown cterm s1 else s1) with s1
      by (by rewrite Ht, Nat.ltb_irrefl).
    rewrite Ht, Hv, Nat.leb_refl.
    rewrite bool_decide_eq_false_2 by congruence. done.
  - unfold handleRequestVote, voteDecision. cbn [snd].
    replace (if currentTerm s1 <? cterm then stepDown cterm s1 else s1) with s1
      by (by rewrite Ht, Nat.ltb_irrefl).
    rewrite Ht, Hv, Nat.leb_refl, Hup.
    by rewrite bool_decide_eq_true_2.
Qed.

Lemma one_vote_per_term_witness :
  (handleRequestVote (handleRequestVote leader3 3 "n2" 3 2).1 3 "n3" 9 9).2 = false.
Proof.
  apply (one_vote_per_term leader3 3 "n2" 3 2); [reflexivity | discriminate].
Defined.

End RaftExtraFacts.

Module GossipFacts.
Import Mesh Gossip MeshFacts.
#[local] Set Warnings "-clear-no-such-hyp".

(** ** Peer lists *)

Lemma peerValues_elem (pm : PeerManager) (p : Peer) :
  p ∈ peerValues pm <-> exists k, peers pm !! k = Some p.
Proof.
  unfold peerValues. rewrite list_elem_of_fmap. split.
  - intros ([k p'] & -> & Hin). exists k. by apply elem_of_map_to_list.
  - intros [k Hk]. exists (k, p). split; [done|]. by apply elem_of_map_to_list.
Qed.

Lemma isConnected_iff (p : Peer) : isConnected p = true <-> p_status p = Connected.
Proof. unfold isConnected. by destruct (p_status p). Qed.

Lemma peerListPayload_elem (pm : PeerManager) (peer : Peer) (info : PeerInfo) :
  info ∈ peerListPayload pm peer <->
  exists k p,
    peers pm !! k = Some p /\ p_nodeId p <> p_nodeId peer /\
    p_status p = Connected /\ info = infoOf p.
Proof.
  unfold peerListPayload. rewrite list_elem_of_fmap. split.
  - intros (p & -> & Hin). apply list_elem_of_filter in Hin as [Hp Hin].
    apply peerValues_elem in Hin as [k Hk].
    apply andb_prop_elim in Hp as [Hne Hc].
    exists k, p. split; [done|]. split; [|split; [|done]].
    + intros Heq. rewrite Heq, String.eqb_refl in Hne. done.
    + by apply isConnected_iff, Is_true_true.
  - intros (k & p & Hk & Hne & Hc & ->). exists p. split; [done|].
    apply list_elem_of_filter. split; [|apply peerValues_elem; eauto].
    apply andb_prop_intro. split.
    + apply negb_prop_intro. intros Heq%Is_true_true%String.eqb_eq. done.
    + by apply Is_true_true, isConnected_iff.
Qed.

(** X9.  The peer list sent to a peer holds exactly the connected peers of
    the map other than that peer, with their id, public key, address and
    organisation: the receiver is never told about itself, and a peer that
    is not connected is never advertised.  The list goes out on the
    receiver's connection under the local node's id. *)
Theorem sharePeerList_contents (pm : PeerManager) (peer : Peer) :
  sharePeerList pm peer = (conn peer, PeerListMsg (localId pm) (peerListPayload pm peer))
  /\ (forall info,
       info ∈ peerListPayload pm peer <->
       exists k p,
         peers pm !! k = Some p /\ p_nodeId p <> p_nodeId peer /\
         p_status p = Connected /\ info = infoOf p)
  /\ (forall info, info ∈ peerListPayload pm peer -> i_nodeId info <> p_nodeId peer)
  /\ length (peerListPayload pm peer) <= size (peers pm).
Proof.
  split; [done|]. split; [apply peerListPayload_elem|]. split.
  - intros info (k & p & _ & Hne & _ & ->)%peerListPayload_elem. done.
  - unfold peerListPayload, peerValues. rewrite length_map.
    etrans; [apply length_filter|]. rewrite length_map.
    by rewrite length_map_to_list.
Qed.

(** Of the three peers of [meshABC], "a" is told about "b" only: "c" is
    not connected. *)
Example sharePeerList_example :
  peerListPayload meshABC (peerAt 1 "a" 5)
  = [mkPeerInfo "b" "pkb" (Some "ws://b:9000") "org"].
Proof. vm_compute. reflexivity. Qed.

Lemma dialable_elem (p : PeerInfo) (a : string) :
  a ∈ dialable p <-> i_address p = Some a /\ a <> ""%string.
Proof.
  unfold dialable. destruct (i_address p) as [a'|].
  - destruct (String.eqb_spec a' "") as [->|Hne].
    + split; [by intros ?%elem_of_nil | by intros [[= <-] ?]].
    + rewrite list_elem_of_singleton. split; [by intros -> | by intros [[= <-] _]].
  - split; [by intros ?%elem_of_nil | by intros [? _]].
Qed.

Lemma handlePeerList_elem (pm : PeerManager) (payload : list PeerInfo) (a : string) :
  a ∈ handlePeerList pm payload <->
  exists p,
    p ∈ payload /\ i_nodeId p <> localId pm /\
    peers pm !! i_nodeId p = None /\ i_address p = Some a /\ a <> ""%string.
Proof.
  unfold handlePeerList. rewrite list_elem_of_In, in_flat_map. split.
  - intros (p & Hin%list_elem_of_In & Ha). exists p. split; [done|].
    destruct (String.eqb_spec (i_nodeId p) (localId pm)); [done|].
    destruct (bool_decide _) eqn:Hknown; [done|].
    apply bool_decide_eq_false in Hknown.
    apply list_elem_of_In, dialable_elem in Ha as [Ha Hne].
    repeat split; [done | | done | done].
    destruct (peers pm !! i_nodeId p); [|done]. exfalso. apply Hknown. eauto.
  - intros (p & Hin & Hself & Hnew & Ha & Hne). exists p.
    split; [by apply list_elem_of_In|].
    destruct (String.eqb_spec (i_nodeId p) (localId pm)); [done|].
    rewrite bool_decide_eq_false_2 by (rewrite Hnew; by intros [? ?]).
    by apply list_elem_of_In, dialable_elem.
Qed.

(** X10.  On a peer list the node dials exactly the entries that are not
    itself, not already in its peer map, and carry a non-empty address:
    it never connects to itself or to a peer it knows, entries without an
    address are skipped, and a list of known peers dials nobody. *)
Theorem handlePeerList_dials_unknown (pm : PeerManager) (payload : list PeerInfo) :
  (forall a,
     a ∈ handlePeerList pm payload <->
     exists p,
       p ∈ payload /\ i_nodeId p <> localId pm /\
       peers pm !! i_nodeId p = None /\ i_address p = Some a /\ a <> ""%string)
  /\ ((forall p, p ∈ payload ->
         i_nodeId p = localId pm \/ is_Some (peers pm !! i_nodeId p)) ->
      handlePeerList pm payload = [])
  /\ length (handlePeerList pm payload) <= length payload.
Proof.
  split; [intros a; apply handlePeerList_elem|]. split.
  - intros Hall. destruct (handlePeerList pm payload) as [|a rest] eqn:Hd; [done|].
    assert (a ∈ handlePeerList pm payload) as Ha by (rewrite Hd; by left).
    apply handlePeerList_elem in Ha as (p & Hin & Hself & Hnew & _).
    destruct (Hall p Hin) as [?|[? Hk]]; [done | congruence].
  - unfold handlePeerList. induction payload as [|p payload IH]; simpl; [done|].
    rewrite length_app.
    assert (length (if String.eqb (i_nodeId p) (localId pm) then []
                    else if bool_decide (is_Some (peers pm !! i_nodeId p)) then []
                         else dialable p) <= 1) as H1.
    { destruct (String.eqb _ _); [simpl; lia|].
      destruct (bool_decide _); [simpl; lia|].
      unfold dialable. destruct (i_address p) as [a|]; [|simpl; lia].
      destruct (String.eqb a ""); simpl; lia. }
    lia.
Qed.

Lemma handlePeerList_dials_unknown_witness :
  handlePeerList meshB
    [mkPeerInfo "me" "pkme" (Some "ws://me:9000") "org";
     mkPeerInfo "b" "pkb" (Some "ws://b:9000") "org"] = [].
Proof.
  apply (handlePeerList_dials_unknown meshB).
  intros p Hp. apply list_elem_of_In in Hp. simpl in Hp.
  destruct Hp as [<-|[<-|[]]]; [right | left].
  - simpl. by eexists.
  - reflexivity.
Defined.

(** X11.  Discovery end to end: when node B processes the list node A
    built for it, B dials exactly the addresses of A's connected peers
    that are neither B (under the id A knows it by, or B's own id) nor
    already known to B. *)
Theorem gossip_discovers_unknown_peers (pmA pmB : PeerManager) (peerB : Peer)
    (a : string) :
  a ∈ handlePeerList pmB (peerListPayload pmA peerB) <->
  exists k p,
    peers pmA !! k = Some p /\ p_status p = Connected /\
    p_nodeId p <> p_nodeId peerB /\ p_nodeId p <> localId pmB /\
    peers pmB !! p_nodeId p = None /\
    p_address p = Some a /\ a <> ""%string.
Proof.
  rewrite handlePeerList_elem. split.
  - intros (info & (k & p & Hk & Hne & Hc & ->)%peerListPayload_elem
            & Hself & Hnew & Ha & Hne').
    exists k, p. done.
  - intros (k & p & Hk & Hc & Hne & Hself & Hnew & Ha & Hne').
    exists (infoOf p). split; [|done].
    apply peerListPayload_elem. by exists k, p.
Qed.

(** Node "b", which knows only "me", learns of "a" from the list "me"
    sends it. *)
Example gossip_example :
  handlePeerList meshB (peerListPayload meshABC (peerAt 2 "b" 7))
  = ["ws://a:9000"%string].
Proof. vm_compute. reflexivity. Qed.

(** ** Delivery *)

Lemma sendTo_cases (pm : PeerManager) (id : string) (msg : WireMessage) :
  (exists p, peers pm !! id = Some p /\ p_status p = Connected /\
             sendTo pm id msg = [(conn p, msg)])
  \/ ((forall p, peers pm !! id = Some p -> p_status p <> Connected) /\
      sendTo pm id msg = []).
Proof.
  unfold sendTo. destruct (peers pm !! id) as [p|] eqn:Hp.
  - destruct (isConnected p) eqn:Hc.
    + left. exists p. by rewrite isConnected_iff in Hc.
    + right. split; [|done]. intros p' [= <-] Hc'%isConnected_iff. congruence.
  - right. split; [|done]. by intros p' [=].
Qed.

Lemma broadcast_as_sendTo_on (pm : PeerManager) (msg : WireMessage)
    (l : list (string * Peer)) :
  (forall k p, (k, p) ∈ l -> peers pm !! k = Some p) ->
  map (fun p => (conn p, msg)) (filter (fun p => isConnected p) (map snd l))
  = flat_map (fun kp => sendTo pm kp.1 msg) l.
Proof.
  induction l as [|[k p] l IH]; intros Hl; simpl; [done|].
  rewrite filter_cons. unfold sendTo at 1. simpl.
  rewrite (Hl k p) by (by left).
  rewrite <- IH by (intros; apply Hl; by right).
  destruct (isConnected p) eqn:Hc; case_decide as Hd; simpl; done.
Qed.

(** X12.  [broadcast] reaches every connected peer of the map once, on that
    peer's connection, and nobody else; it sends exactly what [sendTo]
    would send when called for each id of the map in turn.  [sendTo] to an
    id that is not in the map, or whose peer is not connected, sends
    nothing, and it never sends more than one message. *)
Theorem broadcast_reaches_connected (pm : PeerManager) (msg : WireMessage) :
  (forall c m,
     (c, m) ∈ broadcast pm msg <->
     m = msg /\ exists k p, peers pm !! k = Some p /\
                            p_status p = Connected /\ conn p = c)
  /\ broadcast pm msg
     = flat_map (fun kp => sendTo pm kp.1 msg) (map_to_list (peers pm))
  /\ (forall id, peers pm !! id = None -> sendTo pm id msg = [])
  /\ (forall id p, peers pm !! id = Some p -> p_status p <> Connected ->
                   sendTo pm id msg = [])
  /\ (forall id, length (sendTo pm id msg) <= 1).
Proof.
  split; [|split; [|split; [|split]]].
  - intros c m. unfold broadcast. rewrite list_elem_of_fmap. split.
    + intros (p & [= -> ->] & [Hc Hin]%list_elem_of_filter). split; [done|].
      apply peerValues_elem in Hin as [k Hk]. exists k, p.
      split; [done|]. split; [|done]. by apply isConnected_iff, Is_true_true.
    + intros (-> & k & p & Hk & Hc & <-). exists p. split; [done|].
      apply list_elem_of_filter. split; [|apply peerValues_elem; eauto].
      by apply Is_true_true, isConnected_iff.
  - unfold broadcast, peerValues. apply broadcast_as_sendTo_on.
    intros k p. apply elem_of_map_to_list.
  - intros id Hid. unfold sendTo. by rewrite Hid.
  - intros id p Hid Hc. unfold sendTo. rewrite Hid.
    destruct (isConnected p) eqn:Hc'; [|done]. by apply isConnected_iff in Hc'.
  - intros id. destruct (sendTo_cases pm id msg) as [(p & _ & _ & ->)|[_ ->]];
      simpl; lia.
Qed.

(** In [meshABC] a broadcast goes to "a" and "b"; "c" is disconnected. *)
Example broadcast_example :
  broadcast meshABC (PlainMsg "PING" "me") ≡ₚ
    [(1, PlainMsg "PING" "me"); (2, PlainMsg "PING" "me")] /\
  sendTo meshABC "c" (PlainMsg "PING" "me") = [] /\
  sendTo meshABC "zz" (PlainMsg "PING" "me") = [].
Proof.
  split; [|split; reflexivity].
  vm_compute. apply Permutation_swap || reflexivity.
Qed.



(** ** Handshakes, first come first served *)

Lemma handleHandshake_dom (pm : PeerManager) (peer : Peer)
    (payload : HandshakePayload) :
  dom (peers (handleHandshake pm peer payload))
  = dom (peers pm) ∪ ({[h_nodeId payload]} ∖ {[localId pm]}).
Proof.
  unfold handleHandshake.
  destruct (String.eqb_spec (h_nodeId payload) (localId pm)) as [->|Hne];
    simpl; [set_solver|].
  destruct (bool_decide _) eqn:Hd; simpl.
  - apply bool_decide_eq_true in Hd. apply elem_of_dom in Hd. set_solver.
  - rewrite dom_insert_L. set_solver.
Qed.

Lemma handleHandshakes_localId (pm : PeerManager)
    (incoming : list (Peer * HandshakePayload)) :
  localId (handleHandshakes pm incoming) = localId pm.
Proof.
  unfold handleHandshakes. revert pm.
  induction incoming as [|x incoming IH]; intros pm; simpl; [done|].
  rewrite IH. apply handleHandshake_localId.
Qed.

Lemma handleHandshakes_keeps (pm : PeerManager)
    (incoming : list (Peer * HandshakePayload)) (k : string) (p : Peer) :
  peers pm !! k = Some p -> peers (handleHandshakes pm incoming) !! k = Some p.
Proof.
  unfold handleHandshakes. revert pm.
  induction incoming as [|[peer payload] incoming IH]; intros pm Hk; simpl;
    [done|].
  apply IH. unfold handleHandshake.
  destruct (String.eqb _ _); [done|].
  destruct (bool_decide _) eqn:Hd; [done|]. simpl.
  apply bool_decide_eq_false in Hd.
  rewrite lookup_insert_ne; [done|]. intros <-. apply Hd. eauto.
Qed.

(** X14.  After any run of handshakes the ids in the peer map are those
    that were there before together with every id claimed in the run
    other than the local one; and each id belongs to the first connection
    that claimed it: later handshakes under the same id change nothing
    for it. *)
Theorem handshakes_first_come (pm : PeerManager)
    (incoming : list (Peer * HandshakePayload)) :
  dom (peers (handleHandshakes pm incoming))
  = dom (peers pm) ∪ (list_to_set (claimedIds incoming) ∖ {[localId pm]})
  /\ (forall before peer payload after,
        incoming = before ++ (peer, payload) :: after ->
        h_nodeId payload <> localId pm ->
        peers pm !! h_nodeId payload = None ->
        h_nodeId payload ∉ claimedIds before ->
        peers (handleHandshakes pm incoming) !! h_nodeId payload
        = Some (mkPeer (conn peer) (h_nodeId payload) (h_publicKey payload)
                       (h_orgId payload) (h_listenAddress payload) Connected
                       (h_chainHeight payload))).
Proof.
  split.
  - unfold handleHandshakes, claimedIds. revert pm.
    induction incoming as [|[peer payload] incoming IH]; intros pm; simpl.
    + set_solver.
    + rewrite IH, handleHandshake_dom, handleHandshake_localId. set_solver.
  - intros before peer payload after -> Hself Hnew Hfirst.
    unfold handleHandshakes. rewrite foldl_app. simpl.
    fold (handleHandshakes pm before).
    set (pm1 := handleHandshakes pm before).
    assert (peers pm1 !! h_nodeId payload = None) as Hnone.
    { apply not_elem_of_dom. subst pm1.
      assert (dom (peers (handleHandshakes pm before))
              = dom (peers pm) ∪ (list_to_set (claimedIds before) ∖ {[localId pm]}))
        as ->.
      { clear. unfold handleHandshakes, claimedIds. revert pm.
        induction before as [|[peer payload] before IH]; intros pm; simpl.
        - set_solver.
        - rewrite IH, handleHandshake_dom, handleHandshake_localId. set_solver. }
      apply not_elem_of_dom in Hnew. set_solver. }
    assert (localId pm1 = localId pm) as Hid by apply handleHandshakes_localId.
    fold (handleHandshakes (handleHandshake pm1 peer payload) after).
    apply handleHandshakes_keeps. unfold handleHandshake.
    rewrite Hid. destruct (String.eqb_spec (h_nodeId payload) (localId pm));
      [done|].
    rewrite bool_decide_eq_false_2 by (rewrite Hnone; by intros [? ?]).
    simpl. apply lookup_insert_eq.
Qed.

Lemma handshakes_first_come_witness :
  peers (handleHandshakes mesh0
           [(peerAt 1 "" 0, helloFrom "n2"); (peerAt 2 "" 0, helloFrom "n2")])
    !! "n2"
  = Some (mkPeer 1 "n2" "" "org" None Connected 0).
Proof.
  destruct (handshakes_first_come mesh0
              [(peerAt 1 "" 0, helloFrom "n2"); (peerAt 2 "" 0, helloFrom "n2")])
    as [_ H].
  apply (H [] (peerAt 1 "" 0) (helloFrom "n2") [(peerAt 2 "" 0, helloFrom "n2")]).
  - reflexivity.
  - discriminate.
  - reflexivity.
  - apply not_elem_of_nil.
Defined.

End GossipFacts.

Module SyncExtraFacts.
Import Mesh SyncExtra MeshFacts.

(** ** Which peer is selected *)

Lemma findBestPeer_first_gen (connected : list Peer) (b0 : option Peer)
    (h0 : nat) (best : Peer) (bestHeight : nat) :
  foldl (fun acc peer =>
           if acc.2 <? chainHeight peer
           then (Some peer, chainHeight peer) else acc)
        (b0, h0) connected = (Some best, bestHeight) ->
  (b0 = Some best /\ h0 = bestHeight /\
   forall q, q ∈ connected -> chainHeight q <= h0)
  \/
  (exists before after,
     connected = before ++ best :: after /\
     (forall q, q ∈ before -> chainHeight q < chainHeight best) /\
     (forall q, q ∈ after -> chainHeight q <= chainHeight best) /\
     bestHeight = chainHeight best /\ h0 < bestHeight).
Proof.
  revert b0 h0. induction connected as [|q connected IH]; intros b0 h0; simpl.
  - intros [= -> ->]. left. repeat split. by intros q ?%elem_of_nil.
  - destruct (Nat.ltb_spec h0 (chainHeight q)) as [Hlt|Hge]; intros Hfold.
    + right. destruct (IH _ _ Hfold)
        as [([= <-] & <- & Hall)|(before & after & -> & Hb & Ha & -> & Hlt')].
      * exists [], connected. repeat split; try done.
        by intros q' ?%elem_of_nil.
      * exists (q :: before), after. repeat split; try done; [|lia].
        intros q' [->|?]%elem_of_cons; [done | by apply Hb].
    + destruct (IH _ _ Hfold)
        as [(-> & <- & Hall)|(before & after & -> & Hb & Ha & -> & Hlt')].
      * left. repeat split.
        intros q' [->|?]%elem_of_cons; [done | by apply Hall].
      * right. exists (q :: before), after. repeat split; try done.
        intros q' [->|?]%elem_of_cons; [lia | by apply Hb].
Qed.

(** X15.  Among several peers reporting the highest height the scan keeps
    the first one in the order of the connected-peer list: every peer
    before the selected one reports strictly less, every peer after it no
    more. *)
Theorem findBestPeer_first_highest (connected : list Peer) (localHeight : nat)
    (best : Peer) (bestHeight : nat) :
  findBestPeer connected localHeight = (Some best, bestHeight) ->
  exists before after,
    connected = before ++ best :: after /\
    (forall q, q ∈ before -> chainHeight q < chainHeight best) /\
    (forall q, q ∈ after -> chainHeight q <= chainHeight best) /\
    bestHeight = chainHeight best /\ localHeight < bestHeight.
Proof.
  intros Hfind. destruct (findBestPeer_first_gen _ _ _ _ _ Hfind)
    as [([=] & _)|Hsplit]; exact Hsplit.
Qed.

Lemma findBestPeer_first_highest_witness :
  exists before after,
    [peerAt 1 "a" 3; peerAt 2 "b" 120; peerAt 3 "c" 120]
    = before ++ peerAt 2 "b" 120 :: after /\
    (forall q, q ∈ before -> chainHeight q < 120) /\
    (forall q, q ∈ after -> chainHeight q <= 120) /\
    120 = 120 /\ 0 < 120.
Proof.
  apply (findBestPeer_first_highest
           [peerAt 1 "a" 3; peerAt 2 "b" 120; peerAt 3 "c" 120] 0
           (peerAt 2 "b" 120) 120).
  reflexivity.
Defined.

(** ** Catching up *)

Lemma batchesFor_covers (gap : nat) : gap <= 50 * batchesFor gap.
Proof.
  unfold batchesFor. pose proof (Nat.div_mod_eq (gap + 49) 50).
  pose proof (Nat.mod_upper_bound (gap + 49) 50). lia.
Qed.

Section CatchUp.
Context {Chain Net : Type} {env : SyncEnv Chain Net}.

Lemma syncLoop_reaches (best : Peer) (bestHeight : nat) :
  ServesFully best bestHeight ->
  forall fuel (c : Chain) (net : Net),
    getChainHeight c <= bestHeight ->
    bestHeight - getChainHeight c <= 50 * fuel ->
    exists c' net',
      syncLoop (S fuel) best bestHeight c net = Some (c', net') /\
      getChainHeight c' = bestHeight.
Proof.
  intros Hserve. induction fuel as [|fuel IH]; intros c net Hle Hgap.
  - exists c, net. simpl.
    destruct (Nat.ltb_spec (getChainHeight c) bestHeight); [lia|].
    split; [done | lia].
  - cbn [syncLoop].
    destruct (Nat.ltb_spec (getChainHeight c) bestHeight) as [Hlt|Hge].
    + destruct (Hserve c net Hlt) as [Hne Hheight].
      destruct (requestBlocks net best _ _) as [blocks net1] eqn:Hreq.
      simpl in Hne, Hheight.
      destruct blocks as [|b blocks]; [done|]. cbn [length Nat.eqb].
      apply IH; rewrite Hheight; unfold batchEnd, SYNC_BATCH_SIZE; lia.
    + exists c, net. split; [done | lia].
Qed.

(** X16.  Against a peer that serves every request in full, the run ends
    with the local height equal to the selected peer's reported height,
    after at most one request per started 50 blocks of the gap. *)
Theorem sync_catches_up (connected : list Peer) (c : Chain) (net : Net)
    (best : Peer) (bestHeight : nat) :
  findBestPeer connected (getChainHeight c) = (Some best, bestHeight) ->
  ServesFully best bestHeight ->
  exists c' net',
    syncFromPeers (S (batchesFor (bestHeight - getChainHeight c)))
                  connected c net = Some (c', net') /\
    getChainHeight c' = bestHeight.
Proof.
  intros Hfind Hserve. unfold syncFromPeers. rewrite Hfind.
  assert (getChainHeight c < bestHeight) as Hlt.
  { destruct (findBestPeer_first_gen _ _ _ _ _ Hfind)
      as [([=] & _)|(_ & _ & _ & _ & _ & _ & ?)]. done. }
  apply syncLoop_reaches; [done | lia | apply batchesFor_covers].
Qed.
End CatchUp.

Lemma toy_serves_fully (best : Peer) (bestHeight : nat) :
  ServesFully (env := toyEnv) best bestHeight.
Proof.
  intros c net Hlt. simpl in *. unfold toyHeight, toyRequest in *. simpl.
  assert (forall bs (c0 : list Block),
            length (applyBlocks c0 bs) = length c0 + length bs) as Hlen.
  { induction bs as [|b bs IH]; intros c0; simpl; [lia|].
    rewrite IH. unfold toyApplyBlock. rewrite length_app. simpl. lia. }
  assert (length c + 1 <= batchEnd (length c + 1) bestHeight) as Hend
    by (unfold batchEnd, SYNC_BATCH_SIZE; lia).
  split.
  - intros Hnil%(f_equal length). rewrite length_map, length_seq in Hnil.
    simpl in Hnil. lia.
  - rewrite Hlen, length_map, length_seq. lia.
Qed.

Lemma sync_catches_up_witness :
  exists c' net',
    syncFromPeers (env := toyEnv) (S (batchesFor (120 - 0)))
      [peerAt 1 "a" 3; peerAt 2 "b" 120; peerAt 3 "c" 120] [] 0
    = Some (c', net') /\
    getChainHeight (SyncEnv := toyEnv) c' = 120.
Proof.
  apply (sync_catches_up (env := toyEnv)
           [peerAt 1 "a" 3; peerAt 2 "b" 120; peerAt 3 "c" 120] [] 0
           (peerAt 2 "b" 120) 120).
  - reflexivity.
  - apply toy_serves_fully.
Defined.

End SyncExtraFacts.

Module MigrationFacts.
Import Storage Migrations.

Section MigrateFacts.
Context {Schema : Type}.
Variable exec : string -> Schema -> Outcome Schema.

(** One migration's transaction either commits script and record
    together or leaves the database as it was. *)
Lemma atomically_body_cases (now : nat -> nat) (m : Migration) (k : nat)
    (d : MigDb Schema) :
  (exists s',
     exec (m_sql m) (schema d) = Done s' /\
     (m_version m ∉ appliedVersions d) /\
     atomically (migrationBody exec m (now k)) d
     = Done (mkMigDb s' (applied d ++ [(m_version m, now k)])))
  \/ (exists msg, atomically (migrationBody exec m (now k)) d = Threw msg d /\
       ((exists s', exec (m_sql m) (schema d) = Threw msg s') \/
        (m_version m ∈ appliedVersions d /\
         exists s', exec (m_sql m) (schema d) = Done s'))).
Proof.
  unfold atomically, migrationBody, recordMigration.
  destruct (exec (m_sql m) (schema d)) as [s'|msg s'] eqn:Hexec; simpl.
  - unfold appliedVersions. simpl.
    destruct (bool_decide _) eqn:Hin.
    + apply bool_decide_eq_true in Hin. right. eexists. split; [done|].
      right. eauto.
    + apply bool_decide_eq_false in Hin. left. eauto.
  - right. exists msg. split; [done|]. left. eauto.
Qed.

Lemma migrateLoop_all_applied (now : nat -> nat) (snapshot : list nat) (k : nat)
    (ms : list Migration) (d : MigDb Schema) :
  (forall m, m ∈ ms -> m_version m ∈ snapshot) ->
  migrateLoop exec now snapshot k ms d = Done d.
Proof.
  induction ms as [|m ms IH]; intros Hall; simpl; [done|].
  rewrite bool_decide_eq_true_2 by (apply Hall; by left).
  apply IH. intros m' Hm'. apply Hall. by right.
Qed.

Lemma migrateLoop_success (now : nat -> nat) (snapshot : list nat) (k : nat)
    (ms : list Migration) (d d' : MigDb Schema) :
  migrateLoop exec now snapshot k ms d = Done d' ->
  appliedVersions d' =
    appliedVersions d ++ map m_version (filter (fun m => m_version m ∉ snapshot) ms)
  /\ execAll exec
       (map m_sql (filter (fun m => m_version m ∉ snapshot) ms)) (schema d)
     = Done (schema d').
Proof.
  revert k d. induction ms as [|m ms IH]; intros k d; simpl.
  - intros [= <-]. by rewrite app_nil_r.
  - rewrite filter_cons. destruct (bool_decide _) eqn:Hin.
    + apply bool_decide_eq_true in Hin. rewrite decide_False by tauto. apply IH.
    + apply bool_decide_eq_false in Hin. rewrite decide_True by done.
      destruct (atomically_body_cases now m k d)
        as [(s' & Hexec & Hnew & ->)|(msg & -> & _)]; [|done].
      intros Hrest. destruct (IH _ _ Hrest) as [Hv He]. simpl.
      rewrite Hexec. split; [|exact He].
      rewrite Hv. unfold appliedVersions. simpl.
      by rewrite map_app, <- app_assoc.
Qed.

Lemma migrateLoop_app (now : nat -> nat) (snapshot : list nat) (k : nat)
    (before rest : list Migration) (d d1 : MigDb Schema) :
  migrateLoop exec now snapshot k before d = Done d1 ->
  exists k1,
    migrateLoop exec now snapshot k (before ++ rest) d
    = migrateLoop exec now snapshot k1 rest d1.
Proof.
  revert k d. induction before as [|m before IH]; intros k d; simpl.
  - intros [= <-]. by exists k.
  - destruct (bool_decide _); [apply IH|].
    destruct (atomically _ d) as [d2|]; [apply IH | done].
Qed.

(** X17.  [migrate] is idempotent: after a run that completed, a second
    run, at whatever time, executes nothing and leaves the database
    exactly as it is; likewise on a database that already records every
    version of the list. *)
Theorem migrate_idempotent (now now' : nat -> nat) (MIGRATIONS : list Migration)
    (d d' : MigDb Schema) :
  migrate exec now MIGRATIONS d = Done d' ->
  migrate exec now' MIGRATIONS d' = Done d'
  /\ (forall d0 : MigDb Schema,
        (forall m, m ∈ MIGRATIONS -> m_version m ∈ appliedVersions d0) ->
        migrate exec now' MIGRATIONS d0 = Done d0).
Proof.
  intros Hrun. split.
  - unfold migrate. apply migrateLoop_all_applied. intros m Hm.
    destruct (migrateLoop_success _ _ _ _ _ _ Hrun) as [-> _].
    destruct (decide (m_version m ∈ appliedVersions d)) as [Hin|Hnew].
    + apply elem_of_app. by left.
    + apply elem_of_app. right. apply list_elem_of_fmap. exists m.
      split; [done|]. by apply list_elem_of_filter.
  - intros d0 Hall. by apply migrateLoop_all_applied.
Qed.

(** X18.  A run of [migrate] that completes has executed the scripts of
    exactly the migrations not yet recorded, in list order, each once,
    and has recorded their versions after the existing ones: scripts of
    recorded migrations are not executed again. *)
Theorem migrate_runs_pending_only (now : nat -> nat) (MIGRATIONS : list Migration)
    (d d' : MigDb Schema) :
  migrate exec now MIGRATIONS d = Done d' ->
  appliedVersions d' = appliedVersions d ++ map m_version (pending MIGRATIONS d)
  /\ execAll exec (map m_sql (pending MIGRATIONS d)) (schema d) = Done (schema d')
  /\ NoDup (map m_version (pending MIGRATIONS d))
  /\ (forall m, m ∈ MIGRATIONS -> m_version m ∈ appliedVersions d').
Proof.
  intros Hrun. destruct (migrateLoop_success _ _ _ _ _ _ Hrun) as [Hv He].
  fold (pending MIGRATIONS d) in Hv, He. split; [done|]. split; [done|].
  split.
  - clear He Hv. unfold migrate, pending in *.
    generalize dependent d'. generalize 0.
    set (snapshot := appliedVersions d).
    assert (forall v, v ∈ snapshot -> v ∈ appliedVersions d) as Hsnap by done.
    clearbody snapshot. revert d Hsnap.
    induction MIGRATIONS as [|m ms IH]; intros d Hsnap k d'; simpl;
      [constructor|].
    rewrite filter_cons. destruct (bool_decide _) eqn:Hin.
    + apply bool_decide_eq_true in Hin. rewrite decide_False by tauto.
      by apply IH.
    + apply bool_decide_eq_false in Hin. rewrite decide_True by done.
      destruct (atomically_body_cases now m k d)
        as [(s' & Hexec & Hnew & ->)|(msg & -> & _)]; [|done].
      intros Hrest. simpl. apply NoDup_cons. split.
      * intros Hdup. destruct (migrateLoop_success _ _ _ _ _ _ Hrest) as [_ He].
        clear IH.
        assert (forall ms0 k0 (d0 d1 : MigDb Schema),
                  m_version m ∈ appliedVersions d0 ->
                  m_version m ∈ map m_version
                    (filter (fun m0 => m_version m0 ∉ snapshot) ms0) ->
                  migrateLoop exec now snapshot k0 ms0 d0 = Done d1 -> False)
          as Hclash.
        { clear -Hin. induction ms0 as [|m0 ms0 IH0]; intros k0 d0 d1 Hrec Hocc;
            simpl; [by apply elem_of_nil in Hocc|].
          rewrite filter_cons in Hocc. destruct (bool_decide _) eqn:Hin0.
          - apply bool_decide_eq_true in Hin0.
            rewrite decide_False in Hocc by tauto. by apply IH0.
          - apply bool_decide_eq_false in Hin0.
            rewrite decide_True in Hocc by done. simpl in Hocc.
            destruct (atomically_body_cases now m0 k0 d0)
              as [(s0 & _ & Hnew0 & ->)|(msg & -> & _)]; [|done].
            apply elem_of_cons in Hocc as [Heq|Hocc]; [by rewrite <- Heq in Hnew0|].
            apply IH0; [|done]. unfold appliedVersions in *. simpl.
            rewrite map_app. apply elem_of_app. by left. }
        eapply Hclash; [|exact Hdup|exact Hrest].
        unfold appliedVersions. simpl. rewrite map_app. apply elem_of_app.
        right. by left.
      * eapply IH; [|exact Hrest]. intros v Hv. unfold appliedVersions. simpl.
        rewrite map_app. apply elem_of_app. left. by apply Hsnap.
  - intros m Hm. rewrite Hv.
    destruct (decide (m_version m ∈ appliedVersions d)) as [Hin|Hnew].
    + apply elem_of_app. by left.
    + apply elem_of_app. right. apply list_elem_of_fmap. exists m.
      split; [done|]. by apply list_elem_of_filter.
Qed.

(** X19.  A migration that fails stops the run and leaves no trace of
    itself: when the migrations before it went through and its script
    throws, or its version was already recorded by one of them (a version
    listed twice), [migrate] throws with the database as those earlier
    migrations left it, and the migrations after it are not run. *)
Theorem migrate_stops_at_failure (now : nat -> nat)
    (before after : list Migration) (m : Migration) (d d1 : MigDb Schema) :
  migrate exec now before d = Done d1 ->
  m_version m ∉ appliedVersions d ->
  (forall msg s',
     exec (m_sql m) (schema d1) = Threw msg s' ->
     migrate exec now (before ++ m :: after) d = Threw msg d1)
  /\ (forall s',
       exec (m_sql m) (schema d1) = Done s' ->
       m_version m ∈ appliedVersions d1 ->
       migrate exec now (before ++ m :: after) d
       = Threw "UNIQUE constraint failed: _migrations.version" d1).
Proof.
  intros Hbefore Hnew. unfold migrate in *.
  destruct (migrateLoop_app now _ _ _ (m :: after) _ _ Hbefore) as [k1 ->].
  simpl. rewrite bool_decide_eq_false_2 by done.
  unfold atomically, migrationBody, recordMigration. split.
  - intros msg s' ->. done.
  - intros s' -> Hdup. unfold appliedVersions in *. simpl.
    by rewrite bool_decide_eq_true_2.
Qed.
End MigrateFacts.

Lemma migrate_idempotent_witness :
  migrate toyExec toyClock toyMigrations
    (mkMigDb ["create"; "alter"] [(1, 1000); (2, 1001)])
  = Done (mkMigDb ["create"; "alter"] [(1, 1000); (2, 1001)]).
Proof.
  apply (migrate_idempotent toyExec toyClock toyClock toyMigrations
           (mkMigDb [] [])).
  reflexivity.
Defined.

Lemma migrate_runs_pending_only_witness :
  appliedVersions (mkMigDb ["create"; "alter"] [(1, 5); (2, 1000)])
  = appliedVersions (mkMigDb ["create"] [(1, 5)])
    ++ map m_version (pending toyMigrations (mkMigDb ["create"] [(1, 5)])).
Proof.
  apply (migrate_runs_pending_only toyExec toyClock toyMigrations
           (mkMigDb ["create"] [(1, 5)])).
  reflexivity.
Defined.

Lemma migrate_stops_at_failure_witness :
  migrate toyExec toyClock
    ([mkMigration 1 "create"] ++ mkMigration 2 "bad" :: [mkMigration 3 "later"])
    (mkMigDb [] [])
  = Threw "syntax error" (mkMigDb ["create"] [(1, 1000)]).
Proof.
  destruct (migrate_stops_at_failure toyExec toyClock
              [mkMigration 1 "create"] [mkMigration 3 "later"]
              (mkMigration 2 "bad") (mkMigDb [] []) (mkMigDb ["create"] [(1, 1000)]))
    as [H _].
  - reflexivity.
  - apply not_elem_of_nil.
  - apply (H "syntax error"%string ["create"; "partial"]%string). reflexivity.
Defined.

End MigrationFacts.

Module StorageExtraFacts.
Import Storage StorageExtra StorageFacts.

(** ** What the state root covers *)

Lemma rowString_sameContent (r r' : StateRow) :
  sameContent r r' -> rowString r = rowString r'.
Proof. intros (Hk & Hv & Hn). unfold rowString. by rewrite Hk, Hv, Hn. Qed.

Lemma insertRow_sameContent (r r' : StateRow) (l l' : list StateRow) :
  sameContent r r' -> Forall2 sameContent l l' ->
  Forall2 sameContent (insertRow r l) (insertRow r' l').
Proof.
  intros Hr Hl. induction Hl as [|x x' l l' Hx Hl IH]; simpl.
  - constructor; [done | constructor].
  - assert (key r = key r' /\ key x = key x') as [Hk Hk']
      by (split; [apply Hr | apply Hx]).
    rewrite <- Hk, <- Hk'. destruct (String.leb (key r) (key x)).
    + constructor; [done|]. by constructor.
    + constructor; [done|]. apply IH.
Qed.

Lemma orderByKey_sameContent (l l' : list StateRow) :
  Forall2 sameContent l l' ->
  Forall2 sameContent (orderByKey l) (orderByKey l').
Proof.
  induction 1 as [|r r' l l' Hr Hl IH]; simpl; [constructor|].
  by apply insertRow_sameContent.
Qed.

(** X20.  The state root covers the key, value and version columns only:
    two world states whose rows agree on these three, whatever their
    [updated_at], [updated_by] and [block_height], have the same root. *)
Theorem stateRoot_ignores_metadata (sha256Hex : string -> string) (d d' : Database) :
  Forall2 sameContent (world_state d) (world_state d') ->
  (computeStateRoot sha256Hex d).1 = (computeStateRoot sha256Hex d').1.
Proof.
  intros Hsame%orderByKey_sameContent. unfold computeStateRoot.
  rewrite (Forall2_length _ _ _ Hsame).
  destruct (length (orderByKey (world_state d')) =? 0); [done|]. simpl.
  f_equal. unfold stateString. f_equal.
  induction Hsame as [|r r' l l' Hr _ IH]; simpl; [done|].
  by rewrite (rowString_sameContent _ _ Hr), IH.
Qed.

Lemma stateRoot_ignores_metadata_witness :
  (computeStateRoot tagHash (stateOfRows [rowA])).1
  = (computeStateRoot tagHash (stateOfRows [mkRow "a" "1" 1 99 "carol" 7])).1.
Proof.
  apply (stateRoot_ignores_metadata tagHash).
  simpl. repeat constructor.
Defined.

Lemma string_append_assoc (a b c : string) :
  String.append (String.append a b) c = String.append a (String.append b c).
Proof.
  induction a as [|x a IH]; [reflexivity|].
  change (String x (String.append (String.append a b) c)
          = String x (String.append a (String.append b c))).
  by rewrite IH.
Qed.

(** X21.  The serialisation under the hash does not separate rows: a
    world state of two rows and the world state of the single row whose
    value spells out the end of the first row, a bar and the start of the
    second are written as the same string, so they have the same state
    root whatever the hash function. *)
Theorem stateRoot_does_not_separate_rows (sha256Hex : string -> string)
    (r1 r2 : StateRow) :
  String.leb (key r1) (key r2) = true ->
  stateString (orderByKey [r1; r2]) = stateString (orderByKey [mergedRow r1 r2])
  /\ (computeStateRoot sha256Hex (stateOfRows [r1; r2])).1
     = (computeStateRoot sha256Hex (stateOfRows [mergedRow r1 r2])).1
  /\ length (world_state (stateOfRows [r1; r2]))
     <> length (world_state (stateOfRows [mergedRow r1 r2])).
Proof.
  intros Hle.
  assert (stateString (orderByKey [r1; r2])
          = stateString (orderByKey [mergedRow r1 r2])) as Hstr.
  { unfold orderByKey. simpl. rewrite Hle.
    unfold stateString, rowString, mergedRow. simpl.
    rewrite !string_append_assoc. simpl. done. }
  split; [done|]. split; [|simpl; lia].
  unfold computeStateRoot, stateOfRows. cbn [world_state].
  unfold orderByKey in *. simpl in *. rewrite Hle in *. simpl.
  by rewrite Hstr.
Qed.

Lemma stateRoot_does_not_separate_rows_witness :
  (computeStateRoot tagHash (stateOfRows [rowA; rowB])).1
  = (computeStateRoot tagHash (stateOfRows [mkRow "a" "1:1|b:2" 3 0 "bob" 2])).1.
Proof.
  apply (stateRoot_does_not_separate_rows tagHash rowA rowB). reflexivity.
Defined.

(** ** Blocks that do not fit *)

Section ApplyBlockExtra.
Variable applyTransaction : Transaction -> nat -> Database -> Outcome Database.

Lemma chain_appendBlock_unlinked (b tip : Block) (c : list Block) :
  last c = Some tip ->
  height b <> height tip + 1 \/ previousHash b <> hash tip ->
  chain_appendBlock b c = Threw "Invalid block" c.
Proof.
  intros Htip Hbad. unfold chain_appendBlock. rewrite Htip.
  destruct (Nat.eqb_spec (height b) (height tip + 1)) as [Hh|]; [|done].
  destruct (String.eqb_spec (previousHash b) (hash tip)); [|done].
  by destruct Hbad.
Qed.

Lemma applyBlock_unlinked (b tip : Block) (n : NodeState) :
  last (chain n) = Some tip ->
  height b <> height tip + 1 \/ previousHash b <> hash tip ->
  exists msg, applyBlockAtomically applyTransaction b n = Threw msg n.
Proof.
  intros Htip Hbad. unfold applyBlockAtomically, transaction, applyBlockBody.
  destruct (applyTransactions _ _ _ _) as [d1|msg d1]; simpl.
  - rewrite (chain_appendBlock_unlinked _ _ _ Htip Hbad). simpl.
    exists "Invalid block"%string. by destruct n.
  - exists msg. by destruct n.
Qed.

(** X22.  A block that does not link to the chain tip, by height or by
    previous hash, is rejected with no effect at all: the call throws and
    database and chain are exactly as before, even though every
    transaction of the block had already been applied inside the
    transaction; the error is then "Invalid block". *)
Theorem applyBlock_rejects_unlinked (b tip : Block) (n : NodeState) :
  last (chain n) = Some tip ->
  height b <> height tip + 1 \/ previousHash b <> hash tip ->
  (exists msg, applyBlockAtomically applyTransaction b n = Threw msg n)
  /\ (forall d1,
       applyTransactions applyTransaction (transactions b) (height b) (db n)
         = Done d1 ->
       applyBlockAtomically applyTransaction b n = Threw "Invalid block" n).
Proof.
  intros Htip Hbad. split; [by eapply applyBlock_unlinked|].
  intros d1 Happly. unfold applyBlockAtomically, transaction, applyBlockBody.
  rewrite Happly. simpl.
  rewrite (chain_appendBlock_unlinked _ _ _ Htip Hbad). simpl. by destruct n.
Qed.

Lemma applyBlock_done_chain (b : Block) (n n' : NodeState) :
  applyBlockAtomically applyTransaction b n = Done n' ->
  chain n' = chain n ++ [b].
Proof.
  unfold applyBlockAtomically, transaction, applyBlockBody.
  destruct (applyTransactions _ _ _ _) as [d1|]; simpl; [|done].
  unfold chain_appendBlock.
  destruct (last (chain n)) as [tip|]; simpl.
  - destruct (_ && _); simpl; [|done].
    destruct (blockStore_insert b d1); simpl; [|done]. by intros [= <-].
  - destruct (blockStore_insert b d1); simpl; [|done]. by intros [= <-].
Qed.

(** X23.  A block is never applied twice: once a block has been applied,
    applying the same block again throws and leaves database and chain
    exactly as the first application left them. *)
Theorem applyBlock_never_twice (b : Block) (n n' : NodeState) :
  applyBlockAtomically applyTransaction b n = Done n' ->
  exists msg, applyBlockAtomically applyTransaction b n' = Threw msg n'.
Proof.
  intros Hfirst. apply (applyBlock_unlinked b b).
  - rewrite (applyBlock_done_chain _ _ _ Hfirst). apply last_snoc.
  - left. lia.
Qed.

(** X24.  Only the database is rolled back.  If the transactions apply
    and the chain accepts the block but the insert into the block table
    throws, the call throws with the database exactly as before, while
    the in-memory chain keeps the block it had just appended. *)
Theorem applyBlock_insert_failure_keeps_chain (b : Block) (n : NodeState)
    (d1 d2 : Database) (c1 : list Block) (msg : string) :
  applyTransactions applyTransaction (transactions b) (height b) (db n) = Done d1 ->
  chain_appendBlock b (chain n) = Done c1 ->
  blockStore_insert b d1 = Threw msg d2 ->
  applyBlockAtomically applyTransaction b n
    = Threw msg (mkNodeState (db n) (chain n ++ [b]))
  /\ c1 = chain n ++ [b].
Proof.
  intros Happly Hchain Hinsert.
  assert (c1 = chain n ++ [b]) as ->.
  { unfold chain_appendBlock in Hchain. destruct (last (chain n)).
    - destruct (_ && _); [by injection Hchain | done].
    - by injection Hchain. }
  split; [|done].
  unfold applyBlockAtomically, transaction, applyBlockBody.
  rewrite Happly. simpl. rewrite Hchain. simpl. rewrite Hinsert. done.
Qed.
End ApplyBlockExtra.

Lemma applyBlock_rejects_unlinked_witness :
  applyBlockAtomically toyApply blockGood (mkNodeState emptyDb [blockGood])
  = Threw "Invalid block" (mkNodeState emptyDb [blockGood]).
Proof.
  destruct (applyBlock_rejects_unlinked toyApply blockGood blockGood
              (mkNodeState emptyDb [blockGood])) as [_ H].
  - reflexivity.
  - left. simpl. lia.
  - apply (H (set_world_state [mkRow "x" "x" 1 0 "alice" 1] emptyDb)). reflexivity.
Defined.

Lemma applyBlock_never_twice_witness :
  exists msg,
    applyBlockAtomically toyApply blockGood
      (mkNodeState
         (mkDb [mkRow "x" "x" 1 0 "alice" 1] [blockGood] [txBad]
               (<["alice" := 0]> ∅))
         [blockGood])
    = Threw msg
        (mkNodeState
           (mkDb [mkRow "x" "x" 1 0 "alice" 1] [blockGood] [txBad]
                 (<["alice" := 0]> ∅))
           [blockGood]).
Proof.
  apply (applyBlock_never_twice toyApply blockGood nodeBefore). reflexivity.
Defined.

(** The block table already holds a row of that height while the chain
    in memory is empty. *)
Lemma applyBlock_insert_failure_keeps_chain_witness :
  applyBlockAtomically toyApply blockGood
    (mkNodeState (mkDb [] [blockGood] [] ∅) [])
  = Threw "UNIQUE constraint failed"
      (mkNodeState (mkDb [] [blockGood] [] ∅) [blockGood]).
Proof.
  apply (applyBlock_insert_failure_keeps_chain toyApply blockGood
           (mkNodeState (mkDb [] [blockGood] [] ∅) [])
           (set_world_state [mkRow "x" "x" 1 0 "alice" 1] (mkDb [] [blockGood] [] ∅))
           (set_world_state [mkRow "x" "x" 1 0 "alice" 1] (mkDb [] [blockGood] [] ∅))
           [blockGood]); reflexivity.
Defined.

End StorageExtraFacts.

Module SigningFacts.
Import Identity Signing IdentityFacts.

(** ** Hexadecimal strings *)

Lemma length_toHex (bs : Bytes) : String.length (toHex bs) = 2 * length bs.
Proof. induction bs as [|b bs IH]; simpl; [done|]. rewrite IH. lia. Qed.

Lemma substring_toHex (k : nat) (bs : Bytes) :
  String.substring 0 (2 * k) (toHex bs) = toHex (take k bs).
Proof.
  revert bs. induction k as [|k IH]; intros bs.
  - simpl. by destruct (toHex bs).
  - replace (2 * S k) with (S (S (2 * k))) by lia.
    destruct bs as [|b bs]; simpl; [done|]. by rewrite IH.
Qed.

Lemma prefix_toHex_take (k : nat) (bs : Bytes) :
  String.prefix (toHex (take k bs)) (toHex bs) = true.
Proof.
  revert bs. induction k as [|k IH]; intros bs.
  - simpl. by destruct (toHex bs).
  - destruct bs as [|b bs]; simpl; [done|].
    repeat (match goal with |- context [ascii_dec ?a ?a] =>
              destruct (ascii_dec a a); [|done] end).
    apply IH.
Qed.

(** X25.  The node id of a generated key pair is the hexadecimal form of
    the first 8 bytes of its public key: 16 lower-case hex characters, a
    prefix of the public key.  Two key pairs whose public keys start with
    the same 8 bytes therefore get the same node id. *)
Theorem nodeId_of_generated_key (getPublicKey : Bytes -> Bytes) (sk : Bytes) :
  Forall isByte (getPublicKey sk) ->
  8 <= length (getPublicKey sk) ->
  shortId (publicKey (generateKeyPair getPublicKey sk))
    = toHex (take 8 (getPublicKey sk))
  /\ String.length (shortId (publicKey (generateKeyPair getPublicKey sk))) = 16
  /\ isHexString (shortId (publicKey (generateKeyPair getPublicKey sk))) = true
  /\ String.prefix (shortId (publicKey (generateKeyPair getPublicKey sk)))
                   (publicKey (generateKeyPair getPublicKey sk)) = true
  /\ (forall sk',
        take 8 (getPublicKey sk') = take 8 (getPublicKey sk) ->
        shortId (publicKey (generateKeyPair getPublicKey sk'))
        = shortId (publicKey (generateKeyPair getPublicKey sk))).
Proof.
  intros Hbytes Hlen. unfold shortId, generateKeyPair. simpl.
  change 16 with (2 * 8) at 1 2 3 4 5 6.
  rewrite !substring_toHex. split; [done|]. split; [|split; [|split]].
  - rewrite length_toHex, length_take. lia.
  - apply toHex_isHexString. by apply Forall_take.
  - apply prefix_toHex_take.
  - intros sk' Heq. change 16 with (2 * 8).
    by rewrite !substring_toHex, Heq.
Qed.

Lemma nodeId_of_generated_key_witness :
  shortId (publicKey (generateKeyPair toyPublic toyPrivate)) = "07c80dff00010203"%string.
Proof.
  destruct (nodeId_of_generated_key toyPublic toyPrivate) as [H _].
  - unfold toyPublic. apply Forall_fmap, Forall_true. intros x. apply toUint8_isByte.
  - vm_compute. lia.
  - rewrite H. vm_compute. reflexivity.
Defined.

(** ** Signatures *)

(** X26.  Signing and verifying agree through the hexadecimal encoding:
    with a library in which a signature verifies against the public key of
    its private key, what [sign] returns for a generated key pair is
    accepted by [verify] for the same message and the pair's public key.
    [verify] answers true only when the library does; a library error
    counts as false. *)
Theorem sign_then_verify (getPublicKey : Bytes -> Bytes)
    (edSign : Bytes -> Bytes -> option Bytes)
    (edVerify : Bytes -> Bytes -> Bytes -> option bool)
    (sk : Bytes) (message signatureHex : string) :
  Ed25519Correct getPublicKey edSign edVerify ->
  Forall isByte sk ->
  Forall isByte (getPublicKey sk) ->
  sign edSign message (privateKey (generateKeyPair getPublicKey sk))
    = Some signatureHex ->
  verify edVerify message signatureHex
         (publicKey (generateKeyPair getPublicKey sk)) = true
  /\ (forall msg sig pk,
        verify edVerify msg sig pk = true <->
        edVerify (fromHex sig) (encode msg) (fromHex pk) = Some true).
Proof.
  intros Hlib Hsk Hpk. unfold sign, verify, generateKeyPair. simpl.
  rewrite (fromHex_toHex sk Hsk).
  destruct (edSign (encode message) sk) as [sig|] eqn:Hsig; [|done].
  intros [= <-]. destruct (Hlib _ _ _ Hsig) as [Hbytes Hok].
  rewrite (fromHex_toHex sig Hbytes), (fromHex_toHex _ Hpk), Hok.
  split; [done|]. clear. intros msg sig' pk.
  destruct (edVerify (fromHex sig') (encode msg) (fromHex pk)) as [[]|];
    split; congruence.
Qed.

Lemma toy_scheme_correct : Ed25519Correct toyPublic toySign toyVerify.
Proof.
  intros msg sk sig [= <-]. split.
  - apply Forall_fmap, Forall_true. intros x. apply toUint8_isByte.
  - unfold toyVerify, toyPublic. rewrite map_app.
    by rewrite bool_decide_eq_true_2.
Qed.

Lemma sign_then_verify_witness :
  verify toyVerify "hello" "07c80dff0001020368656c6c6f" "07c80dff00010203" = true.
Proof.
  destruct (sign_then_verify toyPublic toySign toyVerify
              [7; 200; 13; 255; 0; 1; 2; 3]%Z "hello"
              "07c80dff0001020368656c6c6f") as [H _].
  - apply toy_scheme_correct.
  - unfold isByte. repeat constructor; lia.
  - unfold toyPublic. apply Forall_fmap, Forall_true. intros x. apply toUint8_isByte.
  - vm_compute. reflexivity.
  - exact H.
Defined.


(** ** The keystore across restarts and passwords *)

Lemma decrypt_after_encrypt (sha256 : Bytes -> Bytes) (randomSalt : Bytes)
    (keyPair : KeyPair) (password password' org nm : string) :
  Forall isByte randomSalt ->
  decryptKeystore sha256
    (encryptKeystore sha256 randomSalt keyPair password org nm) password'
  = mkKeyPair (publicKey keyPair)
      (toHex (xorWith (deriveKey sha256 password' randomSalt)
                (xorWith (deriveKey sha256 password randomSalt)
                   (fromHex (privateKey keyPair))))).
Proof.
  intros Hsalt. unfold decryptKeystore, encryptKeystore. simpl.
  rewrite (fromHex_toHex randomSalt Hsalt).
  by rewrite (fromHex_toHex (xorWith _ _)) by apply xorWith_isByte.
Qed.

Lemma toUint8_agree (k k' : Z) (i : Z) :
  toUint8 k = toUint8 k' -> (0 <= i < 8)%Z -> Z.testbit k i = Z.testbit k' i.
Proof.
  intros H Hi. apply (f_equal (fun z => Z.testbit z i)) in H.
  rewrite !toUint8_testbit in H by lia.
  by destruct (Z.ltb_spec i 8); [|lia].
Qed.

(** Undoing the XOR with another key byte gives the byte back exactly
    when the two key bytes agree in their low 8 bits. *)
Lemma xor_two_keys (b k k' : Z) :
  isByte b ->
  toUint8 (Z.lxor (toUint8 (Z.lxor b k)) k') = b <-> toUint8 k = toUint8 k'.
Proof.
  intros Hb. split; intros H.
  - apply Z.bits_inj'. intros i Hi. rewrite !toUint8_testbit by done.
    destruct (Z.ltb_spec i 8) as [Hlt|]; [|done].
    apply (f_equal (fun z => Z.testbit z i)) in H.
    rewrite toUint8_testbit, Z.lxor_spec, toUint8_testbit, Z.lxor_spec in H by done.
    destruct (Z.ltb_spec i 8); [|lia].
    by destruct (Z.testbit b i), (Z.testbit k i), (Z.testbit k' i).
  - rewrite <- (xor_twice b k Hb) at 2.
    apply Z.bits_inj'. intros i Hi. rewrite !toUint8_testbit by done.
    destruct (Z.ltb_spec i 8) as [Hlt|]; [|done].
    rewrite !Z.lxor_spec. f_equal. symmetry. apply toUint8_agree; [done|lia].
Qed.

Lemma length_xorWith (derived input : Bytes) :
  length (xorWith derived input) = length input.
Proof. unfold xorWith. apply length_imap. Qed.

(** X27.  A second start finds the keystore the first start wrote and
    loads from it the key pair the first start generated, whatever the
    random bytes and the configuration of the second start; the file is
    left as it was. *)
Theorem restart_keeps_identity {File : Type}
    (serializeKeystore : KeystoreFile -> File)
    (deserializeKeystore : File -> KeystoreFile)
    (sha256 getPublicKey : Bytes -> Bytes)
    (randomPrivateKey randomSalt randomPrivateKey' randomSalt' : Bytes)
    (org nm org' nm' : string) :
  (forall ks, deserializeKeystore (serializeKeystore ks) = ks) ->
  Forall isByte randomPrivateKey ->
  Forall isByte randomSalt ->
  exists file,
    loadOrCreateKeyPair serializeKeystore deserializeKeystore sha256
      getPublicKey None randomPrivateKey randomSalt org nm
    = (generateKeyPair getPublicKey randomPrivateKey, Some file)
    /\ loadOrCreateKeyPair serializeKeystore deserializeKeystore sha256
         getPublicKey (Some file) randomPrivateKey' randomSalt' org' nm'
       = (generateKeyPair getPublicKey randomPrivateKey, Some file).
Proof.
  intros Hround Hpriv Hsalt. eexists. split; [reflexivity|].
  unfold loadOrCreateKeyPair. rewrite Hround.
  rewrite decrypt_after_encrypt by done.
  rewrite xorWith_involutive by apply fromHex_isByte.
  unfold generateKeyPair. simpl.
  by rewrite (fromHex_toHex _ Hpriv).
Qed.

Lemma restart_keeps_identity_witness :
  exists file : KeystoreFile,
    loadOrCreateKeyPair id id toyDigest toyPublic None toyPrivate toySalt
      "my-org" "node-1"
    = (generateKeyPair toyPublic toyPrivate, Some file)
    /\ loadOrCreateKeyPair id id toyDigest toyPublic (Some file) [] []
         "other-org" "node-2"
       = (generateKeyPair toyPublic toyPrivate, Some file).
Proof.
  apply (restart_keeps_identity id id toyDigest toyPublic toyPrivate toySalt
           [] [] "my-org" "node-1" "other-org" "node-2").
  - reflexivity.
  - unfold toyPrivate, isByte. repeat constructor; lia.
  - unfold toySalt, isByte. repeat constructor; lia.
Defined.

(** X28.  Decrypting with another password does not fail: the keystore
    has no integrity check.  Whatever the key pair, the result keeps the
    public key and holds a lower-case hexadecimal private key with two
    digits for each encrypted byte, and it is what the right password
    returns exactly when the two derived keys agree on every byte that
    is used. *)
Theorem decrypt_with_other_password (sha256 : Bytes -> Bytes)
    (randomSalt : Bytes) (keyPair : KeyPair)
    (password password' org nm : string) :
  Forall isByte randomSalt ->
  publicKey (decryptKeystore sha256
     (encryptKeystore sha256 randomSalt keyPair password org nm) password')
  = publicKey keyPair
  /\ isHexString (privateKey (decryptKeystore sha256
       (encryptKeystore sha256 randomSalt keyPair password org nm) password'))
     = true
  /\ String.length (privateKey (decryptKeystore sha256
       (encryptKeystore sha256 randomSalt keyPair password org nm) password'))
     = 2 * length (fromHex (privateKey keyPair))
  /\ (decryptKeystore sha256
        (encryptKeystore sha256 randomSalt keyPair password org nm) password'
      = decryptKeystore sha256
          (encryptKeystore sha256 randomSalt keyPair password org nm) password
      <-> forall i, i < length (fromHex (privateKey keyPair)) ->
            toUint8 (nth (i mod length (deriveKey sha256 password randomSalt))
                         (deriveKey sha256 password randomSalt) 0%Z)
            = toUint8 (nth (i mod length (deriveKey sha256 password' randomSalt))
                           (deriveKey sha256 password' randomSalt) 0%Z)).
Proof.
  intros Hsalt. rewrite !decrypt_after_encrypt by done. simpl.
  set (d := deriveKey sha256 password randomSalt).
  set (d' := deriveKey sha256 password' randomSalt).
  pose proof (fromHex_isByte (privateKey keyPair)) as Hbytes.
  split; [done|]. split; [|split].
  - apply toHex_isHexString, xorWith_isByte.
  - by rewrite length_toHex, !length_xorWith.
  - rewrite (xorWith_involutive d) by done.
    transitivity (xorWith d' (xorWith d (fromHex (privateKey keyPair)))
                  = fromHex (privateKey keyPair)).
    + split.
      * intros H. apply (f_equal privateKey) in H. simpl in H.
        apply (f_equal fromHex) in H.
        by rewrite !fromHex_toHex in H by (done || apply xorWith_isByte).
      * by intros ->.
    + split.
      * intros H i Hi.
        destruct (lookup_lt_is_Some_2 _ _ Hi) as [b Hb].
        apply (f_equal (fun l => l !! i)) in H.
        rewrite !xorWith_lookup, Hb in H. simpl in H.
        injection H as H.
        apply (xor_two_keys b); [|done].
        by apply (Forall_lookup_1 _ _ _ _ Hbytes Hb).
      * intros H. apply list_eq. intros i. rewrite !xorWith_lookup.
        destruct (fromHex (privateKey keyPair) !! i) as [b|] eqn:Hb;
          simpl; [|done].
        f_equal. apply xor_two_keys.
        -- by apply (Forall_lookup_1 _ _ _ _ Hbytes Hb).
        -- apply H. by apply lookup_lt_Some in Hb.
Qed.

Lemma decrypt_with_other_password_witness :
  String.length (privateKey (decryptKeystore toyDigest
    (encryptKeystore toyDigest toySalt toyKeyPair "secret" "my-org" "node-1")
    "guess")) = 16.
Proof.
  destruct (decrypt_with_other_password toyDigest toySalt toyKeyPair
              "secret" "guess" "my-org" "node-1") as (_ & _ & H & _).
  - unfold toySalt, isByte. repeat constructor; lia.
  - rewrite H. reflexivity.
Defined.

End SigningFacts.
